(** * zwis: in-memory caches with TTL and LRU / LFU / ARC eviction

    A shallow embedding of the Go package [zwis] and the properties its
    specification states about it.

    Conventions of the embedding.
    - Every engine is guarded by one mutex held for the whole call (LRU's
      [Get] takes the read lock for the lookup and then the write lock);
      the model is the sequential semantics, one call at a time.
    - [time.Now()] is an argument [now] of the calls that read the clock,
      in nanoseconds since the Unix epoch, as [UnixNano] reports it.
      Instants and durations are integers in [Z].
    - Go [int] and [int64] values are in [Z]; the counters of this package
      (lengths, capacities, frequencies) stay far away from 2^63.
    - A Go pointer is an address ([nat]) into a heap that is part of the
      state; [nil] is [None].  Dereferencing [nil] is the runtime panic
      [Panic].  An address that is not allocated cannot occur in Go (memory
      is garbage collected); the model reports it as [Dangling], and no
      run of calls ends that way ([LRU_total], [LFU_never_Dangling],
      [ARC_never_Dangling]).
    - A [container/list] list is the Rocq list of its elements, front
      first.  An element is the immutable pair of its identity [eid] and its
      [Value]; two elements are the same pointer iff they have the same
      [eid]. *)

From stdpp Require Import gmap strings list fin_maps.
From Stdlib Require Import ZArith Lia.

Open Scope Z_scope.

(** ** Go values and results *)

(** [interface{}] payloads: the engines store and return them and never look
    inside. *)
Inductive any : Type :=
| VNil
| VInt (n : Z)
| VStr (s : string).

(** The Go [error] interface: [None] is the nil error. *)
Definition error : Type := option string.

(** Outcome of a call. *)
Inductive exec (A : Type) : Type :=
| Ok (a : A)
| Panic
| Dangling.
Arguments Ok {A} a.
Arguments Panic {A}.
Arguments Dangling {A}.

Definition bind {A B : Type} (m : exec A) (f : A -> exec B) : exec B :=
  match m with
  | Ok a => f a
  | Panic => Panic
  | Dangling => Dangling
  end.

Notation "x <- m ;; k" := (bind m (fun x => k))
  (at level 20, m at level 99, k at level 200, only parsing).

(** Load through a pointer that may be nil. *)
Definition deref {A : Type} (h : gmap nat A) (ptr : option nat) : exec A :=
  match ptr with
  | None => Panic
  | Some a => match h !! a with Some x => Ok x | None => Dangling end
  end.

(** Load through a pointer known not to be nil. *)
Definition load {A : Type} (h : gmap nat A) (a : nat) : exec A :=
  deref h (Some a).

(** [len] of a list or map, as a Go [int]. *)
Definition Len {A : Type} (l : list A) : Z := Z.of_nat (length l).

(** ** [time.Time] *)

(** The zero [Time] (what [var t time.Time] holds) or an instant. *)
Definition Time : Type := option Z.

Definition IsZero (t : Time) : bool :=
  match t with None => true | Some _ => false end.

(** [t.Before(now)]; the zero Time lies in year 1, before any clock reading. *)
Definition Before (t : Time) (now : Z) : bool :=
  match t with None => true | Some x => x <? now end.

(** ** [container/list] *)

Module GoList.

Record Element : Type := mkElement { eid : nat; Value : nat }.

Definition same (e x : Element) : bool := Nat.eqb (eid e) (eid x).

(** [l.Remove(e)]: unlinks [e] when it is an element of [l]. *)
Definition Remove (e : Element) (l : list Element) : list Element :=
  filter (fun x => eid x <> eid e) l.

(** The loop of [listContains]: pointer comparison along the list. *)
Definition contains (l : list Element) (e : Element) : bool :=
  existsb (same e) l.

(** [l.MoveToFront(e)]: nothing when [e] is not an element of [l]. *)
Definition MoveToFront (e : Element) (l : list Element) : list Element :=
  if contains l e then e :: Remove e l else l.

(** [l.Back()]: nil on the empty list. *)
Definition Back {A : Type} (l : list A) : option A := last l.

End GoList.

(** ** MemoryCache: the unbounded store *)

Module MemoryCache.

Record item : Type := mkItem { value : any; expiration : Z }.

Record MemoryCache : Type := mkMemoryCache { items : gmap string item }.

Definition NewMemoryCache : MemoryCache := {| items := ∅ |}.

Definition Get (now : Z) (key : string) (c : MemoryCache)
  : MemoryCache * (any * bool) :=
  match items c !! key with
  | None => (c, (VNil, false))
  | Some it =>
      if (0 <? expiration it) && (expiration it <? now)
      then (c, (VNil, false))
      else (c, (value it, true))
  end.

Definition Set_ (now : Z) (key : string) (v : any) (ttl : Z)
    (c : MemoryCache) : MemoryCache * error :=
  let expiration := if 0 <? ttl then now + ttl else 0 in
  ({| items := <[key := mkItem v expiration]> (items c) |}, None).

Definition Delete (key : string) (c : MemoryCache) : MemoryCache * error :=
  ({| items := delete key (items c) |}, None).

Definition Clear (c : MemoryCache) : MemoryCache * error :=
  ({| items := ∅ |}, None).

End MemoryCache.

(** The same store in its [time.Time] revision, with [Flush] for [Clear]. *)
Module MemoryCacheTime.

Record item : Type := mkItem { value : any; expiration : Time }.

Record MemoryCache : Type := mkMemoryCache { items : gmap string item }.

Definition NewMemoryCache : MemoryCache := {| items := ∅ |}.

Definition Get (now : Z) (key : string) (c : MemoryCache)
  : MemoryCache * (any * bool) :=
  match items c !! key with
  | None => (c, (VNil, false))
  | Some it =>
      if negb (IsZero (expiration it)) && Before (expiration it) now
      then (c, (VNil, false))
      else (c, (value it, true))
  end.

Definition Set_ (now : Z) (key : string) (v : any) (ttl : Z)
    (c : MemoryCache) : MemoryCache * error :=
  let expiration : Time := if 0 <? ttl then Some (now + ttl) else None in
  ({| items := <[key := mkItem v expiration]> (items c) |}, None).

Definition Delete (key : string) (c : MemoryCache) : MemoryCache * error :=
  ({| items := delete key (items c) |}, None).

Definition Flush (c : MemoryCache) : MemoryCache * error :=
  ({| items := ∅ |}, None).

End MemoryCacheTime.

(** ** LRUCache *)

Module LRU.
Import GoList.

Record entry : Type :=
  mkEntry { key : string; value : any; expiration : Time }.

(** [cache] maps a key to its list element; the [Value] of an element is
    the address of its [entry] in [heap]. *)
Record LRUCache : Type := mkLRUCache {
  capacity : Z;
  cache : gmap string Element;
  lst : list Element;
  heap : gmap nat entry;
  fresh : nat
}.

Definition NewLRUCache (capacity : Z) : LRUCache :=
  {| capacity := capacity; cache := ∅; lst := []; heap := ∅; fresh := 0%nat |}.

Definition removeElement (elem : Element) (lru : LRUCache) : exec LRUCache :=
  e <- load (heap lru) (Value elem) ;;
  Ok {| capacity := capacity lru;
        cache := delete (key e) (cache lru);
        lst := Remove elem (lst lru);
        heap := heap lru;
        fresh := fresh lru |}.

Definition removeOldest (lru : LRUCache) : exec LRUCache :=
  match Back (lst lru) with
  | Some oldest => removeElement oldest lru
  | None => Ok lru
  end.

Definition Get (now : Z) (k : string) (lru : LRUCache)
  : exec (LRUCache * (any * bool)) :=
  match cache lru !! k with
  | None => Ok (lru, (VNil, false))
  | Some elem =>
      e <- load (heap lru) (Value elem) ;;
      if negb (IsZero (expiration e)) && Before (expiration e) now then
        lru' <- removeElement elem lru ;;
        Ok (lru', (VNil, false))
      else
        Ok ({| capacity := capacity lru;
               cache := cache lru;
               lst := MoveToFront elem (lst lru);
               heap := heap lru;
               fresh := fresh lru |}, (value e, true))
  end.

Definition Set_ (now : Z) (k : string) (v : any) (ttl : Z) (lru : LRUCache)
  : exec LRUCache :=
  let expiration : Time := if 0 <? ttl then Some (now + ttl) else None in
  match cache lru !! k with
  | Some elem =>
      e <- load (heap lru) (Value elem) ;;
      Ok {| capacity := capacity lru;
            cache := cache lru;
            lst := MoveToFront elem (lst lru);
            heap := <[Value elem := mkEntry (key e) v expiration]> (heap lru);
            fresh := fresh lru |}
  | None =>
      lru1 <- (if Len (lst lru) >=? capacity lru
               then removeOldest lru else Ok lru) ;;
      let elem := mkElement (fresh lru1) (fresh lru1) in
      Ok {| capacity := capacity lru1;
            cache := <[k := elem]> (cache lru1);
            lst := elem :: lst lru1;
            heap := <[fresh lru1 := mkEntry k v expiration]> (heap lru1);
            fresh := S (fresh lru1) |}
  end.

Definition Delete (k : string) (lru : LRUCache) : exec LRUCache :=
  match cache lru !! k with
  | Some elem => removeElement elem lru
  | None => Ok lru
  end.

Definition Clear (lru : LRUCache) : exec LRUCache :=
  Ok {| capacity := capacity lru; cache := ∅; lst := [];
        heap := heap lru; fresh := fresh lru |}.

(** Calls on one cache, in program order. *)
Inductive op : Type :=
| OSet (now : Z) (k : string) (v : any) (ttl : Z)
| OGet (now : Z) (k : string)
| ODelete (k : string)
| OClear.

Definition step (lru : LRUCache) (o : op) : exec LRUCache :=
  match o with
  | OSet now k v ttl => Set_ now k v ttl lru
  | OGet now k => r <- Get now k lru ;; Ok (fst r)
  | ODelete k => Delete k lru
  | OClear => Clear lru
  end.

Fixpoint run (lru : LRUCache) (ops : list op) : exec LRUCache :=
  match ops with
  | [] => Ok lru
  | o :: rest => lru' <- step lru o ;; run lru' rest
  end.

Definition reachable (c : Z) (lru : LRUCache) : Prop :=
  exists ops, run (NewLRUCache c) ops = Ok lru.

(** *** Well-formed states and the view of a cache *)

(** The entries of the cache, most recently used first. *)
Definition view (lru : LRUCache) : list entry :=
  omap (fun elem => heap lru !! Value elem) (lst lru).

(** The lookup map and the list describe the same entries: every element
    of the list owns a distinct entry and is what the map holds for that
    entry's key, and the map holds nothing else. *)
Record wf (lru : LRUCache) : Prop := mkWf {
  wf_nodup : NoDup (eid <$> lst lru);
  wf_elem : forall elem, elem ∈ lst lru ->
    Value elem = eid elem /\ (eid elem < fresh lru)%nat /\
    exists e, heap lru !! Value elem = Some e /\
              cache lru !! key e = Some elem;
  wf_cache : forall k elem, cache lru !! k = Some elem ->
    elem ∈ lst lru /\
    exists e, heap lru !! Value elem = Some e /\ key e = k
}.

(** [expiration] as [Set] computes it. *)
Definition expiry (now ttl : Z) : Time :=
  if 0 <? ttl then Some (now + ttl) else None.

Definition expired (e : entry) (now : Z) : bool :=
  negb (IsZero (expiration e)) && Before (expiration e) now.

(** The state after [PushFront(&entry{...})] and the map assignment. *)
Definition pushed (e : entry) (lru : LRUCache) : LRUCache :=
  let elem := mkElement (fresh lru) (fresh lru) in
  {| capacity := capacity lru;
     cache := <[key e := elem]> (cache lru);
     lst := elem :: lst lru;
     heap := <[fresh lru := e]> (heap lru);
     fresh := S (fresh lru) |}.


(** A [Set] call: the clock reading when it runs, key, value and ttl. *)
Record call : Type :=
  mkCall { cnow : Z; ckey : string; cval : any; cttl : Z }.


(** The entry the call stores. *)
Definition entryOf (s : call) : entry :=
  mkEntry (ckey s) (cval s) (expiry (cnow s) (cttl s)).

End LRU.

(** ** LFUCache *)

Module LFU.

(** [fnode] is the field [freqNode] of the Go struct (the name is taken by
    the node type). *)
Record lfuItem : Type := mkItem {
  key : string;
  value : any;
  frequency : Z;
  expiration : Z;
  fnode : option nat
}.

(** [nitems] is the field [items] of the Go struct: key to item pointer. *)
Record freqNode : Type := mkNode {
  freq : Z;
  nitems : gmap string nat;
  prev : option nat;
  next : option nat
}.

(** [ihp] and [nhp] hold the [lfuItem]s and [freqNode]s the pointers of the
    cache refer to; [fresh] is the next unused address. *)
Record LFUCache : Type := mkLFUCache {
  capacity : Z;
  items : gmap string nat;
  freqs : gmap Z nat;
  minFreq : Z;
  ihp : gmap nat lfuItem;
  nhp : gmap nat freqNode;
  fresh : nat
}.

Definition set_items (m : gmap string nat) (c : LFUCache) : LFUCache :=
  mkLFUCache (capacity c) m (freqs c) (minFreq c) (ihp c) (nhp c) (fresh c).
Definition set_freqs (m : gmap Z nat) (c : LFUCache) : LFUCache :=
  mkLFUCache (capacity c) (items c) m (minFreq c) (ihp c) (nhp c) (fresh c).
Definition set_minFreq (f : Z) (c : LFUCache) : LFUCache :=
  mkLFUCache (capacity c) (items c) (freqs c) f (ihp c) (nhp c) (fresh c).
Definition set_ihp (h : gmap nat lfuItem) (c : LFUCache) : LFUCache :=
  mkLFUCache (capacity c) (items c) (freqs c) (minFreq c) h (nhp c) (fresh c).
Definition set_nhp (h : gmap nat freqNode) (c : LFUCache) : LFUCache :=
  mkLFUCache (capacity c) (items c) (freqs c) (minFreq c) (ihp c) h (fresh c).
Definition set_fresh (n : nat) (c : LFUCache) : LFUCache :=
  mkLFUCache (capacity c) (items c) (freqs c) (minFreq c) (ihp c) (nhp c) n.

Definition set_nitems (m : gmap string nat) (n : freqNode) : freqNode :=
  mkNode (freq n) m (prev n) (next n).
Definition set_prev (q : option nat) (n : freqNode) : freqNode :=
  mkNode (freq n) (nitems n) q (next n).
Definition set_next (q : option nat) (n : freqNode) : freqNode :=
  mkNode (freq n) (nitems n) (prev n) q.

(** Assignment to fields of the node at [np], of the item at [ip]. *)
Definition modNode (np : nat) (f : freqNode -> freqNode) (c : LFUCache)
  : exec LFUCache :=
  n <- load (nhp c) np ;;
  Ok (set_nhp (<[np := f n]> (nhp c)) c).

Definition modItem (ip : nat) (f : lfuItem -> lfuItem) (c : LFUCache)
  : exec LFUCache :=
  it <- load (ihp c) ip ;;
  Ok (set_ihp (<[ip := f it]> (ihp c)) c).

Definition NewLFUCache (capacity : Z) : LFUCache :=
  mkLFUCache capacity ∅ ∅ 0 ∅ ∅ 0%nat.

Definition removeFreqNode (np : nat) (c : LFUCache) : exec LFUCache :=
  node <- load (nhp c) np ;;
  let c := set_freqs (delete (freq node) (freqs c)) c in
  c <- match prev node with
       | Some pp => modNode pp (set_next (next node)) c
       | None => Ok c
       end ;;
  node <- load (nhp c) np ;;
  match next node with
  | Some nn => modNode nn (set_prev (prev node)) c
  | None => Ok c
  end.

Definition addFreqNode (np : nat) (c : LFUCache) : exec LFUCache :=
  node <- load (nhp c) np ;;
  match freqs c !! (freq node - 1) with
  | Some pp =>
      c <- modNode np (set_prev (Some pp)) c ;;
      prevNode <- load (nhp c) pp ;;
      c <- modNode np (set_next (next prevNode)) c ;;
      c <- modNode pp (set_next (Some np)) c ;;
      node <- load (nhp c) np ;;
      match next node with
      | Some nn => modNode nn (set_prev (Some np)) c
      | None => Ok c
      end
  | None => Ok c
  end.

Definition incrementFreq (ip : nat) (c : LFUCache) : exec LFUCache :=
  item <- load (ihp c) ip ;;
  c <- match fnode item with
       | Some np =>
           c <- modNode np
                  (fun n => set_nitems (delete (key item) (nitems n)) n) c ;;
           node <- load (nhp c) np ;;
           if Z.of_nat (size (nitems node)) =? 0
           then removeFreqNode np c else Ok c
       | None => Ok c
       end ;;
  c <- modItem ip
         (fun it => mkItem (key it) (value it) (frequency it + 1)
                           (expiration it) (fnode it)) c ;;
  item <- load (ihp c) ip ;;
  let nextFreq := frequency item in
  c <- match freqs c !! nextFreq with
       | Some np =>
           c <- modNode np
                  (fun n => set_nitems (<[key item := ip]> (nitems n)) n) c ;;
           modItem ip
             (fun it => mkItem (key it) (value it) (frequency it)
                               (expiration it) (Some np)) c
       | None =>
           let np := fresh c in
           let c := set_fresh (S np)
                      (set_nhp (<[np := mkNode nextFreq ∅ None None]> (nhp c)) c) in
           let c := set_freqs (<[nextFreq := np]> (freqs c)) c in
           c <- addFreqNode np c ;;
           c <- modNode np
                  (fun n => set_nitems (<[key item := ip]> (nitems n)) n) c ;;
           modItem ip
             (fun it => mkItem (key it) (value it) (frequency it)
                               (expiration it) (Some np)) c
       end ;;
  item <- load (ihp c) ip ;;
  if frequency item =? 1 then Ok (set_minFreq 1 c)
  else if frequency item - 1 =? minFreq c then
    node <- deref (nhp c) (freqs c !! minFreq c) ;;
    if Z.of_nat (size (nitems node)) =? 0
    then Ok (set_minFreq (minFreq c + 1) c)
    else Ok c
  else Ok c.

Definition remove (ip : nat) (c : LFUCache) : exec LFUCache :=
  item <- load (ihp c) ip ;;
  let c := set_items (delete (key item) (items c)) c in
  match fnode item with
  | Some np =>
      c <- modNode np
             (fun n => set_nitems (delete (key item) (nitems n)) n) c ;;
      node <- load (nhp c) np ;;
      if Z.of_nat (size (nitems node)) =? 0
      then removeFreqNode np c else Ok c
  | None => Panic
  end.

(** [for _, item := range node.items { ...; break }] takes whichever member
    the iteration yields first; Go leaves the order of a map iteration
    open.  [pick] is that choice. *)
Definition range_first (pick : nat) (m : gmap string nat) : option nat :=
  let l := map_to_list m in
  snd <$> l !! (pick mod length l)%nat.

Definition evict (pick : nat) (c : LFUCache) : exec LFUCache :=
  match freqs c !! minFreq c with
  | Some np =>
      node <- load (nhp c) np ;;
      match range_first pick (nitems node) with
      | Some ip => remove ip c
      | None => Ok c
      end
  | None => Ok c
  end.

Definition Get (now : Z) (k : string) (c : LFUCache)
  : exec (LFUCache * (any * bool)) :=
  match items c !! k with
  | Some ip =>
      item <- load (ihp c) ip ;;
      if (0 <? expiration item) && (expiration item <? now) then
        c <- remove ip c ;;
        Ok (c, (VNil, false))
      else
        c <- incrementFreq ip c ;;
        item <- load (ihp c) ip ;;
        Ok (c, (value item, true))
  | None => Ok (c, (VNil, false))
  end.

Definition Set_ (now : Z) (k : string) (v : any) (ttl : Z) (pick : nat)
    (c : LFUCache) : exec (LFUCache * error) :=
  let expiration := if 0 <? ttl then now + ttl else 0 in
  match items c !! k with
  | Some ip =>
      c <- modItem ip
             (fun it => mkItem (key it) v (frequency it) expiration (fnode it))
             c ;;
      c <- incrementFreq ip c ;;
      Ok (c, None)
  | None =>
      c <- (if Z.of_nat (size (items c)) >=? capacity c
            then evict pick c else Ok c) ;;
      let ip := fresh c in
      let c := set_fresh (S ip)
                 (set_ihp (<[ip := mkItem k v 0 expiration None]> (ihp c)) c) in
      let c := set_items (<[k := ip]> (items c)) c in
      c <- incrementFreq ip c ;;
      Ok (c, None)
  end.

Definition Delete (k : string) (c : LFUCache) : exec (LFUCache * error) :=
  match items c !! k with
  | Some ip => c <- remove ip c ;; Ok (c, None)
  | None => Ok (c, None)
  end.

Definition Flush (c : LFUCache) : exec (LFUCache * error) :=
  Ok (set_minFreq 0 (set_freqs ∅ (set_items ∅ c)), None).

Inductive op : Type :=
| OSet (now : Z) (k : string) (v : any) (ttl : Z) (pick : nat)
| OGet (now : Z) (k : string)
| ODelete (k : string)
| OFlush.

Definition step (c : LFUCache) (o : op) : exec LFUCache :=
  match o with
  | OSet now k v ttl pick => r <- Set_ now k v ttl pick c ;; Ok (fst r)
  | OGet now k => r <- Get now k c ;; Ok (fst r)
  | ODelete k => r <- Delete k c ;; Ok (fst r)
  | OFlush => r <- Flush c ;; Ok (fst r)
  end.

Fixpoint run (c : LFUCache) (ops : list op) : exec LFUCache :=
  match ops with
  | [] => Ok c
  | o :: rest => c' <- step c o ;; run c' rest
  end.

Definition reachable (cap : Z) (c : LFUCache) : Prop :=
  exists ops, run (NewLFUCache cap) ops = Ok c.

(** *** Valid pointers and well-formed states *)

(** A pointer field is nil or refers to an allocated node. *)
Definition ovalid (h : gmap nat freqNode) (q : option nat) : Prop :=
  match q with Some a => is_Some (h !! a) | None => True end.

(** The links between nodes and the bucket table refer to allocated
    nodes. *)
Definition nodes_ok (h : gmap nat freqNode) (fr : gmap Z nat) : Prop :=
  (forall np nd, h !! np = Some nd ->
     ovalid h (prev nd) /\ ovalid h (next nd)) /\
  (forall f np, fr !! f = Some np -> is_Some (h !! np)).

(** What a step on the node structure leaves alone: the items and their
    table, and the allocation of every node. *)
Record node_step (c c' : LFUCache) : Prop := mkNodeStep {
  ns_capacity : capacity c' = capacity c;
  ns_items : items c' = items c;
  ns_ihp : ihp c' = ihp c;
  ns_fresh : fresh c' = fresh c;
  ns_alloc : forall a, is_Some (nhp c !! a) -> is_Some (nhp c' !! a);
  ns_ok : nodes_ok (nhp c) (freqs c) -> nodes_ok (nhp c') (freqs c')
}.

(** Detaching an item from its bucket, as [incrementFreq] and [remove]
    do. *)
Definition detach (k : string) (np : nat) (c : LFUCache) : exec LFUCache :=
  c <- modNode np (fun n => set_nitems (delete k (nitems n)) n) c ;;
  node <- load (nhp c) np ;;
  if Z.of_nat (size (nitems node)) =? 0 then removeFreqNode np c else Ok c.

(** Every entry of the table of items is an allocated item stored under
    its own key and attached to an allocated bucket; node links and the
    bucket table are valid; items live below [fresh]. *)
Record wf (c : LFUCache) : Prop := mkWf {
  wf_items : forall k ip, items c !! k = Some ip ->
    exists it, ihp c !! ip = Some it /\ key it = k /\
               exists np, fnode it = Some np /\ is_Some (nhp c !! np);
  wf_nodes : nodes_ok (nhp c) (freqs c);
  wf_fresh : forall ip, is_Some (ihp c !! ip) -> (ip < fresh c)%nat
}.

(** The same, except that the item at [ip] may not have a bucket yet. *)
Record wf_but (ip : nat) (c : LFUCache) : Prop := mkWfBut {
  wb_items : forall k ip', items c !! k = Some ip' ->
    exists it, ihp c !! ip' = Some it /\ key it = k /\
               (ip' = ip \/
                exists np, fnode it = Some np /\ is_Some (nhp c !! np));
  wb_nodes : nodes_ok (nhp c) (freqs c);
  wb_fresh : forall ip', is_Some (ihp c !! ip') -> (ip' < fresh c)%nat
}.

(** *** Buckets and the table of items *)

(** The fields a step on the node structure does not touch. *)
Record frame (c c' : LFUCache) : Prop := mkFrame {
  fr_capacity : capacity c' = capacity c;
  fr_items : items c' = items c;
  fr_ihp : ihp c' = ihp c;
  fr_minFreq : minFreq c' = minFreq c;
  fr_fresh : fresh c' = fresh c
}.

(** Two node heaps with the same nodes, each with the same frequency and
    the same members; only the links may differ. *)
Definition same_buckets (h h' : gmap nat freqNode) : Prop :=
  forall a,
    (freq <$> h' !! a) = (freq <$> h !! a) /\
    (nitems <$> h' !! a) = (nitems <$> h !! a).

(** The part of [incrementFreq] that puts the item into the bucket of its
    new frequency. *)
Definition attach (ip : nat) (item : lfuItem) (c : LFUCache) : exec LFUCache :=
  let nextFreq := frequency item in
  match freqs c !! nextFreq with
  | Some np =>
      c <- modNode np
             (fun n => set_nitems (<[key item := ip]> (nitems n)) n) c ;;
      modItem ip
        (fun it => mkItem (key it) (value it) (frequency it)
                          (expiration it) (Some np)) c
  | None =>
      let np := fresh c in
      let c := set_fresh (S np)
                 (set_nhp (<[np := mkNode nextFreq ∅ None None]> (nhp c)) c) in
      let c := set_freqs (<[nextFreq := np]> (freqs c)) c in
      c <- addFreqNode np c ;;
      c <- modNode np
             (fun n => set_nitems (<[key item := ip]> (nitems n)) n) c ;;
      modItem ip
        (fun it => mkItem (key it) (value it) (frequency it)
                          (expiration it) (Some np)) c
  end.

(** The last statement of [incrementFreq]: the update of [minFreq]. *)
Definition finish (ip : nat) (c : LFUCache) : exec LFUCache :=
  item <- load (ihp c) ip ;;
  if frequency item =? 1 then Ok (set_minFreq 1 c)
  else if frequency item - 1 =? minFreq c then
    node <- deref (nhp c) (freqs c !! minFreq c) ;;
    if Z.of_nat (size (nitems node)) =? 0
    then Ok (set_minFreq (minFreq c + 1) c)
    else Ok c
  else Ok c.

(** The buckets and the table of items describe the same cache.  [fl] is
    the key of an item that is taken out of the buckets for the moment (in the
    middle of [incrementFreq]), if any.
    - a registered bucket is an allocated node with the frequency it is
      registered for; it is not empty, and each member is the item the table
      holds for that key, whose [freqNode] is this bucket;
    - an item of the table, other than the floating one, has a frequency of
      at least 1 and is a member of the bucket registered for it. *)
Record binv (fl : option string) (c : LFUCache) : Prop := mkBinv {
  bi_reg : forall f np, freqs c !! f = Some np ->
    exists nd, nhp c !! np = Some nd /\ freq nd = f /\ nitems nd <> ∅ /\
      forall k ip, nitems nd !! k = Some ip ->
        Some k <> fl /\ items c !! k = Some ip /\
        exists it, ihp c !! ip = Some it /\ fnode it = Some np;
  bi_item : forall k ip, items c !! k = Some ip ->
    exists it, ihp c !! ip = Some it /\ key it = k /\
      (Some k = fl \/
       exists np nd, fnode it = Some np /\
         freqs c !! frequency it = Some np /\
         nhp c !! np = Some nd /\ nitems nd !! k = Some ip /\
         1 <= frequency it);
  bi_nodes : nodes_ok (nhp c) (freqs c);
  bi_ifresh : forall a, is_Some (ihp c !! a) -> (a < fresh c)%nat;
  bi_nfresh : forall a, is_Some (nhp c !! a) -> (a < fresh c)%nat
}.

(** What the capacity bound needs of a state reached with capacity [cap]:
    consistent buckets, at most [cap] items, and a registered bucket for
    [minFreq] whenever the cache is full. *)
Definition cinv (cap : Z) (c : LFUCache) : Prop :=
  binv None c /\ capacity c = cap /\
  Z.of_nat (size (items c)) <= cap /\
  (Z.of_nat (size (items c)) = cap -> is_Some (freqs c !! minFreq c)).

End LFU.

(** ** ARCCache *)

Module ARC.
Import GoList.

Record arcItem : Type :=
  mkItem { key : string; value : any; expiration : Z }.

(** [t1] and [t2] hold elements whose [Value] is the address of an
    [arcItem] in [heap]; the ghost lists [b1] and [b2] hold keys. *)
Record ARCCache : Type := mkARCCache {
  capacity : Z;
  p : Z;
  t1 : list Element;
  t2 : list Element;
  b1 : list string;
  b2 : list string;
  cache : gmap string Element;
  heap : gmap nat arcItem;
  fresh : nat
}.

Definition set_p (x : Z) (c : ARCCache) : ARCCache :=
  mkARCCache (capacity c) x (t1 c) (t2 c) (b1 c) (b2 c) (cache c) (heap c) (fresh c).
Definition set_t1 (l : list Element) (c : ARCCache) : ARCCache :=
  mkARCCache (capacity c) (p c) l (t2 c) (b1 c) (b2 c) (cache c) (heap c) (fresh c).
Definition set_t2 (l : list Element) (c : ARCCache) : ARCCache :=
  mkARCCache (capacity c) (p c) (t1 c) l (b1 c) (b2 c) (cache c) (heap c) (fresh c).
Definition set_b1 (l : list string) (c : ARCCache) : ARCCache :=
  mkARCCache (capacity c) (p c) (t1 c) (t2 c) l (b2 c) (cache c) (heap c) (fresh c).
Definition set_b2 (l : list string) (c : ARCCache) : ARCCache :=
  mkARCCache (capacity c) (p c) (t1 c) (t2 c) (b1 c) l (cache c) (heap c) (fresh c).
Definition set_cache (m : gmap string Element) (c : ARCCache) : ARCCache :=
  mkARCCache (capacity c) (p c) (t1 c) (t2 c) (b1 c) (b2 c) m (heap c) (fresh c).
Definition set_heap (h : gmap nat arcItem) (c : ARCCache) : ARCCache :=
  mkARCCache (capacity c) (p c) (t1 c) (t2 c) (b1 c) (b2 c) (cache c) h (fresh c).
Definition set_fresh (n : nat) (c : ARCCache) : ARCCache :=
  mkARCCache (capacity c) (p c) (t1 c) (t2 c) (b1 c) (b2 c) (cache c) (heap c) n.

Definition min (a b : Z) : Z := if a <? b then a else b.
Definition max (a b : Z) : Z := if a >? b then a else b.

(** Go integer division: truncated, and a panic on a zero divisor. *)
Definition div (a b : Z) : exec Z :=
  if b =? 0 then Panic else Ok (Z.quot a b).

Definition NewARCCache (capacity : Z) : ARCCache :=
  mkARCCache capacity 0 [] [] [] [] ∅ ∅ 0%nat.

Definition listContains (l : list Element) (element : Element) : bool :=
  contains l element.

(** Only ghost lists are searched by key, and their values are strings: of
    the two type cases in the loop the [string] one applies. *)
Definition listContainsKey (l : list string) (key : string) : bool :=
  existsb (fun s => String.eqb s key) l.

(** The position of the element [removeFromList] returns, nil when the
    loop finds none. *)
Fixpoint removeFromList (l : list string) (key : string) : option nat :=
  match l with
  | [] => None
  | k :: l' =>
      if String.eqb k key then Some 0%nat
      else S <$> removeFromList l' key
  end.

Definition moveToT2 (key : string) (c : ARCCache) : ARCCache :=
  match removeFromList (b1 c) key with
  | Some i => set_b1 (delete i (b1 c)) c
  | None =>
      match removeFromList (b2 c) key with
      | Some i => set_b2 (delete i (b2 c)) c
      | None => c
      end
  end.

(** [l.PushFront(key)] followed by
    [if l.Len() > c.capacity { l.Remove(l.Back()) }] on a ghost list. *)
Definition pushGhost (capacity : Z) (key : string) (l : list string)
  : list string :=
  let l := key :: l in
  if Len l >? capacity then removelast l else l.

(** [c.t2.PushFront(item); c.cache[key] = c.t2.Front()] *)
Definition pushT2 (key : string) (item : nat) (c : ARCCache) : ARCCache :=
  let elt := mkElement (fresh c) item in
  set_fresh (S (fresh c))
    (set_cache (<[key := elt]> (cache c)) (set_t2 (elt :: t2 c) c)).

(** [c.t1.PushFront(item); c.cache[key] = c.t1.Front()] *)
Definition pushT1 (key : string) (item : nat) (c : ARCCache) : ARCCache :=
  let elt := mkElement (fresh c) item in
  set_fresh (S (fresh c))
    (set_cache (<[key := elt]> (cache c)) (set_t1 (elt :: t1 c) c)).

(** [item := &arcItem{...}]: the address of the new item and the state
    that holds it. *)
Definition newItem (it : arcItem) (c : ARCCache) : nat * ARCCache :=
  (fresh c, set_fresh (S (fresh c)) (set_heap (<[fresh c := it]> (heap c)) c)).

Definition remove (key : string) (c : ARCCache) : ARCCache :=
  match cache c !! key with
  | Some elt =>
      let c :=
        if listContains (t1 c) elt then
          let c := set_t1 (Remove elt (t1 c)) c in
          set_b1 (pushGhost (capacity c) key (b1 c)) c
        else if listContains (t2 c) elt then
          let c := set_t2 (Remove elt (t2 c)) c in
          set_b2 (pushGhost (capacity c) key (b2 c)) c
        else c in
      set_cache (delete key (cache c)) c
  | None => c
  end.

Definition replace (k : string) (c : ARCCache) : exec ARCCache :=
  if (Len (t1 c) >? 0) &&
     ((Len (t1 c) >? p c) ||
      (listContainsKey (b2 c) k && (Len (t1 c) =? p c)))
  then
    lru <- match Back (t1 c) with Some e => Ok e | None => Panic end ;;
    let c := set_t1 (Remove lru (t1 c)) c in
    item <- load (heap c) (Value lru) ;;
    let c := set_b1 (pushGhost (capacity c) (key item) (b1 c)) c in
    Ok (set_cache (delete (key item) (cache c)) c)
  else
    lru <- match Back (t2 c) with Some e => Ok e | None => Panic end ;;
    let c := set_t2 (Remove lru (t2 c)) c in
    item <- load (heap c) (Value lru) ;;
    let c := set_b2 (pushGhost (capacity c) (key item) (b2 c)) c in
    Ok (set_cache (delete (key item) (cache c)) c).

Definition request (key : string) (c : ARCCache) : exec ARCCache :=
  if listContainsKey (b1 c) key then
    q <- div (Len (b2 c)) (Len (b1 c)) ;;
    let c := set_p (min (capacity c) (p c + max q 1)) c in
    let c := moveToT2 key c in
    let '(item, c) := newItem (mkItem key VNil 0) c in
    Ok (pushT2 key item c)
  else if listContainsKey (b2 c) key then
    q <- div (Len (b1 c)) (Len (b2 c)) ;;
    let c := set_p (max 0 (p c - max q 1)) c in
    let c := moveToT2 key c in
    let '(item, c) := newItem (mkItem key VNil 0) c in
    Ok (pushT2 key item c)
  else Ok c.

(** The reclassification both [Get] and [Set] perform on a resident key. *)
Definition touch (key : string) (elt : Element) (c : ARCCache) : ARCCache :=
  if listContains (t1 c) elt then
    pushT2 key (Value elt) (set_t1 (Remove elt (t1 c)) c)
  else if listContains (t2 c) elt then
    set_t2 (MoveToFront elt (t2 c)) c
  else c.

Definition Get (now : Z) (k : string) (c : ARCCache)
  : exec (ARCCache * (any * bool)) :=
  match cache c !! k with
  | Some elt =>
      item <- load (heap c) (Value elt) ;;
      if (0 <? expiration item) && (expiration item <? now) then
        Ok (remove k c, (VNil, false))
      else
        Ok (touch k elt c, (value item, true))
  | None =>
      c <- request k c ;;
      Ok (c, (VNil, false))
  end.

Definition Set_ (now : Z) (k : string) (v : any) (ttl : Z) (c : ARCCache)
  : exec (ARCCache * error) :=
  let expiration := if 0 <? ttl then now + ttl else 0 in
  match cache c !! k with
  | Some elt =>
      item <- load (heap c) (Value elt) ;;
      let c := set_heap (<[Value elt := mkItem (key item) v expiration]> (heap c)) c in
      Ok (touch k elt c, None)
  | None =>
      c <- request k c ;;
      c <- (if Len (t1 c) + Len (t2 c) >=? capacity c
            then replace k c else Ok c) ;;
      let '(item, c) := newItem (mkItem k v expiration) c in
      Ok (pushT1 k item c, None)
  end.

Definition Delete (k : string) (c : ARCCache) : exec (ARCCache * error) :=
  Ok (remove k c, None).

Definition Flush (c : ARCCache) : exec (ARCCache * error) :=
  Ok (mkARCCache (capacity c) 0 [] [] [] [] ∅ (heap c) (fresh c), None).

Inductive op : Type :=
| OSet (now : Z) (k : string) (v : any) (ttl : Z)
| OGet (now : Z) (k : string)
| ODelete (k : string)
| OFlush.

Definition step (c : ARCCache) (o : op) : exec ARCCache :=
  match o with
  | OSet now k v ttl => r <- Set_ now k v ttl c ;; Ok (fst r)
  | OGet now k => r <- Get now k c ;; Ok (fst r)
  | ODelete k => r <- Delete k c ;; Ok (fst r)
  | OFlush => r <- Flush c ;; Ok (fst r)
  end.

Fixpoint run (c : ARCCache) (ops : list op) : exec ARCCache :=
  match ops with
  | [] => Ok c
  | o :: rest => c' <- step c o ;; run c' rest
  end.

Definition reachable (cap : Z) (c : ARCCache) : Prop :=
  exists ops, run (NewARCCache cap) ops = Ok c.

(** The keys of the entries of a resident list. *)
Definition keysOf (c : ARCCache) (l : list Element) : list string :=
  omap (fun e => key <$> heap c !! Value e) l.

(** Every element of a resident list and of the lookup map refers to an
    allocated item. *)
Definition allocated (c : ARCCache) : Prop :=
  (forall e, e ∈ t1 c ++ t2 c -> is_Some (heap c !! Value e)) /\
  (forall k e, cache c !! k = Some e -> is_Some (heap c !! Value e)).

End ARC.

(** ** The factory *)

Inductive Cache : Type :=
| IsMemoryCache (c : MemoryCache.MemoryCache)
| IsLRUCache (c : LRU.LRUCache)
| IsLFUCache (c : LFU.LFUCache)
| IsARCCache (c : ARC.ARCCache).

Definition MemoryCacheType : string := "memory".
Definition LRUCacheType : string := "lru".
Definition LFUCacheType : string := "lfu".
Definition ARCCacheType : string := "arc".

(** The [Cache] result is [None] for the nil interface value. *)
Definition NewCache (cacheType : string) (capacity : Z) : option Cache * error :=
  if String.eqb cacheType MemoryCacheType then
    (Some (IsMemoryCache MemoryCache.NewMemoryCache), None)
  else if String.eqb cacheType LRUCacheType then
    (Some (IsLRUCache (LRU.NewLRUCache capacity)), None)
  else if String.eqb cacheType LFUCacheType then
    (Some (IsLFUCache (LFU.NewLFUCache capacity)), None)
  else if String.eqb cacheType ARCCacheType then
    (Some (IsARCCache (ARC.NewARCCache capacity)), None)
  else
    (None, Some ("unknown cache type: " +:+ cacheType)).

(** ** Vocabulary of the statements *)

Definition recognized (cacheType : string) : Prop :=
  cacheType ∈ [MemoryCacheType; LRUCacheType; LFUCacheType; ARCCacheType].

(** What the claim asks of an invalid capacity. *)
Definition surfaces_invalid_capacity (cacheType : string) (capacity : Z) : Prop :=
  recognized cacheType -> capacity <= 0 ->
  snd (NewCache cacheType capacity) <> None.

(** Caches that hold one entry, set at time 0 with a ttl of 5. *)

(** A cache that holds one entry, set at time 0 with a ttl of 5. *)
Definition sampleMemory : MemoryCache.MemoryCache :=
  fst (MemoryCache.Set_ 0 "k" (VInt 1) 5 MemoryCache.NewMemoryCache).

Definition sampleMemoryTime : MemoryCacheTime.MemoryCache :=
  fst (MemoryCacheTime.Set_ 0 "k" (VInt 1) 5 MemoryCacheTime.NewMemoryCache).

Definition sampleLRU : LRU.LRUCache :=
  Eval vm_compute in
    match LRU.run (LRU.NewLRUCache 2) [LRU.OSet 0 "k" (VInt 1) 5] with
    | Ok c => c
    | _ => LRU.NewLRUCache 2
    end.

Definition sampleLFU : LFU.LFUCache :=
  Eval vm_compute in
    match LFU.run (LFU.NewLFUCache 2) [LFU.OSet 0 "k" (VInt 1) 5 0%nat] with
    | Ok c => c
    | _ => LFU.NewLFUCache 2
    end.

Definition sampleARC : ARC.ARCCache :=
  Eval vm_compute in
    match ARC.run (ARC.NewARCCache 2) [ARC.OSet 0 "k" (VInt 1) 5] with
    | Ok c => c
    | _ => ARC.NewARCCache 2
    end.

(** ** Vocabulary and sample states of the further properties *)

(** An LRU cache that holds two entries, and the state after the older
    one was read. *)
Definition sampleLRU2 : LRU.LRUCache :=
  Eval vm_compute in
    match LRU.run (LRU.NewLRUCache 2)
            [LRU.OSet 0 "a" (VInt 1) 0; LRU.OSet 0 "b" (VInt 2) 0]
    with
    | Ok c => c
    | _ => LRU.NewLRUCache 2
    end.

Definition sampleLRU2_read : LRU.LRUCache :=
  Eval vm_compute in
    match LRU.Get 3 "a" sampleLRU2 with
    | Ok (c, _) => c
    | _ => sampleLRU2
    end.

Definition sampleLFU2 : LFU.LFUCache :=
  Eval vm_compute in
    match LFU.run (LFU.NewLFUCache 2)
            [LFU.OSet 0 "a" (VInt 1) 0 0%nat; LFU.OSet 0 "b" (VInt 2) 0 0%nat]
    with
    | Ok c => c
    | _ => LFU.NewLFUCache 2
    end.

(** The adaptation target and the ghost lists of a cache of capacity [cap]
    are within their bounds. *)
Definition ARC_in_range (cap : Z) (c : ARC.ARCCache) : Prop :=
  ARC.capacity c = cap /\ 0 <= ARC.p c <= cap /\
  Len (ARC.b1 c) <= cap /\ Len (ARC.b2 c) <= cap.

(** The lookup map of an ARC cache leads into the resident lists: elements
    of T1 and T2 are told apart by their identity, elements and items were
    allocated below [fresh], and an element the map holds for a key is in
    T1 or T2 and refers to an item with that key. *)
Definition ARC_resident (c : ARC.ARCCache) : Prop :=
  (forall e x, e ∈ ARC.t1 c ++ ARC.t2 c -> x ∈ ARC.t1 c ++ ARC.t2 c ->
     GoList.eid e = GoList.eid x -> e = x) /\
  (forall e, e ∈ ARC.t1 c ++ ARC.t2 c -> (GoList.eid e < ARC.fresh c)%nat) /\
  (forall a, is_Some (ARC.heap c !! a) -> (a < ARC.fresh c)%nat) /\
  (forall k e, ARC.cache c !! k = Some e ->
     e ∈ ARC.t1 c ++ ARC.t2 c /\
     exists it, ARC.heap c !! GoList.Value e = Some it /\ ARC.key it = k).

(** * Properties *)

(** ** The outcome monad *)

Lemma bind_Ok {A B : Type} (m : exec A) (f : A -> exec B) (b : B) :
  bind m f = Ok b <-> exists a, m = Ok a /\ f a = Ok b.
Proof.
  split.
  - destruct m as [a| |]; simpl; intros H; try discriminate. eauto.
  - intros (a & -> & H). exact H.
Qed.

Lemma load_Ok {A : Type} (h : gmap nat A) (a : nat) (x : A) :
  load h a = Ok x <-> h !! a = Some x.
Proof.
  unfold load, deref. destruct (h !! a); split; intros H; congruence.
Qed.

Lemma bind_not_Dangling {A B : Type} (m : exec A) (f : A -> exec B) :
  m <> Dangling -> (forall a, m = Ok a -> f a <> Dangling) ->
  bind m f <> Dangling.
Proof.
  intros Hm Hf. destruct m as [a| |]; simpl; [by apply Hf|done|done].
Qed.

(** Decompose the hypotheses that say a sequence of calls returned. *)
Ltac exec_inv :=
  repeat match goal with
  | H : bind _ _ = Ok _ |- _ =>
      apply bind_Ok in H; destruct H as (? & ? & H)
  | H : load _ _ = Ok _ |- _ => apply load_Ok in H
  | H : Ok _ = Ok _ |- _ => injection H as H
  | H : Panic = Ok _ |- _ => discriminate H
  | H : Dangling = Ok _ |- _ => discriminate H
  end.

(** ** The factory (C7) *)

(** C7, as stated, fails: [NewCache] hands the capacity to the constructor
    unchecked, so capacity 0 with the type "lru" yields a cache and the nil
    error. *)
Lemma NewCache_capacity_unchecked :
  ~ surfaces_invalid_capacity LRUCacheType 0.
Proof.
  intros H. apply H; [| lia | reflexivity].
  unfold recognized. set_solver.
Qed.

(** C7, amended: for each recognized type [NewCache] returns the engine
    built by that type's constructor and the nil error, whatever the
    capacity; for any other type it returns the nil cache and a non-nil
    error. *)
Theorem NewCache_dispatch (capacity : Z) :
  NewCache MemoryCacheType capacity
    = (Some (IsMemoryCache MemoryCache.NewMemoryCache), None) /\
  NewCache LRUCacheType capacity
    = (Some (IsLRUCache (LRU.NewLRUCache capacity)), None) /\
  NewCache LFUCacheType capacity
    = (Some (IsLFUCache (LFU.NewLFUCache capacity)), None) /\
  NewCache ARCCacheType capacity
    = (Some (IsARCCache (ARC.NewARCCache capacity)), None) /\
  (forall cacheType, ~ recognized cacheType ->
     fst (NewCache cacheType capacity) = None /\
     snd (NewCache cacheType capacity) <> None).
Proof.
  repeat split; try reflexivity.
  - unfold NewCache, recognized in *.
    repeat match goal with
    | |- context [String.eqb ?a ?b] =>
        destruct (String.eqb_spec a b) as [->|]; [exfalso; apply H; set_solver|]
    end.
    reflexivity.
  - unfold NewCache, recognized in *.
    repeat match goal with
    | |- context [String.eqb ?a ?b] =>
        destruct (String.eqb_spec a b) as [->|]; [exfalso; apply H; set_solver|]
    end.
    discriminate.
Qed.

Lemma NewCache_dispatch_witness :
  fst (NewCache "redis" 16) = None /\ snd (NewCache "redis" 16) <> None.
Proof.
  apply (proj2 (proj2 (proj2 (proj2 (NewCache_dispatch 16))))).
  unfold recognized. intros H.
  repeat (apply elem_of_cons in H; destruct H as [H|H]; [discriminate H|]).
  inversion H.
Defined.

(** ** Runs on which the engines leave their contract *)

(** C1: on a new LFU cache of capacity 1, [Set("a", 1, 0)] followed by
    [Get("a")] does not complete: [incrementFreq] reads
    [c.freqs[c.minFreq].items] after it has unlinked that bucket, a nil
    dereference.  A second [Set] of the same key ends the same way. *)
Theorem LFU_increment_of_lone_item_panics :
  LFU.run (LFU.NewLFUCache 1)
    [LFU.OSet 0 "a" (VInt 1) 0 0%nat; LFU.OGet 0 "a"] = Panic /\
  LFU.run (LFU.NewLFUCache 1)
    [LFU.OSet 0 "a" (VInt 1) 0 0%nat; LFU.OSet 0 "a" (VInt 2) 0 0%nat] = Panic.
Proof. split; vm_compute; reflexivity. Qed.

(** [replace] takes the back of T2 without a nil check: with T1 = [b],
    T2 empty and p = 1 the next [Set] of a new key panics in
    [c.t2.Remove(nil)]. *)
Lemma ARC_replace_on_empty_T2_panics :
  ARC.run (ARC.NewARCCache 1)
    [ARC.OSet 0 "a" (VInt 1) 0; ARC.OSet 0 "b" (VInt 2) 0; ARC.OGet 0 "a";
     ARC.ODelete "a"; ARC.OSet 0 "c" (VInt 3) 0] = Panic.
Proof. vm_compute; reflexivity. Qed.

(** C2: an ARC cache of capacity 1 holds two resident entries after
    [Set a; Set b; Set a]: the ghost hit on "a" puts a placeholder in T2,
    [replace] evicts that placeholder, and [Set] then pushes "a" on T1 next
    to "b". *)
Theorem ARC_residents_exceed_capacity :
  exists c,
    ARC.run (ARC.NewARCCache 1)
      [ARC.OSet 0 "a" (VInt 1) 0; ARC.OSet 0 "b" (VInt 2) 0;
       ARC.OSet 0 "a" (VInt 3) 0] = Ok c /\
    ARC.capacity c = 1 /\
    ARC.keysOf c (ARC.t1 c) = ["a"; "b"] /\
    Len (ARC.t1 c) + Len (ARC.t2 c) = 2.
Proof. eexists. split; [vm_compute; reflexivity|]. repeat split. Qed.

(** C3: with capacity 1, "a" is evicted by [Set b].  The first [Get a]
    misses, and [request] leaves a value-less placeholder for "a" in T2 and in
    the lookup map; the second [Get a] returns that placeholder: (nil, true),
    although "a" was evicted and never set again. *)
Theorem ARC_Get_returns_ghost_placeholder :
  exists c1 c2 c3,
    ARC.run (ARC.NewARCCache 1)
      [ARC.OSet 0 "a" (VInt 1) 0; ARC.OSet 0 "b" (VInt 2) 0] = Ok c1 /\
    ARC.cache c1 !! "a" = None /\ ARC.b1 c1 = ["a"] /\
    ARC.Get 0 "a" c1 = Ok (c2, (VNil, false)) /\
    ARC.Get 0 "a" c2 = Ok (c3, (VNil, true)).
Proof.
  eexists _, _, _. split; [vm_compute; reflexivity|].
  split; [vm_compute; reflexivity|].
  split; [reflexivity|].
  split; vm_compute; reflexivity.
Qed.

(** C4: after [Set a; Delete a; Set a] on capacity 2 the key "a" is in T1
    and in T2 at once; on capacity 1 the same calls leave it in T1 and in
    B2. *)
Theorem ARC_key_in_two_lists :
  (exists c,
     ARC.run (ARC.NewARCCache 2)
       [ARC.OSet 0 "a" (VInt 1) 0; ARC.ODelete "a"; ARC.OSet 0 "a" (VInt 2) 0]
       = Ok c /\
     ARC.keysOf c (ARC.t1 c) = ["a"] /\ ARC.keysOf c (ARC.t2 c) = ["a"]) /\
  (exists c,
     ARC.run (ARC.NewARCCache 1)
       [ARC.OSet 0 "a" (VInt 1) 0; ARC.ODelete "a"; ARC.OSet 0 "a" (VInt 2) 0]
       = Ok c /\
     ARC.keysOf c (ARC.t1 c) = ["a"] /\ ARC.b2 c = ["a"]).
Proof.
  split; eexists; (split; [vm_compute; reflexivity|]);
    split; vm_compute; reflexivity.
Qed.

(** C6: after [Set a; Set b; Get a; Delete b] on capacity 2 the cache holds
    the item "a" with frequency 2, the only bucket is the one for frequency
    2, and [minFreq] is still 1: [remove] does not maintain it. *)
Theorem LFU_minFreq_stale_after_Delete :
  exists c,
    LFU.run (LFU.NewLFUCache 2)
      [LFU.OSet 0 "a" (VInt 1) 0 0%nat; LFU.OSet 0 "b" (VInt 2) 0 0%nat;
       LFU.OGet 0 "a"; LFU.ODelete "b"] = Ok c /\
    size (LFU.items c) = 1%nat /\
    map_to_list (LFU.freqs c) = [(2, 3%nat)] /\
    (LFU.freq <$> LFU.nhp c !! 3%nat) = Some 2 /\
    LFU.minFreq c = 1.
Proof.
  eexists. split; [vm_compute; reflexivity|].
  repeat split; vm_compute; reflexivity.
Qed.

(** C9: on a new LFU cache, [Set(k, v, ttl)] immediately followed by
    [Get(k)] yields no result at all, with ttl = 0 and with a ttl that has
    not run out. *)
Theorem LFU_Set_Get_roundtrip_fails :
  (r <- LFU.Set_ 100 "k" (VStr "v") 0 0%nat (LFU.NewLFUCache 8) ;;
   LFU.Get 100 "k" (fst r)) = Panic /\
  (r <- LFU.Set_ 100 "k" (VStr "v") 50 0%nat (LFU.NewLFUCache 8) ;;
   LFU.Get 120 "k" (fst r)) = Panic.
Proof. split; vm_compute; reflexivity. Qed.

(** ** Lists of elements *)

Module GoListFacts.
Import GoList.

Lemma contains_true (l : list Element) (e : Element) :
  contains l e = true <-> exists x, x ∈ l /\ eid x = eid e.
Proof.
  unfold contains, same. rewrite existsb_exists. split.
  - intros (x & Hin & Heq). exists x. split; [by apply list_elem_of_In|].
    symmetry. by apply Nat.eqb_eq.
  - intros (x & Hin & Heq). exists x. split; [by apply list_elem_of_In|].
    apply Nat.eqb_eq. by symmetry.
Qed.

Lemma contains_elem (l : list Element) (e : Element) :
  e ∈ l -> contains l e = true.
Proof. intros H. apply contains_true. eauto. Qed.

Lemma contains_false (l : list Element) (e : Element) :
  contains l e = false <-> forall x, x ∈ l -> eid x <> eid e.
Proof.
  split.
  - intros Hc x Hx Heq.
    assert (contains l e = true) by (apply contains_true; eauto).
    congruence.
  - intros H. destruct (contains l e) eqn:Hc; [|done].
    apply contains_true in Hc as (x & Hx & Heq). by destruct (H x Hx).
Qed.

Lemma elem_of_Remove (e x : Element) (l : list Element) :
  x ∈ Remove e l <-> x ∈ l /\ eid x <> eid e.
Proof. unfold Remove. rewrite list_elem_of_filter. tauto. Qed.

Lemma Remove_absent (e : Element) (l : list Element) :
  (forall x, x ∈ l -> eid x <> eid e) -> Remove e l = l.
Proof.
  induction l as [|y l IH]; intros H; [done|].
  unfold Remove. rewrite filter_cons_True by (apply H; left).
  f_equal. apply IH. intros x Hx. apply H. by right.
Qed.

Lemma contains_Remove (e : Element) (l : list Element) :
  contains (Remove e l) e = false.
Proof.
  apply contains_false. intros x Hx. by apply elem_of_Remove in Hx as [_ ?].
Qed.

Lemma NoDup_eid_Remove (e : Element) (l : list Element) :
  NoDup (eid <$> l) -> NoDup (eid <$> Remove e l).
Proof.
  intros H. eapply sublist_NoDup; [exact H|].
  apply fmap_sublist. unfold Remove. apply sublist_filter.
Qed.

Lemma NoDup_eid_inj (l : list Element) (x y : Element) :
  NoDup (eid <$> l) -> x ∈ l -> y ∈ l -> eid x = eid y -> x = y.
Proof.
  induction l as [|z l IH]; intros Hnd Hx Hy Heq; [by inversion Hx|].
  rewrite fmap_cons in Hnd. apply NoDup_cons in Hnd as [Hz Hnd].
  apply elem_of_cons in Hx as [->|Hx]; apply elem_of_cons in Hy as [->|Hy];
    try done.
  - destruct Hz. rewrite Heq. by apply list_elem_of_fmap_2.
  - destruct Hz. rewrite <- Heq. by apply list_elem_of_fmap_2.
  - by apply IH.
Qed.

Lemma length_Remove (e : Element) (l : list Element) :
  NoDup (eid <$> l) -> e ∈ l -> S (length (Remove e l)) = length l.
Proof.
  induction l as [|y l IH]; intros Hnd He; [by inversion He|].
  rewrite fmap_cons in Hnd. apply NoDup_cons in Hnd as [Hy Hnd].
  destruct (decide (eid y = eid e)) as [Heq|Hne].
  - unfold Remove. rewrite filter_cons_False by tauto.
    fold (Remove e l). rewrite Remove_absent; [done|].
    intros x Hx Hxe. apply Hy. rewrite Heq, <- Hxe.
    by apply list_elem_of_fmap_2.
  - unfold Remove. rewrite filter_cons_True by done. fold (Remove e l).
    simpl. f_equal. apply IH; [done|].
    apply elem_of_cons in He as [->|He]; [done|done].
Qed.

Lemma Remove_snoc (e : Element) (l : list Element) :
  NoDup (eid <$> (l ++ [e])) -> Remove e (l ++ [e]) = l.
Proof.
  intros Hnd. unfold Remove. rewrite filter_app.
  rewrite filter_cons_False by tauto. rewrite filter_nil, app_nil_r.
  apply Remove_absent. intros x Hx Heq.
  rewrite fmap_app in Hnd. apply NoDup_app in Hnd as (_ & Hd & _).
  apply (Hd (eid x)); [by apply list_elem_of_fmap_2|].
  rewrite Heq. simpl. left.
Qed.

End GoListFacts.

(** ** LRUCache: well-formed states *)

Module LRUProps.
Import GoList GoListFacts LRU.

Lemma LRU_wf_New (c : Z) : wf (NewLRUCache c).
Proof.
  constructor; simpl.
  - constructor.
  - intros elem H. inversion H.
  - intros k elem H. by rewrite lookup_empty in H.
Qed.

Lemma omap_removelast {A B : Type} (f : A -> option B) (l : list A) :
  (forall x, x ∈ l -> is_Some (f x)) ->
  omap f (removelast l) = removelast (omap f l).
Proof.
  destruct l as [|a l] using rev_ind; [done|]. intros H.
  rewrite removelast_last, omap_app. simpl.
  destruct (H a) as [b Hb]; [set_solver|]. rewrite Hb. simpl.
  by rewrite removelast_last.
Qed.

Lemma omap_length_total {A B : Type} (f : A -> option B) (l : list A) :
  (forall x, x ∈ l -> is_Some (f x)) -> length (omap f l) = length l.
Proof.
  induction l as [|a l IH]; intros H; [done|]. simpl.
  destruct (H a) as [b Hb]; [left|]. rewrite Hb. simpl. f_equal.
  apply IH. intros x Hx. apply H. by right.
Qed.

Lemma omap_agree {A B : Type} (f g : A -> option B) (l : list A) :
  (forall x, x ∈ l -> f x = g x) -> omap f l = omap g l.
Proof.
  induction l as [|a l IH]; intros H; [done|].
  assert (IH' : omap f l = omap g l).
  { apply IH. intros x Hx. apply H. by right. }
  change (omap f (a :: l))
    with (match f a with Some y => y :: omap f l | None => omap f l end).
  change (omap g (a :: l))
    with (match g a with Some y => y :: omap g l | None => omap g l end).
  rewrite (H a) by left. by rewrite IH'.
Qed.

Lemma wf_entry (lru : LRUCache) (elem : Element) :
  wf lru -> elem ∈ lst lru -> is_Some (heap lru !! Value elem).
Proof. intros Hwf Hin. destruct (wf_elem _ Hwf _ Hin) as (_ & _ & e & He & _). eauto. Qed.

Lemma view_length (lru : LRUCache) :
  wf lru -> length (view lru) = length (lst lru).
Proof. intros Hwf. apply omap_length_total. intros. by apply wf_entry. Qed.

(** The entries in the view are the entries the lookup map leads to. *)
Lemma view_lookup (lru : LRUCache) (e : entry) :
  wf lru -> e ∈ view lru ->
  exists elem, cache lru !! key e = Some elem /\
               heap lru !! Value elem = Some e.
Proof.
  intros Hwf He. apply list_elem_of_omap in He as (elem & Hin & Hh).
  destruct (wf_elem _ Hwf _ Hin) as (_ & _ & e' & He' & Hc).
  assert (e' = e) as -> by congruence. eauto.
Qed.

Lemma lookup_view (lru : LRUCache) (k : string) (elem : Element) :
  wf lru -> cache lru !! k = Some elem ->
  exists e, heap lru !! Value elem = Some e /\ key e = k /\ e ∈ view lru.
Proof.
  intros Hwf Hc. destruct (wf_cache _ Hwf _ _ Hc) as (Hin & e & He & Hk).
  exists e. repeat split; try done.
  apply list_elem_of_omap. eauto.
Qed.

(** Well-formedness sees the list only through its members. *)
Lemma wf_reorder (lru : LRUCache) (l : list Element) :
  wf lru -> NoDup (eid <$> l) -> (forall x, x ∈ l <-> x ∈ lst lru) ->
  wf {| capacity := capacity lru; cache := cache lru; lst := l;
        heap := heap lru; fresh := fresh lru |}.
Proof.
  intros Hwf Hnd Hl. constructor; simpl.
  - done.
  - intros elem Hin. apply Hl in Hin. by apply (wf_elem _ Hwf).
  - intros k elem Hc. destruct (wf_cache _ Hwf _ _ Hc) as (Hin & He).
    split; [by apply Hl|done].
Qed.

Lemma MoveToFront_elem (elem : Element) (l : list Element) :
  NoDup (eid <$> l) -> elem ∈ l ->
  MoveToFront elem l = elem :: Remove elem l /\
  NoDup (eid <$> MoveToFront elem l) /\
  (forall x, x ∈ MoveToFront elem l <-> x ∈ l) /\
  length (MoveToFront elem l) = length l.
Proof.
  intros Hnd Hin. unfold MoveToFront. rewrite contains_elem by done.
  split; [done|]. split; [|split].
  - rewrite fmap_cons. apply NoDup_cons. split; [|by apply NoDup_eid_Remove].
    intros H. apply list_elem_of_fmap in H as (x & Hx & Hxin).
    apply elem_of_Remove in Hxin as [_ Hne]. by destruct Hne.
  - intros x. rewrite elem_of_cons, elem_of_Remove. split.
    + intros [->|[? _]]; done.
    + intros Hx. destruct (decide (eid x = eid elem)) as [Heq|Hne].
      * left. by apply (NoDup_eid_inj l).
      * right. done.
  - simpl. by apply length_Remove.
Qed.

Lemma removeElement_spec (lru : LRUCache) (elem : Element) :
  wf lru -> elem ∈ lst lru ->
  exists e lru',
    heap lru !! Value elem = Some e /\
    removeElement elem lru = Ok lru' /\
    wf lru' /\
    lru' = {| capacity := capacity lru; cache := delete (key e) (cache lru);
              lst := Remove elem (lst lru); heap := heap lru;
              fresh := fresh lru |}.
Proof.
  intros Hwf Hin.
  destruct (wf_elem _ Hwf _ Hin) as (HV & Hlt & e & He & Hc).
  exists e. eexists. split; [done|]. split.
  { unfold removeElement, load, deref. rewrite He. reflexivity. }
  split; [|reflexivity]. constructor; simpl.
  - apply NoDup_eid_Remove, Hwf.
  - intros x Hx. apply elem_of_Remove in Hx as [Hx Hne].
    destruct (wf_elem _ Hwf _ Hx) as (HVx & Hltx & ex & Hex & Hcx).
    repeat split; try done. exists ex. split; [done|].
    rewrite lookup_delete_ne; [done|].
    intros Heq. rewrite Heq in Hc. congruence.
  - intros k x Hd. apply lookup_delete_Some in Hd as [Hk Hd].
    destruct (wf_cache _ Hwf _ _ Hd) as (Hx & ex & Hex & Hkx).
    split; [|eauto]. apply elem_of_Remove. split; [done|].
    intros Heq. assert (x = elem) as -> by by apply (NoDup_eid_inj (lst lru)); try apply Hwf.
    congruence.
Qed.

Lemma removeOldest_spec (lru : LRUCache) :
  wf lru ->
  exists lru',
    removeOldest lru = Ok lru' /\ wf lru' /\
    capacity lru' = capacity lru /\ heap lru' = heap lru /\
    fresh lru' = fresh lru /\
    lst lru' = removelast (lst lru) /\
    (forall k, cache lru !! k = None -> cache lru' !! k = None).
Proof.
  intros Hwf. unfold removeOldest, Back.
  destruct (last (lst lru)) as [oldest|] eqn:Hl.
  - assert (Hin : oldest ∈ lst lru) by by apply last_Some_elem_of.
    destruct (removeElement_spec lru oldest Hwf Hin)
      as (e & lru' & He & Hr & Hwf' & ->).
    eexists. split; [exact Hr|]. split; [done|]. simpl.
    repeat split; try done.
    + apply last_Some in Hl as [l' Hl']. rewrite Hl'.
      rewrite removelast_last. apply Remove_snoc. rewrite <- Hl'. apply Hwf.
    + intros k Hk. apply lookup_delete_None. by right.
  - exists lru. apply last_None in Hl. rewrite Hl.
    split; [done|]. split; [done|]. by repeat split.
Qed.

Lemma pushed_spec (e : entry) (lru : LRUCache) :
  wf lru -> cache lru !! key e = None ->
  wf (pushed e lru) /\ view (pushed e lru) = e :: view lru.
Proof.
  intros Hwf Hk. split.
  - constructor; simpl.
    + apply NoDup_cons. split; [|apply Hwf].
      intros H. apply list_elem_of_fmap in H as (x & Hx & Hin).
      destruct (wf_elem _ Hwf _ Hin) as (_ & Hlt & _). simpl in Hx. lia.
    + intros x Hx. apply elem_of_cons in Hx as [->|Hx]; simpl.
      * repeat split; [lia|]. exists e.
        by rewrite !lookup_insert_eq.
      * destruct (wf_elem _ Hwf _ Hx) as (HV & Hlt & ex & Hex & Hcx).
        repeat split; [done|lia|]. exists ex.
        rewrite lookup_insert_ne by lia. split; [done|].
        rewrite lookup_insert_ne; [done|]. intros Heq. congruence.
    + intros k x Hc. apply lookup_insert_Some in Hc as [[<- <-]|[Hne Hc]].
      * split; [left|]. exists e. simpl. by rewrite lookup_insert_eq.
      * destruct (wf_cache _ Hwf _ _ Hc) as (Hx & ex & Hex & Hkx).
        split; [by right|]. exists ex. split; [|done].
        destruct (wf_elem _ Hwf _ Hx) as (HV & Hlt & _).
        rewrite lookup_insert_ne by lia. done.
  - unfold view, pushed. simpl.
    change (omap ?f (?a :: ?l))
      with (match f a with Some y => y :: omap f l | None => omap f l end).
    simpl. rewrite lookup_insert_eq. f_equal.
    apply omap_agree. intros x Hx.
    destruct (wf_elem _ Hwf _ Hx) as (HV & Hlt & _).
    rewrite lookup_insert_ne by lia. done.
Qed.

Lemma Set_new_spec (lru : LRUCache) (now : Z) (k : string) (v : any) (ttl : Z) :
  wf lru -> cache lru !! k = None ->
  exists lru',
    Set_ now k v ttl lru = Ok lru' /\ wf lru' /\
    capacity lru' = capacity lru /\
    view lru' = mkEntry k v (expiry now ttl) ::
                (if Len (lst lru) >=? capacity lru
                 then removelast (view lru) else view lru).
Proof.
  intros Hwf Hk. unfold Set_. rewrite Hk. fold (expiry now ttl).
  destruct (Len (lst lru) >=? capacity lru) eqn:Hfull.
  - destruct (removeOldest_spec lru Hwf)
      as (lru1 & Hr & Hwf1 & Hcap & Hheap & Hfresh & Hlst & Hnone).
    rewrite Hr. simpl.
    destruct (pushed_spec (mkEntry k v (expiry now ttl)) lru1 Hwf1)
      as [Hwf' Hview]; [by apply Hnone|].
    exists (pushed (mkEntry k v (expiry now ttl)) lru1).
    split; [reflexivity|]. split; [exact Hwf'|]. split; [exact Hcap|].
    rewrite Hview. f_equal. unfold view. rewrite Hheap, Hlst.
    apply omap_removelast. intros. by apply wf_entry.
  - simpl.
    destruct (pushed_spec (mkEntry k v (expiry now ttl)) lru Hwf)
      as [Hwf' Hview]; [done|].
    exists (pushed (mkEntry k v (expiry now ttl)) lru).
    split; [reflexivity|]. split; [exact Hwf'|]. split; [done|].
    exact Hview.
Qed.

Lemma Set_old_spec (lru : LRUCache) (now : Z) (k : string) (v : any) (ttl : Z)
    (elem : Element) :
  wf lru -> cache lru !! k = Some elem ->
  exists lru',
    Set_ now k v ttl lru = Ok lru' /\ wf lru' /\
    capacity lru' = capacity lru /\
    length (lst lru') = length (lst lru) /\
    cache lru' = cache lru /\
    heap lru' !! Value elem = Some (mkEntry k v (expiry now ttl)).
Proof.
  intros Hwf Hc.
  destruct (wf_cache _ Hwf _ _ Hc) as (Hin & e & He & Hke).
  destruct (MoveToFront_elem elem (lst lru) (wf_nodup _ Hwf) Hin)
    as (_ & Hnd & Hmem & Hlen).
  unfold Set_. rewrite Hc. fold (expiry now ttl).
  unfold load, deref. rewrite He. simpl. rewrite Hke.
  eexists. split; [reflexivity|]. simpl.
  split; [|by rewrite lookup_insert_eq].
  set (e' := mkEntry k v (expiry now ttl)).
  assert (Hwf1 : wf {| capacity := capacity lru; cache := cache lru;
                       lst := lst lru;
                       heap := <[Value elem := e']> (heap lru);
                       fresh := fresh lru |}).
  { assert (Hsame : forall x, x ∈ lst lru -> Value x = Value elem -> x = elem).
    { intros x Hx HVx. apply (NoDup_eid_inj (lst lru)); try done; [apply Hwf|].
      destruct (wf_elem _ Hwf _ Hx) as (<- & _).
      destruct (wf_elem _ Hwf _ Hin) as (<- & _). done. }
    constructor; simpl.
    - apply Hwf.
    - intros x Hx.
      destruct (wf_elem _ Hwf _ Hx) as (HV & Hlt & ex & Hex & Hcx).
      repeat split; try done.
      destruct (decide (Value x = Value elem)) as [Heq|Hne].
      + rewrite (Hsame x Hx Heq). exists e'.
        rewrite lookup_insert_eq. by split.
      + exists ex. by rewrite lookup_insert_ne.
    - intros k' x Hc'.
      destruct (wf_cache _ Hwf _ _ Hc') as (Hx & ex & Hex & Hkx).
      split; [done|].
      destruct (decide (Value x = Value elem)) as [Heq|Hne].
      + rewrite (Hsame x Hx Heq) in *. exists e'.
        rewrite lookup_insert_eq. split; [done|]. simpl. congruence.
      + exists ex. by rewrite lookup_insert_ne. }
  apply (wf_reorder _ (MoveToFront elem (lst lru))) in Hwf1; done.
Qed.

Lemma LRU_Get_miss (lru : LRUCache) (now : Z) (k : string) :
  cache lru !! k = None -> Get now k lru = Ok (lru, (VNil, false)).
Proof. intros H. unfold Get. by rewrite H. Qed.

Lemma LRU_Get_hit (lru : LRUCache) (now : Z) (k : string) (elem : Element)
    (e : entry) :
  wf lru -> cache lru !! k = Some elem ->
  heap lru !! Value elem = Some e -> expired e now = false ->
  exists lru',
    Get now k lru = Ok (lru', (value e, true)) /\ wf lru' /\
    capacity lru' = capacity lru /\
    length (lst lru') = length (lst lru).
Proof.
  intros Hwf Hc He Hexp.
  destruct (wf_cache _ Hwf _ _ Hc) as (Hin & _).
  destruct (MoveToFront_elem elem (lst lru) (wf_nodup _ Hwf) Hin)
    as (_ & Hnd & Hmem & Hlen).
  unfold Get. rewrite Hc. unfold load, deref. rewrite He. simpl.
  unfold expired in Hexp. rewrite Hexp.
  eexists. split; [reflexivity|]. simpl. split; [|done].
  by apply wf_reorder.
Qed.

Lemma LRU_Get_expired (lru : LRUCache) (now : Z) (k : string) (elem : Element)
    (e : entry) :
  wf lru -> cache lru !! k = Some elem ->
  heap lru !! Value elem = Some e -> expired e now = true ->
  exists lru',
    Get now k lru = Ok (lru', (VNil, false)) /\ wf lru' /\
    capacity lru' = capacity lru /\
    S (length (lst lru')) = length (lst lru) /\
    cache lru' !! k = None /\
    lst lru' = Remove elem (lst lru) /\
    (forall e', e' ∈ view lru' -> key e' <> k).
Proof.
  intros Hwf Hc He Hexp.
  destruct (wf_cache _ Hwf _ _ Hc) as (Hin & e0 & He0 & Hk).
  assert (e0 = e) as -> by congruence.
  destruct (removeElement_spec lru elem Hwf Hin)
    as (e1 & lru' & He1 & Hr & Hwf' & Hlru').
  assert (e1 = e) as -> by congruence.
  unfold Get. rewrite Hc. unfold load at 1. unfold deref. rewrite He. simpl.
  unfold expired in Hexp. rewrite Hexp, Hr. simpl.
  exists lru'. split; [done|]. split; [done|].
  assert (Hnone : cache lru' !! k = None).
  { rewrite Hlru'. simpl. rewrite Hk. apply lookup_delete_eq. }
  rewrite Hlru' at 1 2 4. simpl.
  split; [done|]. split; [apply length_Remove; [apply Hwf|done]|].
  split; [done|]. split; [done|].
  intros e' He' Hke'.
  destruct (view_lookup lru' e' Hwf' He') as (x & Hx & _). congruence.
Qed.


Lemma removelast_length {A : Type} (l : list A) :
  length (removelast l) = Nat.pred (length l).
Proof.
  destruct l as [|a l] using rev_ind; [done|].
  rewrite removelast_last, length_app. simpl. lia.
Qed.

(** Every call returns, keeps the state well formed and the capacity
    field, and keeps the list within a positive capacity. *)
Lemma LRU_step_wf (lru : LRUCache) (o : op) :
  wf lru ->
  exists lru',
    step lru o = Ok lru' /\ wf lru' /\ capacity lru' = capacity lru /\
    (1 <= capacity lru -> Len (lst lru) <= capacity lru ->
     Len (lst lru') <= capacity lru).
Proof.
  intros Hwf. unfold Len.
  destruct o as [now k v ttl|now k|k|]; simpl.
  - destruct (cache lru !! k) as [elem|] eqn:Hk.
    + destruct (Set_old_spec lru now k v ttl elem Hwf Hk)
        as (lru' & HS & Hwf' & Hcap' & Hlen' & _).
      exists lru'. split; [done|]. split; [done|]. split; [done|]. lia.
    + destruct (Set_new_spec lru now k v ttl Hwf Hk)
        as (lru' & HS & Hwf' & Hcap' & Hview).
      exists lru'. split; [done|]. split; [done|]. split; [done|].
      intros Hc Hlen.
      rewrite <- (view_length lru' Hwf'), Hview. simpl.
      destruct (Len (lst lru) >=? capacity lru) eqn:Hfull; unfold Len in Hfull.
      * rewrite removelast_length, (view_length lru Hwf). lia.
      * rewrite (view_length lru Hwf). lia.
  - destruct (cache lru !! k) as [elem|] eqn:Hk.
    + destruct (lookup_view lru k elem Hwf Hk) as (e & He & _).
      destruct (expired e now) eqn:Hexp.
      * destruct (LRU_Get_expired lru now k elem e Hwf Hk He Hexp)
          as (lru' & HG & Hwf' & Hcap' & Hlen' & _).
        rewrite HG. simpl. exists lru'. split; [done|].
        split; [done|]. split; [done|]. lia.
      * destruct (LRU_Get_hit lru now k elem e Hwf Hk He Hexp)
          as (lru' & HG & Hwf' & Hcap' & Hlen').
        rewrite HG. simpl. exists lru'. split; [done|].
        split; [done|]. split; [done|]. lia.
    + rewrite (LRU_Get_miss lru now k Hk). simpl. exists lru.
      split; [done|]. split; [done|]. split; [done|]. lia.
  - unfold Delete. destruct (cache lru !! k) as [elem|] eqn:Hk.
    + destruct (wf_cache _ Hwf _ _ Hk) as (Hin & _).
      destruct (removeElement_spec lru elem Hwf Hin)
        as (e & lru' & He & Hr & Hwf' & Hlru').
      exists lru'. split; [done|]. split; [done|].
      rewrite Hlru'. simpl. split; [done|].
      pose proof (length_Remove elem (lst lru) (wf_nodup _ Hwf) Hin). lia.
    + exists lru.
      split; [done|]. split; [done|]. split; [done|]. lia.
  - eexists. split; [reflexivity|]. split; [|split]; simpl.
    + constructor; simpl.
      * constructor.
      * intros elem H. inversion H.
      * intros k elem H. by rewrite lookup_empty in H.
    + done.
    + lia.
Qed.

Lemma LRU_run_wf (ops : list op) (lru : LRUCache) :
  wf lru ->
  exists lru',
    run lru ops = Ok lru' /\ wf lru' /\ capacity lru' = capacity lru /\
    (1 <= capacity lru -> Len (lst lru) <= capacity lru ->
     Len (lst lru') <= capacity lru).
Proof.
  revert lru. induction ops as [|o ops IH]; intros lru Hwf.
  - exists lru. split; [done|]. split; [done|]. split; [done|]. auto.
  - destruct (LRU_step_wf lru o Hwf) as (lru1 & Hs & Hwf1 & Hcap1 & Hlen1).
    destruct (IH lru1 Hwf1) as (lru' & Hr & Hwf' & Hcap' & Hlen').
    exists lru'. split; [simpl; rewrite Hs; exact Hr|].
    split; [done|]. split; [congruence|].
    intros Hc Hlen. rewrite <- Hcap1. apply Hlen'; rewrite Hcap1; auto.
Qed.

(** No call on an LRU cache panics or goes through an unallocated
    pointer. *)
Lemma LRU_total (c : Z) (ops : list op) :
  exists lru, run (NewLRUCache c) ops = Ok lru.
Proof.
  destruct (LRU_run_wf ops _ (LRU_wf_New c)) as (lru & Hr & _). eauto.
Qed.

Lemma LRU_reachable_wf (c : Z) (lru : LRUCache) :
  reachable c lru -> wf lru /\ capacity lru = c.
Proof.
  intros [ops Hr].
  destruct (LRU_run_wf ops _ (LRU_wf_New c)) as (lru' & Hr' & Hwf & Hcap & _).
  assert (lru' = lru) as -> by congruence. by split.
Qed.

(** The LRU part of the capacity invariant: with a capacity [c >= 1] the
    ordering list never holds more than [c] elements. *)
Lemma LRU_capacity (c : Z) (lru : LRUCache) :
  1 <= c -> reachable c lru -> Len (lst lru) <= c.
Proof.
  intros Hc [ops Hr].
  destruct (LRU_run_wf ops _ (LRU_wf_New c)) as (lru' & Hr' & _ & _ & Hlen).
  assert (lru' = lru) as -> by congruence.
  apply Hlen; simpl; [done|]. unfold Len. simpl. lia.
Qed.

End LRUProps.

(** ** LRUCache: eviction order (C8) *)

Module LRUEviction.
Import GoList GoListFacts LRU LRUProps.

(** The entry of a call is live at [now] when the call gave no ttl or its
    ttl has not run out. *)
Lemma expired_entryOf (s : call) (now : Z) :
  cttl s <= 0 \/ now <= cnow s + cttl s -> expired (entryOf s) now = false.
Proof.
  unfold expired, entryOf, expiry. simpl. intros H.
  destruct (0 <? cttl s) eqn:Httl; simpl; [|done].
  apply Z.ltb_lt in Httl. apply Z.ltb_ge. lia.
Qed.






End LRUEviction.

(** ** LFUCache: pointers stay valid *)

Module LFUProps.
Import LFU.

Lemma ovalid_insert h np n q :
  ovalid h q -> ovalid (<[np := n]> h) q.
Proof.
  destruct q as [a|]; simpl; [|done]. intros H.
  apply lookup_insert_is_Some. destruct (decide (np = a)); auto.
Qed.

Lemma nodes_ok_insert h fr np n :
  nodes_ok h fr ->
  ovalid (<[np := n]> h) (prev n) -> ovalid (<[np := n]> h) (next n) ->
  nodes_ok (<[np := n]> h) fr.
Proof.
  intros [Hn Hf] Hp Hx. split.
  - intros a nd Ha. apply lookup_insert_Some in Ha as [[<- <-]|[Hne Ha]].
    + done.
    + destruct (Hn a nd Ha). split; by apply ovalid_insert.
  - intros f a Ha. apply (ovalid_insert _ _ _ (Some a)). by apply (Hf f).
Qed.

Lemma nodes_ok_delete h fr f : nodes_ok h fr -> nodes_ok h (delete f fr).
Proof.
  intros [Hn Hf]. split; [done|]. intros g a Ha.
  apply lookup_delete_Some in Ha as [_ Ha]. by apply (Hf g).
Qed.

Lemma nodes_ok_register h fr f np :
  nodes_ok h fr -> is_Some (h !! np) -> nodes_ok h (<[f := np]> fr).
Proof.
  intros [Hn Hf] Hnp. split; [done|]. intros g a Ha.
  apply lookup_insert_Some in Ha as [[_ <-]|[_ Ha]]; [done|by apply (Hf g)].
Qed.

Lemma modNode_Ok np f c c' :
  modNode np f c = Ok c' <->
  exists n, nhp c !! np = Some n /\ c' = set_nhp (<[np := f n]> (nhp c)) c.
Proof.
  unfold modNode. rewrite bind_Ok. split.
  - intros (n & Hn & Hc). apply load_Ok in Hn. exists n. split; congruence.
  - intros (n & Hn & ->). exists n. by rewrite load_Ok.
Qed.

Lemma modItem_Ok ip f c c' :
  modItem ip f c = Ok c' <->
  exists it, ihp c !! ip = Some it /\ c' = set_ihp (<[ip := f it]> (ihp c)) c.
Proof.
  unfold modItem. rewrite bind_Ok. split.
  - intros (n & Hn & Hc). apply load_Ok in Hn. exists n. split; congruence.
  - intros (n & Hn & ->). exists n. by rewrite load_Ok.
Qed.

Lemma node_step_refl c : node_step c c.
Proof. by constructor. Qed.

Lemma node_step_trans c1 c2 c3 :
  node_step c1 c2 -> node_step c2 c3 -> node_step c1 c3.
Proof.
  intros [] []. constructor; try congruence; auto.
Qed.

(** Writing fields of an allocated node, the links staying valid. *)
Lemma modNode_step np f c c' :
  modNode np f c = Ok c' ->
  (forall n, nhp c !! np = Some n -> nodes_ok (nhp c) (freqs c) ->
     ovalid (nhp c) (prev (f n)) /\ ovalid (nhp c) (next (f n))) ->
  node_step c c'.
Proof.
  intros H Hf. apply modNode_Ok in H as (n & Hn & ->).
  constructor; simpl; try done.
  - intros a Ha. apply lookup_insert_is_Some.
    destruct (decide (np = a)); auto.
  - intros Hok. destruct (Hf n Hn Hok).
    apply nodes_ok_insert; [done| |]; by apply ovalid_insert.
Qed.

Lemma modNode_nitems_step np g c c' :
  modNode np (fun n => set_nitems (g n) n) c = Ok c' -> node_step c c'.
Proof.
  intros H. apply (modNode_step _ _ _ _ H). intros n Hn [Hok _]. simpl.
  by apply (Hok np).
Qed.

Lemma removeFreqNode_step np c c' :
  removeFreqNode np c = Ok c' -> node_step c c'.
Proof.
  unfold removeFreqNode. intros H. exec_inv.
  rename x into node, x0 into c1, x1 into node1, H0 into Hnode, H1 into H1,
    H2 into Hnode1.
  set (c0 := set_freqs (delete (freq node) (freqs c)) c) in *.
  assert (S0 : node_step c c0).
  { constructor; try done. simpl. apply nodes_ok_delete. }
  assert (S1 : node_step c0 c1).
  { destruct (prev node) as [pp|] eqn:Hp.
    - apply (modNode_step _ _ _ _ H1). intros n Hn [Hok _]. simpl.
      split; [by apply (Hok pp)|]. by apply (Hok np node).
    - injection H1 as <-. apply node_step_refl. }
  apply (node_step_trans _ _ _ S0), (node_step_trans _ _ _ S1).
  destruct (next node1) as [nn|] eqn:Hn.
  - apply (modNode_step _ _ _ _ H). intros n Hnn [Hok _]. simpl.
    split; [|by apply (Hok nn)]. by apply (Hok np node1).
  - injection H as <-. apply node_step_refl.
Qed.

Lemma addFreqNode_step np c c' :
  addFreqNode np c = Ok c' -> node_step c c'.
Proof.
  unfold addFreqNode. intros H.
  apply bind_Ok in H as (node & Hnode & H). apply load_Ok in Hnode.
  destruct (freqs c !! (freq node - 1)) as [pp|] eqn:Hpp;
    [|injection H as <-; apply node_step_refl].
  apply bind_Ok in H as (c1 & H1 & H).
  apply bind_Ok in H as (prevNode & Hprev & H). apply load_Ok in Hprev.
  apply bind_Ok in H as (c2 & H2 & H).
  apply bind_Ok in H as (c3 & H3 & H).
  apply bind_Ok in H as (node3 & Hnode3 & H). apply load_Ok in Hnode3.
  assert (S1 : node_step c c1).
  { apply (modNode_step _ _ _ _ H1). intros n Hn [Hok Hfr]. simpl.
    split; [by apply (Hfr _ _ Hpp)|by apply (Hok np)]. }
  assert (S2 : node_step c1 c2).
  { apply (modNode_step _ _ _ _ H2). intros n Hn [Hok Hfr]. simpl.
    split; [by apply (Hok np)|by apply (Hok pp prevNode)]. }
  assert (S3 : node_step c2 c3).
  { apply (modNode_step _ _ _ _ H3). intros n Hn [Hok Hfr]. simpl.
    split; [by apply (Hok pp)|].
    apply modNode_Ok in H2 as (n2 & Hn2 & Hc2). rewrite Hc2. simpl.
    rewrite lookup_insert_eq. eauto. }
  apply (node_step_trans _ _ _ S1), (node_step_trans _ _ _ S2),
    (node_step_trans _ _ _ S3).
  destruct (next node3) as [nn|] eqn:Hnn;
    [|injection H as <-; apply node_step_refl].
  apply (modNode_step _ _ _ _ H). intros n Hn [Hok Hfr]. simpl.
  split; [eauto|by apply (Hok nn)].
Qed.

Lemma detach_step k np c c' : detach k np c = Ok c' -> node_step c c'.
Proof.
  unfold detach. intros H.
  apply bind_Ok in H as (c1 & H1 & H).
  apply bind_Ok in H as (node & Hnode & H).
  apply modNode_nitems_step in H1.
  apply (node_step_trans _ _ _ H1).
  destruct (Z.of_nat (size (nitems node)) =? 0).
  - by apply removeFreqNode_step in H.
  - injection H as <-. apply node_step_refl.
Qed.

(** [incrementFreq] on the item at [ip]: the item gets the next frequency
    and an allocated bucket, every other item and the table of items stay
    as they are. *)
Lemma incrementFreq_spec (ip : nat) (it : lfuItem) (c c' : LFUCache) :
  incrementFreq ip c = Ok c' -> ihp c !! ip = Some it ->
  capacity c' = capacity c /\ items c' = items c /\
  (fresh c <= fresh c')%nat /\
  (forall a, is_Some (nhp c !! a) -> is_Some (nhp c' !! a)) /\
  (nodes_ok (nhp c) (freqs c) -> nodes_ok (nhp c') (freqs c')) /\
  exists np, is_Some (nhp c' !! np) /\
    ihp c' = <[ip := mkItem (key it) (value it) (frequency it + 1)
                            (expiration it) (Some np)]> (ihp c).
Proof.
  unfold incrementFreq. intros H Hit.
  apply bind_Ok in H as (it0 & Hit0 & H). apply load_Ok in Hit0.
  assert (it0 = it) as -> by congruence.
  apply bind_Ok in H as (c1 & H1 & H).
  assert (S1 : node_step c c1).
  { destruct (fnode it) as [np|]; [by apply (detach_step (key it) np)|].
    injection H1 as <-. apply node_step_refl. }
  apply bind_Ok in H as (c2 & H2 & H).
  apply modItem_Ok in H2 as (it1 & Hit1 & ->).
  rewrite (ns_ihp _ _ S1) in Hit1. assert (it1 = it) as -> by congruence.
  apply bind_Ok in H as (it2 & Hit2 & H). apply load_Ok in Hit2.
  simpl in Hit2. rewrite lookup_insert_eq in Hit2. injection Hit2 as <-.
  simpl in H.
  apply bind_Ok in H as (c4 & H4 & H).
  set (c2 := set_ihp _ c1) in *.
  assert (Hc4 : capacity c4 = capacity c /\ items c4 = items c /\
    (fresh c <= fresh c4)%nat /\
    (forall a, is_Some (nhp c !! a) -> is_Some (nhp c4 !! a)) /\
    (nodes_ok (nhp c) (freqs c) -> nodes_ok (nhp c4) (freqs c4)) /\
    exists np, is_Some (nhp c4 !! np) /\
      ihp c4 = <[ip := mkItem (key it) (value it) (frequency it + 1)
                              (expiration it) (Some np)]> (ihp c)).
  { destruct S1 as [Scap Sitems Sihp Sfresh Salloc Sok].
    destruct (freqs c1 !! (frequency it + 1)) as [np|] eqn:Hfr.
    - apply bind_Ok in H4 as (c3 & H3 & H4).
      pose proof (proj1 (modNode_Ok _ _ _ _) H3) as (n3 & Hn3 & _).
      apply modNode_nitems_step in H3. destruct H3 as [? ? ? ? ? ?].
      apply modItem_Ok in H4 as (it3 & Hit3 & ->). simpl.
      rewrite ns_ihp0 in Hit3 |- *. subst c2. simpl in *.
      rewrite lookup_insert_eq in Hit3. injection Hit3 as <-. simpl.
      refine (conj _ (conj _ (conj _ (conj _ (conj _ _)))));
        try congruence; try lia; auto.
      exists np. split; [by apply ns_alloc0; eauto|].
      by rewrite insert_insert_eq, Sihp.
    - apply bind_Ok in H4 as (c3 & H3 & H4).
      apply bind_Ok in H4 as (c5 & H5 & H4).
      apply addFreqNode_step in H3. destruct H3 as [? ? ? ? ? ?].
      pose proof (proj1 (modNode_Ok _ _ _ _) H5) as (n5 & Hn5 & _).
      apply modNode_nitems_step in H5. destruct H5 as [? ? ? ? ? ?].
      apply modItem_Ok in H4 as (it3 & Hit3 & ->). simpl.
      rewrite ns_ihp1, ns_ihp0 in Hit3 |- *. subst c2. simpl in *.
      rewrite lookup_insert_eq in Hit3. injection Hit3 as <-. simpl.
      refine (conj _ (conj _ (conj _ (conj _ (conj _ _)))));
        try congruence; try lia.
      + intros a Ha. apply ns_alloc1, ns_alloc0.
        apply lookup_insert_is_Some.
        destruct (decide (fresh c1 = a)); auto.
      + intros Hok. apply ns_ok1, ns_ok0.
        apply nodes_ok_register; [|by rewrite lookup_insert_eq].
        apply nodes_ok_insert; simpl; auto.
      + exists (fresh c1). split; [by apply ns_alloc1; eauto|].
        by rewrite insert_insert_eq, Sihp. }
  destruct Hc4 as (? & ? & ? & ? & ? & np & ? & ?).
  apply bind_Ok in H as (it5 & _ & H).
  assert (Hfin : exists m, c' = set_minFreq m c4).
  { destruct (frequency it5 =? 1); [injection H as <-; eauto|].
    destruct (frequency it5 - 1 =? minFreq c4).
    - apply bind_Ok in H as (nd & _ & H).
      destruct (Z.of_nat (size (nitems nd)) =? 0); injection H as <-; eauto.
      exists (minFreq c4). by destruct c4.
    - injection H as <-. exists (minFreq c4). by destruct c4. }
  destruct Hfin as (m & ->). simpl.
  refine (conj _ (conj _ (conj _ (conj _ (conj _ _))))); eauto.
Qed.

(** *** Calls that return *)

Lemma modNode_total (np : nat) (f : freqNode -> freqNode) (c : LFUCache) :
  is_Some (nhp c !! np) -> exists c', modNode np f c = Ok c'.
Proof.
  intros [n Hn]. eexists. apply modNode_Ok. eauto.
Qed.

Lemma removeFreqNode_total (np : nat) (c : LFUCache) :
  nodes_ok (nhp c) (freqs c) -> is_Some (nhp c !! np) ->
  exists c', removeFreqNode np c = Ok c'.
Proof.
  intros Hok [node Hnode]. unfold removeFreqNode, load, deref.
  rewrite Hnode. simpl.
  set (c0 := set_freqs (delete (freq node) (freqs c)) c).
  assert (Hprev : exists c1,
    match prev node with
    | Some pp => modNode pp (set_next (next node)) c0
    | None => Ok c0
    end = Ok c1 /\ node_step c0 c1).
  { destruct (prev node) as [pp|] eqn:Hp.
    - destruct (modNode_total pp (set_next (next node)) c0) as [c1 H1].
      { destruct Hok as [Hok _]. destruct (Hok np node Hnode) as [Hv _].
        by rewrite Hp in Hv. }
      exists c1. split; [done|].
      apply (modNode_step _ _ _ _ H1). intros n Hn [Hok' _]. simpl.
      split; [by apply (Hok' pp)|]. by apply (Hok' np node).
    - exists c0. split; [done|]. apply node_step_refl. }
  destruct Hprev as (c1 & -> & S1). simpl.
  assert (Hok1 : nodes_ok (nhp c1) (freqs c1)).
  { apply (ns_ok _ _ S1). simpl. by apply nodes_ok_delete. }
  destruct (ns_alloc _ _ S1 np) as [node1 Hnode1]; [by eexists|].
  rewrite Hnode1. simpl.
  destruct (next node1) as [nn|] eqn:Hn; [|eauto].
  apply modNode_total. destruct Hok1 as [Hok1 _].
  destruct (Hok1 np node1 Hnode1) as [_ Hv]. by rewrite Hn in Hv.
Qed.

Lemma detach_total (k : string) (np : nat) (c : LFUCache) :
  nodes_ok (nhp c) (freqs c) -> is_Some (nhp c !! np) ->
  exists c', detach k np c = Ok c'.
Proof.
  intros Hok Hnp. unfold detach.
  destruct (modNode_total np
              (fun n => set_nitems (delete k (nitems n)) n) c Hnp) as [c1 H1].
  rewrite H1. simpl.
  pose proof (modNode_nitems_step _ _ _ _ H1) as S1.
  destruct (ns_alloc _ _ S1 np Hnp) as [node Hnode].
  unfold load, deref. rewrite Hnode. simpl.
  destruct (Z.of_nat (size (nitems node)) =? 0); [|eauto].
  apply removeFreqNode_total; [by apply (ns_ok _ _ S1)|by eexists].
Qed.

(** *** [remove] *)

Lemma remove_unfold (ip : nat) (c : LFUCache) :
  remove ip c =
  (item <- load (ihp c) ip ;;
   match fnode item with
   | Some np =>
       detach (key item) np (set_items (delete (key item) (items c)) c)
   | None => Panic
   end).
Proof. reflexivity. Qed.

Lemma remove_spec (ip : nat) (it : lfuItem) (c c' : LFUCache) :
  remove ip c = Ok c' -> ihp c !! ip = Some it ->
  node_step (set_items (delete (key it) (items c)) c) c'.
Proof.
  rewrite remove_unfold. intros H Hit.
  apply bind_Ok in H as (it0 & Hit0 & H). apply load_Ok in Hit0.
  assert (it0 = it) as -> by congruence.
  destruct (fnode it) as [np|]; [|discriminate H].
  by apply detach_step in H.
Qed.

Lemma remove_total (ip np : nat) (it : lfuItem) (c : LFUCache) :
  ihp c !! ip = Some it -> fnode it = Some np ->
  is_Some (nhp c !! np) -> nodes_ok (nhp c) (freqs c) ->
  exists c', remove ip c = Ok c'.
Proof.
  intros Hit Hf Hnp Hok. rewrite remove_unfold.
  unfold load, deref. rewrite Hit. simpl. rewrite Hf.
  by apply detach_total.
Qed.

(** *** Well-formed states *)

Lemma wf_wf_but (ip : nat) (c : LFUCache) : wf c -> wf_but ip c.
Proof.
  intros [Hi Hn Hf]. constructor; try done.
  intros k ip' H. destruct (Hi k ip' H) as (it & ? & ? & ?). eauto.
Qed.

Lemma LFU_wf_New (cap : Z) : wf (NewLFUCache cap).
Proof.
  constructor; simpl.
  - intros k ip H. by rewrite lookup_empty in H.
  - split; intros ? ? H; by rewrite lookup_empty in H.
  - intros ip [? H]. by rewrite lookup_empty in H.
Qed.

Lemma incrementFreq_wf (ip : nat) (c c' : LFUCache) :
  wf_but ip c -> incrementFreq ip c = Ok c' -> wf c'.
Proof.
  intros [Hi Hn Hf] H.
  assert (Hit : exists it, ihp c !! ip = Some it).
  { unfold incrementFreq in H. apply bind_Ok in H as (it & Hit & _).
    apply load_Ok in Hit. eauto. }
  destruct Hit as [it Hit].
  destruct (incrementFreq_spec ip it c c' H Hit)
    as (Hcap & Hitems & Hfresh & Halloc & Hok & np & Hnp & Hihp).
  constructor.
  - intros k ip' Hk. rewrite Hitems in Hk.
    destruct (Hi k ip' Hk) as (it' & Hit' & Hkey & Hb). rewrite Hihp.
    destruct (decide (ip' = ip)) as [->|Hne].
    + rewrite lookup_insert_eq. eexists. split; [done|]. simpl.
      split; [congruence|]. eauto.
    + rewrite lookup_insert_ne by done. exists it'.
      split; [done|]. split; [done|].
      destruct Hb as [?|(np' & ? & ?)]; [done|]. eauto.
  - by apply Hok.
  - intros a Ha. rewrite Hihp in Ha.
    apply lookup_insert_is_Some in Ha as [<-|[_ Ha]].
    + assert (ip < fresh c)%nat by (apply Hf; eauto). lia.
    + apply Hf in Ha. lia.
Qed.

Lemma remove_wf (ip : nat) (c c' : LFUCache) :
  wf c -> remove ip c = Ok c' -> wf c'.
Proof.
  intros [Hi Hn Hf] H.
  assert (Hit : exists it, ihp c !! ip = Some it).
  { rewrite remove_unfold in H. apply bind_Ok in H as (it & Hit & _).
    apply load_Ok in Hit. eauto. }
  destruct Hit as [it Hit].
  destruct (remove_spec ip it c c' H Hit) as [Scap Sitems Sihp Sfresh Salloc Sok].
  simpl in *. constructor.
  - intros k ip' Hk. rewrite Sitems in Hk.
    apply lookup_delete_Some in Hk as [_ Hk].
    destruct (Hi k ip' Hk) as (it' & Hit' & Hkey & np & Hnp & Hv).
    rewrite Sihp. eauto 10.
  - by apply Sok.
  - intros a Ha. rewrite Sihp in Ha. rewrite Sfresh. by apply Hf.
Qed.

Lemma evict_wf (pick : nat) (c c' : LFUCache) :
  wf c -> evict pick c = Ok c' -> wf c'.
Proof.
  intros Hwf H. unfold evict in H.
  destruct (freqs c !! minFreq c) as [np|]; [|by injection H as <-].
  apply bind_Ok in H as (node & _ & H).
  destruct (range_first pick (nitems node)) as [ip|];
    [|by injection H as <-].
  by apply (remove_wf ip c c').
Qed.

Lemma Set_wf (now : Z) (k : string) (v : any) (ttl : Z) (pick : nat)
    (c c' : LFUCache) (r : error) :
  wf c -> Set_ now k v ttl pick c = Ok (c', r) -> wf c'.
Proof.
  intros Hwf H. unfold Set_ in H.
  destruct (items c !! k) as [ip|] eqn:Hk.
  - apply bind_Ok in H as (c2 & H2 & H).
    apply bind_Ok in H as (c3 & H3 & H). injection H as <- _.
    apply modItem_Ok in H2 as (it & Hit & ->).
    apply (incrementFreq_wf ip _ _ ) in H3; [done|].
    destruct Hwf as [Hi Hn Hf]. constructor; simpl; [|done|].
    + intros k' ip' Hk'.
      destruct (Hi k' ip' Hk') as (it' & Hit' & Hkey & np & Hnp & Hv).
      destruct (decide (ip' = ip)) as [->|Hne].
      * rewrite lookup_insert_eq. eexists. split; [done|]. simpl.
        split; [congruence|]. by left.
      * rewrite lookup_insert_ne by done. eauto 10.
    + intros a Ha. apply lookup_insert_is_Some in Ha as [<-|[_ Ha]]; eauto.
  - apply bind_Ok in H as (c2 & H2 & H).
    apply bind_Ok in H as (c3 & H3 & H). injection H as <- _.
    assert (Hwf2 : wf c2).
    { destruct (Z.of_nat (size (items c)) >=? capacity c).
      - by apply (evict_wf pick c).
      - by injection H2 as <-. }
    apply (incrementFreq_wf (fresh c2) _ _ ) in H3; [done|].
    destruct Hwf2 as [Hi Hn Hf]. constructor; simpl; [|done|].
    + intros k' ip' Hk'.
      apply lookup_insert_Some in Hk' as [[<- <-]|[Hne Hk']].
      * rewrite lookup_insert_eq. eexists. split; [done|]. simpl.
        split; [done|]. by left.
      * destruct (Hi k' ip' Hk') as (it' & Hit' & Hkey & np & Hnp & Hv).
        assert (ip' < fresh c2)%nat by (apply Hf; eauto).
        rewrite lookup_insert_ne by lia. eauto 10.
    + intros a Ha. apply lookup_insert_is_Some in Ha as [<-|[_ Ha]].
      * lia.
      * apply Hf in Ha. lia.
Qed.

Lemma Get_wf (now : Z) (k : string) (c c' : LFUCache) (r : any * bool) :
  wf c -> Get now k c = Ok (c', r) -> wf c'.
Proof.
  intros Hwf H. unfold Get in H.
  destruct (items c !! k) as [ip|] eqn:Hk; [|by injection H as <- _].
  apply bind_Ok in H as (it & Hit & H).
  destruct ((0 <? expiration it) && (expiration it <? now)).
  - apply bind_Ok in H as (c1 & H1 & H). injection H as <- _.
    by apply (remove_wf ip c).
  - apply bind_Ok in H as (c1 & H1 & H).
    apply bind_Ok in H as (it1 & _ & H). injection H as <- _.
    apply (incrementFreq_wf ip c); [by apply wf_wf_but|done].
Qed.

Lemma Delete_wf (k : string) (c c' : LFUCache) (r : error) :
  wf c -> Delete k c = Ok (c', r) -> wf c'.
Proof.
  intros Hwf H. unfold Delete in H.
  destruct (items c !! k) as [ip|] eqn:Hk; [|by injection H as <- _].
  apply bind_Ok in H as (c1 & H1 & H). injection H as <- _.
  by apply (remove_wf ip c).
Qed.

Lemma Flush_wf (c c' : LFUCache) (r : error) :
  wf c -> Flush c = Ok (c', r) -> wf c'.
Proof.
  intros [Hi [Hn Hfr] Hf] H. injection H as <- _. constructor; simpl.
  - intros k ip H. by rewrite lookup_empty in H.
  - split; [done|]. intros ? ? H. by rewrite lookup_empty in H.
  - done.
Qed.

Lemma LFU_step_wf (c c' : LFUCache) (o : op) :
  wf c -> step c o = Ok c' -> wf c'.
Proof.
  intros Hwf H. destruct o as [now k v ttl pick|now k|k|];
    apply bind_Ok in H as ([c1 r] & H & Hc'); injection Hc' as <-.
  - by apply (Set_wf now k v ttl pick c c1 r).
  - by apply (Get_wf now k c c1 r).
  - by apply (Delete_wf k c c1 r).
  - by apply (Flush_wf c c1 r).
Qed.

Lemma LFU_run_wf (ops : list op) (c c' : LFUCache) :
  wf c -> run c ops = Ok c' -> wf c'.
Proof.
  revert c. induction ops as [|o ops IH]; intros c Hwf H.
  - by injection H as <-.
  - simpl in H. apply bind_Ok in H as (c1 & H1 & H).
    apply (IH c1); [|done]. by apply (LFU_step_wf c c1 o).
Qed.

Lemma LFU_reachable_wf (cap : Z) (c : LFUCache) : reachable cap c -> wf c.
Proof. intros [ops H]. apply (LFU_run_wf ops _ c (LFU_wf_New cap) H). Qed.

(** [Get] on an expired item of a well-formed cache. *)
Lemma LFU_Get_expired (now : Z) (k : string) (ip : nat) (it : lfuItem)
    (c : LFUCache) :
  wf c -> items c !! k = Some ip -> ihp c !! ip = Some it ->
  (0 <? expiration it) && (expiration it <? now) = true ->
  exists c', Get now k c = Ok (c', (VNil, false)) /\
             items c' = delete k (items c) /\ wf c'.
Proof.
  intros Hwf Hk Hit Hexp.
  destruct (wf_items c Hwf k ip Hk) as (it0 & Hit0 & Hkey & np & Hnp & Hv).
  assert (it0 = it) as -> by congruence.
  destruct (remove_total ip np it c Hit Hnp Hv (wf_nodes c Hwf)) as [c' Hr].
  exists c'. unfold Get. rewrite Hk. unfold load, deref. rewrite Hit. simpl.
  rewrite Hexp, Hr. simpl. split; [done|].
  split; [|by apply (remove_wf ip c)].
  destruct (remove_spec ip it c c' Hr Hit) as [_ Sitems _ _ _ _].
  simpl in Sitems. congruence.
Qed.

End LFUProps.

(** ** LFUCache: the capacity bound *)

Module LFUCap.
Import LFU LFUProps.

Lemma frame_refl (c : LFUCache) : frame c c.
Proof. by constructor. Qed.

Lemma frame_trans (c1 c2 c3 : LFUCache) :
  frame c1 c2 -> frame c2 c3 -> frame c1 c3.
Proof. intros [] []. constructor; congruence. Qed.

Lemma same_buckets_refl (h : gmap nat freqNode) : same_buckets h h.
Proof. by intros a. Qed.

Lemma same_buckets_trans (h1 h2 h3 : gmap nat freqNode) :
  same_buckets h1 h2 -> same_buckets h2 h3 -> same_buckets h1 h3.
Proof.
  intros H12 H23 a. destruct (H12 a), (H23 a). split; congruence.
Qed.

Lemma same_buckets_lookup (h h' : gmap nat freqNode) (a : nat) (nd : freqNode) :
  same_buckets h h' -> h !! a = Some nd ->
  exists nd', h' !! a = Some nd' /\ freq nd' = freq nd /\ nitems nd' = nitems nd.
Proof.
  intros Hs Ha. destruct (Hs a) as [Hf Hn]. rewrite Ha in Hf, Hn.
  destruct (h' !! a) as [nd'|]; [|done]. simpl in *.
  exists nd'. split; [done|]. split; congruence.
Qed.

Lemma same_buckets_lookup_inv (h h' : gmap nat freqNode) (a : nat) (nd' : freqNode) :
  same_buckets h h' -> h' !! a = Some nd' ->
  exists nd, h !! a = Some nd /\ freq nd' = freq nd /\ nitems nd' = nitems nd.
Proof.
  intros Hs Ha. destruct (Hs a) as [Hf Hn]. rewrite Ha in Hf, Hn.
  destruct (h !! a) as [nd|]; [|done]. simpl in *.
  exists nd. split; [done|]. split; congruence.
Qed.

(** Writing a link of a node changes no bucket. *)
Lemma modNode_links (np : nat) (f : freqNode -> freqNode) (c c' : LFUCache) :
  modNode np f c = Ok c' ->
  (forall n, freq (f n) = freq n /\ nitems (f n) = nitems n) ->
  frame c c' /\ freqs c' = freqs c /\ same_buckets (nhp c) (nhp c').
Proof.
  intros H Hf. apply modNode_Ok in H as (n & Hn & ->).
  split; [by constructor|]. split; [done|]. simpl. intros a.
  destruct (decide (np = a)) as [<-|Hne].
  - rewrite lookup_insert_eq, Hn. simpl. destruct (Hf n) as [-> ->]. done.
  - by rewrite lookup_insert_ne.
Qed.

Lemma removeFreqNode_links (np : nat) (nd : freqNode) (c c' : LFUCache) :
  removeFreqNode np c = Ok c' -> nhp c !! np = Some nd ->
  frame c c' /\ freqs c' = delete (freq nd) (freqs c) /\
  same_buckets (nhp c) (nhp c').
Proof.
  unfold removeFreqNode. intros H Hnd.
  apply bind_Ok in H as (node & Hnode & H). apply load_Ok in Hnode.
  assert (node = nd) as -> by congruence.
  apply bind_Ok in H as (c1 & H1 & H).
  apply bind_Ok in H as (node1 & _ & H).
  set (c0 := set_freqs (delete (freq nd) (freqs c)) c) in *.
  assert (S1 : frame c0 c1 /\ freqs c1 = freqs c0 /\
               same_buckets (nhp c0) (nhp c1)).
  { destruct (prev nd) as [pp|].
    - by apply (modNode_links pp _ _ _ H1).
    - injection H1 as <-. split; [apply frame_refl|]. split; [done|].
      apply same_buckets_refl. }
  assert (S2 : frame c1 c' /\ freqs c' = freqs c1 /\
               same_buckets (nhp c1) (nhp c')).
  { destruct (next node1) as [nn|].
    - by apply (modNode_links nn _ _ _ H).
    - injection H as <-. split; [apply frame_refl|]. split; [done|].
      apply same_buckets_refl. }
  destruct S1 as (F1 & E1 & B1), S2 as (F2 & E2 & B2).
  split; [|split].
  - apply (frame_trans c c1 c'); [|done]. destruct F1. by constructor.
  - by rewrite E2, E1.
  - by apply (same_buckets_trans _ (nhp c1)).
Qed.

Lemma addFreqNode_links (np : nat) (c c' : LFUCache) :
  addFreqNode np c = Ok c' ->
  frame c c' /\ freqs c' = freqs c /\ same_buckets (nhp c) (nhp c').
Proof.
  unfold addFreqNode. intros H.
  apply bind_Ok in H as (node & _ & H).
  destruct (freqs c !! (freq node - 1)) as [pp|].
  2:{ injection H as <-. split; [apply frame_refl|]. split; [done|].
      apply same_buckets_refl. }
  apply bind_Ok in H as (c1 & H1 & H).
  apply bind_Ok in H as (prevNode & _ & H).
  apply bind_Ok in H as (c2 & H2 & H).
  apply bind_Ok in H as (c3 & H3 & H).
  apply bind_Ok in H as (node3 & _ & H).
  apply modNode_links in H1 as (F1 & E1 & B1); [|done].
  apply modNode_links in H2 as (F2 & E2 & B2); [|done].
  apply modNode_links in H3 as (F3 & E3 & B3); [|done].
  assert (S4 : frame c3 c' /\ freqs c' = freqs c3 /\
               same_buckets (nhp c3) (nhp c')).
  { destruct (next node3) as [nn|].
    - by apply (modNode_links nn _ _ _ H).
    - injection H as <-. split; [apply frame_refl|]. split; [done|].
      apply same_buckets_refl. }
  destruct S4 as (F4 & E4 & B4).
  split; [|split].
  - eauto using frame_trans.
  - congruence.
  - eauto using same_buckets_trans.
Qed.


Lemma incrementFreq_unfold (ip : nat) (c : LFUCache) :
  incrementFreq ip c =
  (item <- load (ihp c) ip ;;
   c <- match fnode item with
        | Some np => detach (key item) np c
        | None => Ok c
        end ;;
   c <- modItem ip
          (fun it => mkItem (key it) (value it) (frequency it + 1)
                            (expiration it) (fnode it)) c ;;
   item <- load (ihp c) ip ;;
   c <- attach ip item c ;;
   finish ip c).
Proof. reflexivity. Qed.

Lemma size_zero_empty {A : Type} (m : gmap string A) :
  (Z.of_nat (size m) =? 0) = true <-> m = ∅.
Proof.
  rewrite Z.eqb_eq. rewrite <- map_size_empty_iff. lia.
Qed.

Lemma binv_key_unique (fl : option string) (c : LFUCache)
    (k k' : string) (ip : nat) :
  binv fl c -> items c !! k = Some ip -> items c !! k' = Some ip -> k = k'.
Proof.
  intros Hb H1 H2.
  destruct (bi_item _ _ Hb k ip H1) as (it & Hit & Hk & _).
  destruct (bi_item _ _ Hb k' ip H2) as (it' & Hit' & Hk' & _).
  congruence.
Qed.

(** [detach] on the bucket of an item of the table: the item floats, the
    rest stays consistent.  The table of items of the state [detach] runs
    on may be any [m]. *)
Lemma detach_binv (k : string) (ip np : nat) (it : lfuItem)
    (m : gmap string nat) (c c1 : LFUCache) :
  binv None c -> items c !! k = Some ip -> ihp c !! ip = Some it ->
  fnode it = Some np ->
  detach k np (set_items m c) = Ok c1 ->
  items c1 = m /\ capacity c1 = capacity c /\ minFreq c1 = minFreq c /\
  binv (Some k) (set_items (items c) c1) /\
  (forall f, f <> frequency it -> freqs c1 !! f = freqs c !! f) /\
  (freqs c1 !! frequency it = None \/ freqs c1 !! frequency it = Some np).
Proof.
  intros Hb Hk Hit Hfn Hd.
  destruct (bi_item _ _ Hb k ip Hk) as (it0 & Hit0 & Hkey & [?|Hmem]);
    [done|].
  assert (it0 = it) as -> by congruence.
  destruct Hmem as (np0 & nd & Hfn0 & Hreg & Hnd & Hin & Hf1).
  assert (np0 = np) as -> by congruence.
  pose proof (detach_step _ _ _ _ Hd) as Hstep.
  unfold detach in Hd.
  apply bind_Ok in Hd as (ca & Ha & Hd).
  apply bind_Ok in Hd as (node & Hnode & Hd). apply load_Ok in Hnode.
  apply modNode_Ok in Ha as (n0 & Hn0 & ->). simpl in *.
  assert (n0 = nd) as -> by congruence.
  rewrite lookup_insert_eq in Hnode. injection Hnode as <-. simpl in Hd.
  set (nd1 := set_nitems (delete k (nitems nd)) nd) in *.
  set (ca := set_nhp (<[np := nd1]> (nhp c)) (set_items m c)) in *.
  (* uniqueness: k is a member of no other registered bucket *)
  assert (Huniq : forall f np' nd', freqs c !! f = Some np' ->
            nhp c !! np' = Some nd' -> np' <> np -> nitems nd' !! k = None).
  { intros f np' nd' Hf Hnd' Hne.
    destruct (nitems nd' !! k) as [ip'|] eqn:Hm; [|done].
    destruct (bi_reg _ _ Hb f np' Hf) as (nd'' & Hnd'' & _ & _ & Hmem).
    assert (nd'' = nd') as -> by congruence.
    destruct (Hmem k ip' Hm) as (_ & Hi & it' & Hit' & Hfn').
    assert (ip' = ip) as -> by congruence.
    assert (it' = it) as -> by congruence. congruence. }
  assert (Hregf : forall f np', freqs c !! f = Some np' ->
            (np' = np <-> f = frequency it)).
  { intros f np' Hf. split.
    - intros ->. destruct (bi_reg _ _ Hb f np Hf) as (nd' & Hnd' & <- & _).
      destruct (bi_reg _ _ Hb _ np Hreg) as (nd'' & Hnd'' & <- & _).
      congruence.
    - intros ->. congruence. }
  change (size (delete k (nitems nd))) with (size (nitems nd1)) in Hd.
  destruct (Z.of_nat (size (nitems nd1)) =? 0) eqn:Hsz.
  - (* the bucket is empty and gets unlinked *)
    apply size_zero_empty in Hsz.
    destruct (removeFreqNode_links np nd1 ca c1 Hd) as (Hfr & Hfreqs & Hsb).
    { subst ca. simpl. by rewrite lookup_insert_eq. }
    destruct Hfr as [Fc Fi Fh Fm Ff]. subst ca. simpl in *.
    destruct (bi_reg _ _ Hb _ np Hreg) as (nd' & Hnd' & Hfreq & _).
    assert (nd' = nd) as -> by congruence.
    assert (Hfreqs' : freqs c1 = delete (frequency it) (freqs c)).
    { rewrite Hfreqs. unfold nd1. simpl. by rewrite Hfreq. }
    clear Hfreqs.
    split; [done|]. split; [done|]. split; [done|]. split; [|split].
    + constructor; simpl.
      * intros f np' Hf. rewrite Hfreqs' in Hf.
        apply lookup_delete_Some in Hf as [Hne Hf].
        assert (np' <> np) by (intros ->; apply Hne; symmetry; by apply (Hregf f np)).
        destruct (bi_reg _ _ Hb f np' Hf) as (nd' & Hnd'' & Hf' & Hne' & Hmem).
        destruct (same_buckets_lookup _ _ np' nd' Hsb)
          as (nd2 & Hnd2 & Hfr2 & Hni2); [by rewrite lookup_insert_ne|].
        exists nd2. split; [done|]. split; [congruence|].
        split; [congruence|]. intros k' ip' Hm. rewrite Hni2 in Hm.
        destruct (Hmem k' ip' Hm) as (_ & Hi & it' & Hit' & Hfn').
        split; [|split; [done|]].
        -- intros [= ->]. rewrite (Huniq f np' nd') in Hm; done.
        -- exists it'. by rewrite Fh.
      * intros k' ip' Hk'.
        destruct (bi_item _ _ Hb k' ip' Hk') as (it' & Hit' & Hkey' & [?|Hm]);
          [done|].
        exists it'. rewrite Fh. split; [done|]. split; [done|].
        destruct (decide (k' = k)) as [->|Hnek]; [by left|]. right.
        destruct Hm as (np' & nd' & Hfn' & Hreg' & Hnd'' & Hin' & Hge).
        assert (np' <> np).
        { intros ->. assert (nd' = nd) as -> by congruence.
          assert (delete k (nitems nd) !! k' = Some ip') as Hc
            by (by rewrite lookup_delete_ne).
          rewrite Hsz in Hc. by rewrite lookup_empty in Hc. }
        destruct (same_buckets_lookup _ _ np' nd' Hsb)
          as (nd2 & Hnd2 & Hfr2 & Hni2); [by rewrite lookup_insert_ne|].
        exists np', nd2. split; [done|]. split.
        { rewrite Hfreqs'. rewrite lookup_delete_ne; [done|].
          intros Heq. apply H. apply (Hregf _ np' Hreg'). done. }
        split; [done|]. split; [congruence|done].
      * apply (ns_ok _ _ Hstep). simpl. apply Hb.
      * intros a Ha. rewrite Fh in Ha. rewrite Ff. by apply (bi_ifresh _ _ Hb).
      * intros a [n Ha]. rewrite Ff.
        destruct (same_buckets_lookup_inv _ _ a n Hsb Ha) as (n' & Hn' & _).
        apply (bi_nfresh _ _ Hb).
        apply lookup_insert_Some in Hn' as [[<- _]|[_ Hn']]; eauto.
    + intros f Hne. rewrite Hfreqs'. by rewrite lookup_delete_ne.
    + left. rewrite Hfreqs'. apply lookup_delete_eq.
  - (* the bucket keeps other members *)
    injection Hd as <-. subst ca. simpl.
    assert (Hne1 : nitems nd1 <> ∅).
    { intros Hz. apply size_zero_empty in Hz. congruence. }
    split; [done|]. split; [done|]. split; [done|]. split; [|split].
    + constructor; simpl.
      * intros f np' Hf.
        destruct (bi_reg _ _ Hb f np' Hf) as (nd' & Hnd'' & Hf' & Hne' & Hmem).
        destruct (decide (np' = np)) as [->|Hnp].
        -- assert (nd' = nd) as -> by congruence.
           exists nd1. rewrite lookup_insert_eq. split; [done|].
           split; [done|]. split; [done|]. intros k' ip' Hm.
           unfold nd1 in Hm. simpl in Hm.
           apply lookup_delete_Some in Hm as [Hnek Hm].
           destruct (Hmem k' ip' Hm) as (_ & Hi & Hex).
           split; [congruence|]. by split.
        -- exists nd'. rewrite lookup_insert_ne by done. split; [done|].
           split; [done|]. split; [done|]. intros k' ip' Hm.
           destruct (Hmem k' ip' Hm) as (_ & Hi & Hex).
           split; [|by split].
           intros [= ->]. rewrite (Huniq f np' nd') in Hm; done.
      * intros k' ip' Hk'.
        destruct (bi_item _ _ Hb k' ip' Hk') as (it' & Hit' & Hkey' & [?|Hm]);
          [done|].
        exists it'. split; [done|]. split; [done|].
        destruct (decide (k' = k)) as [->|Hnek]; [by left|]. right.
        destruct Hm as (np' & nd' & Hfn' & Hreg' & Hnd'' & Hin' & Hge).
        destruct (decide (np' = np)) as [->|Hnp].
        -- assert (nd' = nd) as -> by congruence.
           exists np, nd1. rewrite lookup_insert_eq.
           repeat (split; [done|]). split; [|done].
           unfold nd1. simpl. by rewrite lookup_delete_ne.
        -- exists np', nd'. rewrite lookup_insert_ne by done. done.
      * apply (ns_ok _ _ Hstep). simpl. apply Hb.
      * apply Hb.
      * intros a Ha. apply (bi_nfresh _ _ Hb).
        apply lookup_insert_is_Some in Ha as [<-|[_ Ha]]; eauto.
    + done.
    + right. done.
Qed.


(** The state in which the floating item has been made a member of the
    bucket [np] of its frequency: the buckets and the table agree again. *)
Lemma binv_attached (k : string) (ip np : nat) (it : lfuItem)
    (base : gmap string nat) (c c' : LFUCache) :
  binv (Some k) c -> items c !! k = Some ip -> ihp c !! ip = Some it ->
  1 <= frequency it ->
  (freqs c !! frequency it = Some np /\
     exists nd, nhp c !! np = Some nd /\ nitems nd = base) \/
  (freqs c !! frequency it = None /\ nhp c !! np = None /\ base = ∅) ->
  items c' = items c ->
  ihp c' = <[ip := mkItem (key it) (value it) (frequency it)
                          (expiration it) (Some np)]> (ihp c) ->
  freqs c' = <[frequency it := np]> (freqs c) ->
  (exists nd', nhp c' !! np = Some nd' /\ freq nd' = frequency it /\
               nitems nd' = <[k := ip]> base) ->
  (forall a nd, a <> np -> nhp c !! a = Some nd ->
     exists nd', nhp c' !! a = Some nd' /\ freq nd' = freq nd /\
                 nitems nd' = nitems nd) ->
  nodes_ok (nhp c') (freqs c') ->
  (forall a, is_Some (ihp c' !! a) -> (a < fresh c')%nat) ->
  (forall a, is_Some (nhp c' !! a) -> (a < fresh c')%nat) ->
  binv None c'.
Proof.
  intros Hb Hk Hit Hge Hbase Hitems Hihp Hfreqs (ndp & Hndp & Hfp & Hnp)
    Hother Hok Hif Hnf.
  destruct (bi_item _ _ Hb k ip Hk) as (it0 & Hit0 & Hkey & _).
  assert (it0 = it) as -> by congruence.
  (* another key of the table is another item *)
  assert (Hneq : forall k' ip', k' <> k -> items c !! k' = Some ip' -> ip <> ip').
  { intros k' ip' Hne Hk' <-. apply Hne.
    by apply (binv_key_unique (Some k) c k' k ip). }
  (* a registered bucket other than [np] is as before *)
  assert (Hreg' : forall f np', f <> frequency it -> freqs c !! f = Some np' ->
            np' <> np).
  { intros f np' Hne Hf ->.
    destruct (bi_reg _ _ Hb f np Hf) as (nd & Hnd & Hfr & _).
    destruct Hbase as [(Hr & _)|(_ & Hnone & _)]; [|congruence].
    destruct (bi_reg _ _ Hb _ np Hr) as (nd' & Hnd' & Hfr' & _). congruence. }
  (* the old members of [np] *)
  assert (Hbase' : forall k' ip', base !! k' = Some ip' ->
            k' <> k /\ items c !! k' = Some ip' /\
            exists it', ihp c !! ip' = Some it' /\ fnode it' = Some np).
  { intros k' ip' Hm.
    destruct Hbase as [(Hr & nd & Hnd & <-)|(_ & _ & ->)];
      [|by rewrite lookup_empty in Hm].
    destruct (bi_reg _ _ Hb _ np Hr) as (nd' & Hnd' & _ & _ & Hmem).
    assert (nd' = nd) as -> by congruence.
    destruct (Hmem k' ip' Hm) as (Hfl & Hi & Hex). split; [congruence|done]. }
  constructor.
  - intros f np' Hf. rewrite Hfreqs in Hf.
    apply lookup_insert_Some in Hf as [[<- <-]|[Hne Hf]].
    + exists ndp. split; [done|]. split; [done|].
      split; [rewrite Hnp; apply insert_non_empty|].
      intros k' ip' Hm. rewrite Hnp in Hm.
      apply lookup_insert_Some in Hm as [[<- <-]|[Hnek Hm]].
      * split; [done|]. rewrite Hitems, Hihp, lookup_insert_eq. eauto.
      * destruct (Hbase' k' ip' Hm) as (_ & Hi & it' & Hit' & Hfn').
        split; [done|]. rewrite Hitems, Hihp. split; [done|].
        rewrite lookup_insert_ne by (apply (Hneq k'); [congruence|done]). eauto.
    + pose proof (Hreg' f np' ltac:(congruence) Hf) as Hnp'.
      destruct (bi_reg _ _ Hb f np' Hf) as (nd & Hnd & Hfr & Hne' & Hmem).
      destruct (Hother np' nd Hnp' Hnd) as (nd' & Hnd' & Hfr' & Hni').
      exists nd'. split; [done|]. split; [congruence|]. split; [congruence|].
      intros k' ip' Hm. rewrite Hni' in Hm.
      destruct (Hmem k' ip' Hm) as (Hfl & Hi & it' & Hit' & Hfn').
      split; [done|]. rewrite Hitems, Hihp. split; [done|].
      rewrite lookup_insert_ne; [eauto|].
      apply (Hneq k'); [congruence|done].
  - intros k' ip' Hk'. rewrite Hitems in Hk'. rewrite Hihp.
    destruct (decide (k' = k)) as [->|Hnek].
    + assert (ip' = ip) as -> by congruence. rewrite lookup_insert_eq.
      eexists. split; [done|]. split; [done|]. right. simpl.
      exists np, ndp. split; [done|]. rewrite Hfreqs, lookup_insert_eq.
      split; [done|]. split; [done|]. rewrite Hnp, lookup_insert_eq. done.
    + destruct (bi_item _ _ Hb k' ip' Hk') as (it' & Hit' & Hkey' & [?|Hm]);
        [congruence|].
      rewrite lookup_insert_ne by (apply (Hneq k'); [congruence|done]).
      exists it'. split; [done|]. split; [done|]. right.
      destruct Hm as (np' & nd & Hfn' & Hr' & Hnd & Hin & Hge').
      destruct (decide (np' = np)) as [->|Hnp'].
      * exists np, ndp. split; [done|].
        assert (frequency it' = frequency it) as Heq.
        { destruct (decide (frequency it' = frequency it)); [done|].
          by destruct (Hreg' _ np n Hr'). }
        rewrite Hfreqs, Heq, lookup_insert_eq. split; [done|].
        split; [done|]. split; [|done]. rewrite Hnp.
        rewrite lookup_insert_ne by done.
        destruct Hbase as [(_ & nd0 & Hnd0 & <-)|(_ & Hnone & _)];
          congruence.
      * destruct (Hother np' nd Hnp' Hnd) as (nd' & Hnd' & Hfr' & Hni').
        exists np', nd'. split; [done|]. split.
        { rewrite Hfreqs. rewrite lookup_insert_ne; [done|].
          intros Heq. rewrite <- Heq in Hr'.
          destruct Hbase as [(Hr & _)|(Hr & _)]; congruence. }
        split; [done|]. split; [congruence|done].
  - done.
  - done.
  - done.
Qed.

Lemma attach_binv (k : string) (ip : nat) (it : lfuItem) (c c' : LFUCache) :
  binv (Some k) c -> items c !! k = Some ip -> ihp c !! ip = Some it ->
  1 <= frequency it ->
  attach ip it c = Ok c' ->
  binv None c' /\ items c' = items c /\ capacity c' = capacity c /\
  minFreq c' = minFreq c /\
  is_Some (freqs c' !! frequency it) /\
  (forall f, f <> frequency it -> freqs c' !! f = freqs c !! f) /\
  (exists it', ihp c' !! ip = Some it' /\ frequency it' = frequency it).
Proof.
  intros Hb Hk Hit Hge Ha.
  destruct (bi_item _ _ Hb k ip Hk) as (it0 & Hit0 & Hkey & _).
  assert (it0 = it) as -> by congruence.
  unfold attach in Ha. cbv zeta in Ha.
  destruct (freqs c !! frequency it) as [np|] eqn:Hreg.
  - apply bind_Ok in Ha as (ca & Hca & Ha).
    pose proof (modNode_nitems_step _ _ _ _ Hca) as Hstep.
    apply modNode_Ok in Hca as (nd & Hnd & ->).
    apply modItem_Ok in Ha as (it1 & Hit1 & ->). simpl in *.
    assert (it1 = it) as -> by congruence. rewrite Hkey.
    assert (Hbinv : binv None
      (set_ihp (<[ip := mkItem k (value it) (frequency it) (expiration it)
                               (Some np)]> (ihp c))
         (set_nhp (<[np := set_nitems (<[k := ip]> (nitems nd)) nd]> (nhp c)) c))).
    { apply (binv_attached k ip np it (nitems nd) c); simpl; try done.
      - left. eauto.
      - by rewrite Hkey.
      - by rewrite insert_id.
      - eexists. rewrite lookup_insert_eq. split; [done|]. simpl.
        destruct (bi_reg _ _ Hb _ np Hreg) as (nd' & Hnd' & Hfr & _).
        split; [congruence|done].
      - intros a nd' Hne Ha. exists nd'. by rewrite lookup_insert_ne.
      - rewrite Hkey in Hstep. apply (ns_ok _ _ Hstep). apply Hb.
      - intros a Ha. apply (bi_ifresh _ _ Hb).
        apply lookup_insert_is_Some in Ha as [<-|[_ Ha]]; eauto.
      - intros a Ha. apply (bi_nfresh _ _ Hb).
        apply lookup_insert_is_Some in Ha as [<-|[_ Ha]]; eauto. }
    split; [done|]. split; [done|]. split; [done|]. split; [done|]. simpl.
    split; [by eexists|]. split; [done|].
    eexists. rewrite lookup_insert_eq. done.
  - apply bind_Ok in Ha as (c1 & H1 & Ha).
    apply bind_Ok in Ha as (c2 & H2 & Ha).
    set (np := fresh c) in *.
    set (c0 := set_freqs _ _) in H1.
    pose proof (addFreqNode_step _ _ _ H1) as Hstep1.
    destruct (addFreqNode_links _ _ _ H1) as (Hfr1 & Hfreqs1 & Hsb1).
    pose proof (modNode_nitems_step _ _ _ _ H2) as Hstep2.
    apply modNode_Ok in H2 as (nd1 & Hnd1 & ->).
    apply modItem_Ok in Ha as (it1 & Hit1 & ->). simpl in *.
    destruct Hfr1 as [Fc Fi Fh Fm Ff]. subst c0. simpl in *.
    rewrite Fh in Hit1. assert (it1 = it) as -> by congruence. rewrite Hkey.
    assert (Hnone : nhp c !! np = None).
    { destruct (nhp c !! np) eqn:Hn; [|done].
      assert (np < fresh c)%nat by (apply (bi_nfresh _ _ Hb); eauto).
      unfold np in *. lia. }
    destruct (same_buckets_lookup_inv _ _ np nd1 Hsb1 Hnd1)
      as (nd0 & Hnd0 & Hfr0 & Hni0).
    rewrite lookup_insert_eq in Hnd0. injection Hnd0 as <-. simpl in *.
    assert (Hbinv : binv None
      (set_ihp (<[ip := mkItem k (value it) (frequency it) (expiration it)
                               (Some np)]> (ihp c1))
         (set_nhp (<[np := set_nitems (<[k := ip]> (nitems nd1)) nd1]> (nhp c1))
            c1))).
    { apply (binv_attached k ip np it ∅ c); simpl; try done.
      - right. done.
      - by rewrite Hkey, Fh.
      - eexists. rewrite lookup_insert_eq. split; [done|]. simpl.
        split; [done|]. by rewrite Hni0.
      - intros a nd' Hne Ha. rewrite lookup_insert_ne by done.
        apply (same_buckets_lookup _ _ a nd' Hsb1).
        by rewrite lookup_insert_ne.
      - rewrite Hkey in Hstep2. apply (ns_ok _ _ Hstep2).
        apply (ns_ok _ _ Hstep1). simpl.
        apply nodes_ok_register; [|by rewrite lookup_insert_eq].
        apply nodes_ok_insert; simpl; try done. apply Hb.
      - intros a Ha. rewrite Ff.
        apply lookup_insert_is_Some in Ha as [<-|[_ Ha]].
        + assert (ip < fresh c)%nat by (apply (bi_ifresh _ _ Hb); eauto). lia.
        + rewrite Fh in Ha. apply (bi_ifresh _ _ Hb) in Ha. lia.
      - intros a Ha. rewrite Ff.
        apply lookup_insert_is_Some in Ha as [<-|[_ [n Ha]]]; [unfold np; lia|].
        destruct (same_buckets_lookup_inv _ _ a n Hsb1 Ha) as (n' & Hn' & _).
        apply lookup_insert_Some in Hn' as [[<- _]|[_ Hn']]; [unfold np; lia|].
        assert (a < fresh c)%nat by (apply (bi_nfresh _ _ Hb); eauto). lia. }
    split; [done|]. split; [done|]. split; [done|]. split; [done|]. simpl.
    rewrite Hfreqs1. split; [by rewrite lookup_insert_eq|].
    split; [intros f Hne; by rewrite lookup_insert_ne|].
    eexists. rewrite lookup_insert_eq. done.
Qed.


Lemma set_items_id (m : gmap string nat) (c : LFUCache) :
  items c = m -> set_items m c = c.
Proof. intros <-. by destruct c. Qed.

Lemma binv_set_minFreq (fl : option string) (m : Z) (c : LFUCache) :
  binv fl c -> binv fl (set_minFreq m c).
Proof. intros []. by constructor. Qed.

(** Forgetting the floating item. *)
Lemma binv_drop (k : string) (c : LFUCache) :
  binv (Some k) c -> binv None (set_items (delete k (items c)) c).
Proof.
  intros Hb. constructor; simpl; try apply Hb.
  - intros f np Hf.
    destruct (bi_reg _ _ Hb f np Hf) as (nd & Hnd & Hfr & Hne & Hmem).
    exists nd. split; [done|]. split; [done|]. split; [done|].
    intros k' ip' Hm. destruct (Hmem k' ip' Hm) as (Hfl & Hi & Hex).
    split; [done|]. split; [|done].
    rewrite lookup_delete_ne; [done|]. congruence.
  - intros k' ip' Hk'. apply lookup_delete_Some in Hk' as [Hne Hk'].
    destruct (bi_item _ _ Hb k' ip' Hk') as (it & Hit & Hkey & [?|Hm]);
      [congruence|].
    exists it. split; [done|]. split; [done|]. by right.
Qed.

(** Assigning fields of the floating item other than its key. *)
Lemma modItem_float (k : string) (ip : nat) (f : lfuItem -> lfuItem)
    (c c' : LFUCache) :
  binv (Some k) c -> items c !! k = Some ip ->
  (forall it, key (f it) = key it) ->
  modItem ip f c = Ok c' ->
  binv (Some k) c' /\ items c' = items c /\ freqs c' = freqs c /\
  capacity c' = capacity c /\ minFreq c' = minFreq c /\
  exists it, ihp c !! ip = Some it /\ ihp c' !! ip = Some (f it).
Proof.
  intros Hb Hk Hf H. apply modItem_Ok in H as (it & Hit & ->). simpl.
  split; [|repeat (split; [done|]); exists it; by rewrite lookup_insert_eq].
  assert (Hneq : forall k' ip', k' <> k -> items c !! k' = Some ip' -> ip <> ip').
  { intros k' ip' Hne Hk' <-. apply Hne.
    by apply (binv_key_unique (Some k) c k' k ip). }
  constructor; simpl; try apply Hb.
  - intros g np Hg.
    destruct (bi_reg _ _ Hb g np Hg) as (nd & Hnd & Hfr & Hne & Hmem).
    exists nd. split; [done|]. split; [done|]. split; [done|].
    intros k' ip' Hm. destruct (Hmem k' ip' Hm) as (Hfl & Hi & Hex).
    split; [done|]. split; [done|].
    rewrite lookup_insert_ne; [done|]. apply (Hneq k'); [congruence|done].
  - intros k' ip' Hk'.
    destruct (bi_item _ _ Hb k' ip' Hk') as (it' & Hit' & Hkey & Hm).
    destruct (decide (k' = k)) as [->|Hne].
    + assert (ip' = ip) as -> by congruence.
      assert (it' = it) as -> by congruence.
      exists (f it). rewrite lookup_insert_eq. split; [done|].
      split; [by rewrite Hf|by left].
    + exists it'. rewrite lookup_insert_ne by (by apply (Hneq k')).
      split; [done|]. split; [done|].
      destruct Hm as [?|Hm]; [congruence|by right].
  - intros a Ha. apply (bi_ifresh _ _ Hb).
    apply lookup_insert_is_Some in Ha as [<-|[_ Ha]]; eauto.
Qed.

(** [incrementFreq] on an item of the table. *)
Lemma incrementFreq_binv (k : string) (ip : nat) (c c' : LFUCache) :
  binv None c -> items c !! k = Some ip ->
  incrementFreq ip c = Ok c' ->
  binv None c' /\ items c' = items c /\ capacity c' = capacity c /\
  (is_Some (freqs c !! minFreq c) -> is_Some (freqs c' !! minFreq c')).
Proof.
  intros Hb Hk H. rewrite incrementFreq_unfold in H.
  apply bind_Ok in H as (it & Hit & H). apply load_Ok in Hit.
  destruct (bi_item _ _ Hb k ip Hk) as (it0 & Hit0 & Hkey & [?|Hm]); [done|].
  assert (it0 = it) as -> by congruence.
  destruct Hm as (np & nd & Hfn & Hreg & Hnd & Hin & Hge).
  rewrite Hfn, Hkey in H.
  apply bind_Ok in H as (c1 & H1 & H).
  rewrite <- (set_items_id (items c) c eq_refl) in H1 at 1.
  destruct (detach_binv k ip np it (items c) c c1 Hb Hk Hit Hfn H1)
    as (Hi1 & Hc1 & Hm1 & Hb1 & Hf1 & Hf1').
  rewrite (set_items_id _ c1 Hi1) in Hb1.
  apply bind_Ok in H as (c2 & H2 & H).
  assert (Hk1 : items c1 !! k = Some ip) by congruence.
  match type of H2 with
  | modItem _ ?f _ = _ =>
      destruct (modItem_float k ip f c1 c2 Hb1 Hk1 ltac:(done) H2)
        as (Hb2 & Hi2 & Hfr2 & Hc2 & Hm2 & it1 & Hit1 & Hit2)
  end.
  assert (it1 = it) as -> by (destruct (detach_step _ _ _ _ H1); simpl in *; congruence).
  apply bind_Ok in H as (it2 & Hload & H). apply load_Ok in Hload.
  rewrite Hit2 in Hload. injection Hload as <-.
  apply bind_Ok in H as (c4 & H4 & H).
  destruct (attach_binv k ip _ c2 c4 Hb2 ltac:(congruence) Hit2
              ltac:(simpl; lia) H4)
    as (Hb4 & Hi4 & Hc4 & Hm4 & Hs4 & Hf4 & it4 & Hit4 & Hfreq4).
  simpl in *.
  unfold finish in H. apply bind_Ok in H as (it5 & Hit5 & H).
  apply load_Ok in Hit5. assert (it5 = it4) as -> by congruence.
  rewrite Hfreq4 in H.
  destruct (frequency it + 1 =? 1) eqn:E1; [apply Z.eqb_eq in E1; lia|].
  assert (Hkeep : minFreq c <> frequency it ->
            is_Some (freqs c !! minFreq c) -> is_Some (freqs c4 !! minFreq c)).
  { intros Hne Hs.
    destruct (decide (minFreq c = frequency it + 1)) as [->|Hne']; [done|].
    rewrite Hf4, Hfr2, Hf1 by done. done. }
  destruct (frequency it + 1 - 1 =? minFreq c4) eqn:E2.
  - apply Z.eqb_eq in E2.
    apply bind_Ok in H as (node & Hnode & H).
    assert (Hs : is_Some (freqs c4 !! minFreq c4)).
    { unfold deref in Hnode. destruct (freqs c4 !! minFreq c4); [eauto|done]. }
    destruct (Z.of_nat (size (nitems node)) =? 0); injection H as <-; simpl.
    + split; [by apply binv_set_minFreq|]. split; [congruence|].
      split; [congruence|]. intros _.
      replace (minFreq c4 + 1) with (frequency it + 1) by lia. done.
    + split; [done|]. split; [congruence|]. split; [congruence|]. done.
  - apply Z.eqb_neq in E2. injection H as <-.
    split; [done|]. split; [congruence|]. split; [congruence|].
    intros Hs. rewrite Hm4, Hm2, Hm1. apply Hkeep; [|done].
    rewrite Hm4, Hm2, Hm1 in E2. lia.
Qed.

(** [incrementFreq] on an item that was just added to the table. *)
Lemma incrementFreq_new (k : string) (ip : nat) (it : lfuItem)
    (c c' : LFUCache) :
  binv (Some k) c -> items c !! k = Some ip -> ihp c !! ip = Some it ->
  fnode it = None -> frequency it = 0 ->
  incrementFreq ip c = Ok c' ->
  binv None c' /\ items c' = items c /\ capacity c' = capacity c /\
  is_Some (freqs c' !! minFreq c').
Proof.
  intros Hb Hk Hit Hfn Hfreq H. rewrite incrementFreq_unfold in H.
  apply bind_Ok in H as (it0 & Hit0 & H). apply load_Ok in Hit0.
  assert (it0 = it) as -> by congruence. rewrite Hfn in H.
  simpl in H.
  apply bind_Ok in H as (c2 & H2 & H).
  match type of H2 with
  | modItem _ ?f _ = _ =>
      destruct (modItem_float k ip f c c2 Hb Hk ltac:(done) H2)
        as (Hb2 & Hi2 & Hfr2 & Hc2 & Hm2 & it1 & Hit1 & Hit2)
  end.
  assert (it1 = it) as -> by congruence.
  apply bind_Ok in H as (it2 & Hload & H). apply load_Ok in Hload.
  rewrite Hit2 in Hload. injection Hload as <-.
  apply bind_Ok in H as (c4 & H4 & H).
  destruct (attach_binv k ip _ c2 c4 Hb2 ltac:(congruence) Hit2
              ltac:(simpl; lia) H4)
    as (Hb4 & Hi4 & Hc4 & Hm4 & Hs4 & Hf4 & it4 & Hit4 & Hfreq4).
  simpl in *.
  unfold finish in H. apply bind_Ok in H as (it5 & Hit5 & H).
  apply load_Ok in Hit5. assert (it5 = it4) as -> by congruence.
  rewrite Hfreq4, Hfreq in H. simpl in H. injection H as <-. simpl.
  split; [by apply binv_set_minFreq|]. split; [congruence|].
  split; [congruence|]. by rewrite Hfreq in Hs4.
Qed.

Lemma remove_binv (k : string) (ip : nat) (c c' : LFUCache) :
  binv None c -> items c !! k = Some ip -> remove ip c = Ok c' ->
  binv None c' /\ items c' = delete k (items c) /\ capacity c' = capacity c.
Proof.
  intros Hb Hk H. rewrite remove_unfold in H.
  apply bind_Ok in H as (it & Hit & H). apply load_Ok in Hit.
  destruct (bi_item _ _ Hb k ip Hk) as (it0 & Hit0 & Hkey & [?|Hm]); [done|].
  assert (it0 = it) as -> by congruence.
  destruct Hm as (np & nd & Hfn & _). rewrite Hfn, Hkey in H.
  destruct (detach_binv k ip np it _ c c' Hb Hk Hit Hfn H)
    as (Hi1 & Hc1 & _ & Hb1 & _).
  apply binv_drop in Hb1. simpl in Hb1.
  replace (set_items (delete k (items c)) (set_items (items c) c'))
    with c' in Hb1 by (rewrite <- Hi1; by destruct c').
  done.
Qed.


(** Assigning the value and the expiration of an item of the table. *)
Lemma modItem_binv (k : string) (ip : nat) (f : lfuItem -> lfuItem)
    (c c' : LFUCache) :
  binv None c -> items c !! k = Some ip ->
  (forall it, key (f it) = key it /\ frequency (f it) = frequency it /\
              fnode (f it) = fnode it) ->
  modItem ip f c = Ok c' ->
  binv None c' /\ items c' = items c /\ freqs c' = freqs c /\
  capacity c' = capacity c /\ minFreq c' = minFreq c.
Proof.
  intros Hb Hk Hf H. apply modItem_Ok in H as (it & Hit & ->). simpl.
  split; [|done].
  constructor; simpl; try apply Hb.
  - intros g np Hg.
    destruct (bi_reg _ _ Hb g np Hg) as (nd & Hnd & Hfr & Hne & Hmem).
    exists nd. split; [done|]. split; [done|]. split; [done|].
    intros k' ip' Hm. destruct (Hmem k' ip' Hm) as (Hfl & Hi & it' & Hit' & Hfn').
    split; [done|]. split; [done|].
    destruct (decide (ip = ip')) as [<-|Hne'].
    + rewrite lookup_insert_eq. eexists. split; [done|].
      destruct (Hf it) as (_ & _ & ->). congruence.
    + rewrite lookup_insert_ne by done. eauto.
  - intros k' ip' Hk'.
    destruct (bi_item _ _ Hb k' ip' Hk') as (it' & Hit' & Hkey & [?|Hm]);
      [done|].
    destruct (decide (ip = ip')) as [<-|Hne'].
    + assert (it' = it) as -> by congruence.
      rewrite lookup_insert_eq. eexists. split; [done|].
      destruct (Hf it) as (-> & -> & ->). split; [done|]. by right.
    + rewrite lookup_insert_ne by done. exists it'.
      split; [done|]. split; [done|]. by right.
  - intros a Ha. apply (bi_ifresh _ _ Hb).
    apply lookup_insert_is_Some in Ha as [<-|[_ Ha]]; eauto.
Qed.

(** The state [Set] builds for a new key, before [incrementFreq]. *)
Lemma binv_new_item (k : string) (v : any) (e : Z) (c : LFUCache) :
  binv None c -> items c !! k = None ->
  binv (Some k)
    (set_items (<[k := fresh c]> (items c))
       (set_fresh (S (fresh c))
          (set_ihp (<[fresh c := mkItem k v 0 e None]> (ihp c)) c))).
Proof.
  intros Hb Hk. constructor; simpl; try apply Hb.
  - intros g np Hg.
    destruct (bi_reg _ _ Hb g np Hg) as (nd & Hnd & Hfr & Hne & Hmem).
    exists nd. split; [done|]. split; [done|]. split; [done|].
    intros k' ip' Hm. destruct (Hmem k' ip' Hm) as (Hfl & Hi & it' & Hit' & Hfn').
    assert (k' <> k) by congruence.
    assert (ip' < fresh c)%nat by (apply (bi_ifresh _ _ Hb); eauto).
    split; [congruence|]. rewrite !lookup_insert_ne by (done || lia). eauto.
  - intros k' ip' Hk'.
    apply lookup_insert_Some in Hk' as [[<- <-]|[Hne Hk']].
    + rewrite lookup_insert_eq. eexists. split; [done|]. split; [done|].
      by left.
    + destruct (bi_item _ _ Hb k' ip' Hk') as (it' & Hit' & Hkey & [?|Hm]);
        [done|].
      assert (ip' < fresh c)%nat by (apply (bi_ifresh _ _ Hb); eauto).
      rewrite lookup_insert_ne by lia. exists it'.
      split; [done|]. split; [done|]. by right.
  - intros a Ha. apply lookup_insert_is_Some in Ha as [<-|[_ Ha]]; [lia|].
    apply (bi_ifresh _ _ Hb) in Ha. lia.
  - intros a Ha. apply (bi_nfresh _ _ Hb) in Ha. lia.
Qed.

Lemma range_first_member (pick : nat) (m : gmap string nat) (ip : nat) :
  range_first pick m = Some ip -> exists k, m !! k = Some ip.
Proof.
  unfold range_first. intros H.
  destruct (map_to_list m !! (pick mod length (map_to_list m))%nat)
    as [[k ip']|] eqn:Hl; [|done].
  injection H as <-. exists k. apply elem_of_map_to_list.
  by apply list_elem_of_lookup_2 in Hl.
Qed.

Lemma range_first_nonempty (pick : nat) (m : gmap string nat) :
  m <> ∅ -> is_Some (range_first pick m).
Proof.
  intros Hne. unfold range_first.
  assert (Hlen : length (map_to_list m) <> 0%nat).
  { rewrite length_map_to_list. by apply map_size_non_empty_iff. }
  destruct (lookup_lt_is_Some_2 (map_to_list m)
              (pick mod length (map_to_list m))%nat) as [x Hx].
  { by apply Nat.mod_upper_bound. }
  rewrite Hx. by eexists.
Qed.

(** [evict] on a cache whose [minFreq] bucket is registered removes one
    item. *)
Lemma evict_binv (pick : nat) (c c' : LFUCache) :
  binv None c -> is_Some (freqs c !! minFreq c) -> evict pick c = Ok c' ->
  binv None c' /\ capacity c' = capacity c /\
  S (size (items c')) = size (items c) /\
  (forall k, items c !! k = None -> items c' !! k = None).
Proof.
  intros Hb [np Hnp] H. unfold evict in H. rewrite Hnp in H.
  destruct (bi_reg _ _ Hb _ np Hnp) as (nd & Hnd & _ & Hne & Hmem).
  unfold load, deref in H. rewrite Hnd in H. simpl in H.
  destruct (range_first_nonempty pick (nitems nd) Hne) as [ip Hip].
  rewrite Hip in H.
  destruct (range_first_member _ _ _ Hip) as [k Hk].
  destruct (Hmem k ip Hk) as (_ & Hi & _).
  destruct (remove_binv k ip c c' Hb Hi H) as (Hb' & Hitems & Hcap).
  split; [done|]. split; [done|]. rewrite Hitems. split.
  - rewrite map_size_delete_Some by eauto.
    assert (size (items c) <> 0%nat).
    { apply map_size_non_empty_iff. intros Hz. rewrite Hz in Hi.
      by rewrite lookup_empty in Hi. }
    lia.
  - intros k' Hk'. apply lookup_delete_None. by right.
Qed.

Lemma cinv_New (cap : Z) : 1 <= cap -> cinv cap (NewLFUCache cap).
Proof.
  intros Hcap. split; [|split; [done|]]; simpl.
  - constructor; simpl.
    + intros f np H. by rewrite lookup_empty in H.
    + intros k ip H. by rewrite lookup_empty in H.
    + split; intros ? ? H; by rewrite lookup_empty in H.
    + intros a [? H]. by rewrite lookup_empty in H.
    + intros a [? H]. by rewrite lookup_empty in H.
  - rewrite map_size_empty. split; lia.
Qed.

Lemma Set_cinv (cap : Z) (now : Z) (k : string) (v : any) (ttl : Z)
    (pick : nat) (c c' : LFUCache) (r : error) :
  1 <= cap -> cinv cap c -> Set_ now k v ttl pick c = Ok (c', r) ->
  cinv cap c'.
Proof.
  intros Hcap (Hb & Hc & Hsz & Hfull) H. unfold Set_ in H.
  destruct (items c !! k) as [ip|] eqn:Hk.
  - apply bind_Ok in H as (c2 & H2 & H).
    apply bind_Ok in H as (c3 & H3 & H). injection H as <- _.
    match type of H2 with
    | modItem _ ?f _ = _ =>
        destruct (modItem_binv k ip f c c2 Hb Hk ltac:(done) H2)
          as (Hb2 & Hi2 & Hf2 & Hc2 & Hm2)
    end.
    destruct (incrementFreq_binv k ip c2 c3 Hb2 ltac:(congruence) H3)
      as (Hb3 & Hi3 & Hc3 & Hkeep).
    split; [done|]. split; [congruence|]. rewrite Hi3, Hi2.
    split; [done|]. intros Heq. apply Hkeep. rewrite Hf2, Hm2. auto.
  - apply bind_Ok in H as (c1 & H1 & H).
    apply bind_Ok in H as (c3 & H3 & H). injection H as <- _.
    assert (Hc1 : binv None c1 /\ capacity c1 = cap /\
                  Z.of_nat (size (items c1)) < cap /\ items c1 !! k = None).
    { destruct (Z.of_nat (size (items c)) >=? capacity c) eqn:Hge.
      - assert (Z.of_nat (size (items c)) = cap) as Heq by lia.
        destruct (evict_binv pick c c1 Hb (Hfull Heq) H1)
          as (Hb1 & Hcap1 & Hsz1 & Hnone).
        split; [done|]. split; [congruence|]. split; [lia|auto].
      - injection H1 as <-. split; [done|]. split; [done|]. split; [lia|done]. }
    destruct Hc1 as (Hb1 & Hcap1 & Hsz1 & Hk1).
    pose proof (binv_new_item k v (if 0 <? ttl then now + ttl else 0) c1 Hb1 Hk1)
      as Hbn.
    destruct (incrementFreq_new k (fresh c1)
                (mkItem k v 0 (if 0 <? ttl then now + ttl else 0) None)
                _ c3 Hbn) as (Hb3 & Hi3 & Hc3 & Hs3);
      [simpl; by rewrite lookup_insert_eq | simpl; by rewrite lookup_insert_eq
      | done | done | exact H3 |].
    split; [done|]. split; [simpl in Hc3; congruence|].
    rewrite Hi3. simpl. rewrite map_size_insert_None by done.
    split; [lia|done].
Qed.

Lemma Get_cinv (cap : Z) (now : Z) (k : string) (c c' : LFUCache)
    (r : any * bool) :
  1 <= cap -> cinv cap c -> Get now k c = Ok (c', r) -> cinv cap c'.
Proof.
  intros Hcap (Hb & Hc & Hsz & Hfull) H. unfold Get in H.
  destruct (items c !! k) as [ip|] eqn:Hk;
    [|injection H as <- _; split; [done|]; split; [done|]; by split].
  apply bind_Ok in H as (it & Hit & H).
  destruct ((0 <? expiration it) && (expiration it <? now)).
  - apply bind_Ok in H as (c1 & H1 & H). injection H as <- _.
    destruct (remove_binv k ip c c1 Hb Hk H1) as (Hb1 & Hi1 & Hc1).
    split; [done|]. split; [congruence|]. rewrite Hi1.
    rewrite map_size_delete_Some by eauto.
    assert (size (items c) <> 0%nat).
    { apply map_size_non_empty_iff. intros Hz. rewrite Hz in Hk.
      by rewrite lookup_empty in Hk. }
    split; lia.
  - apply bind_Ok in H as (c1 & H1 & H).
    apply bind_Ok in H as (it1 & _ & H). injection H as <- _.
    destruct (incrementFreq_binv k ip c c1 Hb Hk H1)
      as (Hb1 & Hi1 & Hc1 & Hkeep).
    split; [done|]. split; [congruence|]. rewrite Hi1. split; [done|]. auto.
Qed.

Lemma Delete_cinv (cap : Z) (k : string) (c c' : LFUCache) (r : error) :
  1 <= cap -> cinv cap c -> Delete k c = Ok (c', r) -> cinv cap c'.
Proof.
  intros Hcap (Hb & Hc & Hsz & Hfull) H. unfold Delete in H.
  destruct (items c !! k) as [ip|] eqn:Hk;
    [|injection H as <- _; split; [done|]; split; [done|]; by split].
  apply bind_Ok in H as (c1 & H1 & H). injection H as <- _.
  destruct (remove_binv k ip c c1 Hb Hk H1) as (Hb1 & Hi1 & Hc1).
  split; [done|]. split; [congruence|]. rewrite Hi1.
  rewrite map_size_delete_Some by eauto.
  assert (size (items c) <> 0%nat).
  { apply map_size_non_empty_iff. intros Hz. rewrite Hz in Hk.
    by rewrite lookup_empty in Hk. }
  split; lia.
Qed.

Lemma Flush_cinv (cap : Z) (c c' : LFUCache) (r : error) :
  1 <= cap -> cinv cap c -> Flush c = Ok (c', r) -> cinv cap c'.
Proof.
  intros Hcap (Hb & Hc & Hsz & Hfull) H. injection H as <- _.
  split; [|split; [done|]]; simpl.
  - constructor; simpl.
    + intros f np H. by rewrite lookup_empty in H.
    + intros k ip H. by rewrite lookup_empty in H.
    + split; [apply Hb|]. intros ? ? H. by rewrite lookup_empty in H.
    + apply Hb.
    + apply Hb.
  - rewrite map_size_empty. split; lia.
Qed.

Lemma step_cinv (cap : Z) (c c' : LFUCache) (o : op) :
  1 <= cap -> cinv cap c -> step c o = Ok c' -> cinv cap c'.
Proof.
  intros Hcap Hinv H. destruct o as [now k v ttl pick|now k|k|];
    apply bind_Ok in H as ([c1 r] & H & Hc'); injection Hc' as <-.
  - by apply (Set_cinv cap now k v ttl pick c c1 r).
  - by apply (Get_cinv cap now k c c1 r).
  - by apply (Delete_cinv cap k c c1 r).
  - by apply (Flush_cinv cap c c1 r).
Qed.

Lemma run_cinv (cap : Z) (ops : list op) (c c' : LFUCache) :
  1 <= cap -> cinv cap c -> run c ops = Ok c' -> cinv cap c'.
Proof.
  intros Hcap. revert c. induction ops as [|o ops IH]; intros c Hinv H.
  - by injection H as <-.
  - simpl in H. apply bind_Ok in H as (c1 & H1 & H).
    apply (IH c1); [|done]. by apply (step_cinv cap c c1 o).
Qed.

(** The LFU part of the capacity invariant: in every state a run of calls
    reaches on a cache of capacity [cap >= 1], the table holds at most [cap]
    items. *)
Lemma LFU_capacity (cap : Z) (c : LFUCache) :
  1 <= cap -> reachable cap c -> Z.of_nat (size (items c)) <= cap.
Proof.
  intros Hcap [ops H].
  by destruct (run_cinv cap ops _ c Hcap (cinv_New cap Hcap) H)
    as (_ & _ & ? & _).
Qed.

End LFUCap.

(** ** LFUCache: pointers stay valid *)

Module LFUPointers.
Import LFU LFUProps LFUCap.

Lemma modItem_total (ip : nat) (f : lfuItem -> lfuItem) (c : LFUCache) :
  is_Some (ihp c !! ip) -> exists c', modItem ip f c = Ok c'.
Proof. intros [it Hit]. eexists. apply modItem_Ok. eauto. Qed.

Lemma addFreqNode_total (np : nat) (c : LFUCache) :
  nodes_ok (nhp c) (freqs c) -> is_Some (nhp c !! np) ->
  exists c', addFreqNode np c = Ok c'.
Proof.
  intros Hok [node Hnode]. unfold addFreqNode, load, deref.
  rewrite Hnode. simpl.
  destruct (freqs c !! (freq node - 1)) as [pp|] eqn:Hpp; [|eauto].
  destruct (modNode_total np (set_prev (Some pp)) c) as [c1 H1]; [eauto|].
  rewrite H1. simpl.
  assert (S1 : node_step c c1).
  { apply (modNode_step _ _ _ _ H1). intros n Hn [Hk Hfr]. simpl.
    split; [by apply (Hfr _ _ Hpp)|by apply (Hk np)]. }
  pose proof (ns_ok _ _ S1 Hok) as Hok1.
  destruct (ns_alloc _ _ S1 pp) as [prevNode Hprev].
  { destruct Hok as [_ Hfr]. by apply (Hfr _ _ Hpp). }
  rewrite Hprev. simpl.
  destruct (modNode_total np (set_next (next prevNode)) c1) as [c2 H2].
  { apply (ns_alloc _ _ S1). eauto. }
  rewrite H2. simpl.
  assert (S2 : node_step c1 c2).
  { apply (modNode_step _ _ _ _ H2). intros n Hn [Hk Hfr]. simpl.
    split; [by apply (Hk np)|by apply (Hk pp prevNode)]. }
  pose proof (ns_ok _ _ S2 Hok1) as Hok2.
  destruct (modNode_total pp (set_next (Some np)) c2) as [c3 H3].
  { apply (ns_alloc _ _ S2). eauto. }
  rewrite H3. simpl.
  assert (Hnp2 : is_Some (nhp c2 !! np)).
  { apply (ns_alloc _ _ S2), (ns_alloc _ _ S1). eauto. }
  assert (S3 : node_step c2 c3).
  { apply (modNode_step _ _ _ _ H3). intros n Hn [Hk Hfr]. simpl.
    split; [by apply (Hk pp)|done]. }
  pose proof (ns_ok _ _ S3 Hok2) as Hok3.
  destruct (ns_alloc _ _ S3 np Hnp2) as [node3 Hnode3].
  rewrite Hnode3. simpl.
  destruct (next node3) as [nn|] eqn:Hnn; [|eauto].
  apply modNode_total. destruct Hok3 as [Hk _].
  destruct (Hk np node3 Hnode3) as [_ Hv]. by rewrite Hnn in Hv.
Qed.

Lemma attach_total (fl : option string) (ip : nat) (it : lfuItem)
    (c : LFUCache) :
  binv fl c -> is_Some (ihp c !! ip) ->
  exists c', attach ip it c = Ok c'.
Proof.
  intros Hb Hip. unfold attach. cbv zeta.
  destruct (freqs c !! frequency it) as [np|] eqn:Hreg.
  - destruct (modNode_total np
                (fun n => set_nitems (<[key it := ip]> (nitems n)) n) c)
      as [c1 H1].
    { destruct (bi_nodes _ _ Hb) as [_ Hfr]. by apply (Hfr _ _ Hreg). }
    rewrite H1. simpl. apply modItem_total.
    apply modNode_nitems_step in H1. by rewrite (ns_ihp _ _ H1).
  - set (c0 := set_freqs _ _).
    assert (Hok0 : nodes_ok (nhp c0) (freqs c0)).
    { subst c0. simpl.
      apply nodes_ok_register; [|by rewrite lookup_insert_eq].
      apply nodes_ok_insert; simpl; try done. apply Hb. }
    destruct (addFreqNode_total (fresh c) c0 Hok0) as [c1 H1].
    { subst c0. simpl. by rewrite lookup_insert_eq. }
    rewrite H1. simpl.
    pose proof (addFreqNode_step _ _ _ H1) as S1.
    destruct (modNode_total (fresh c)
                (fun n => set_nitems (<[key it := ip]> (nitems n)) n) c1)
      as [c2 H2].
    { apply (ns_alloc _ _ S1). subst c0. simpl. by rewrite lookup_insert_eq. }
    rewrite H2. simpl. apply modItem_total.
    apply modNode_nitems_step in H2.
    rewrite (ns_ihp _ _ H2), (ns_ihp _ _ S1). subst c0. done.
Qed.

Lemma finish_not_Dangling (ip : nat) (c : LFUCache) :
  nodes_ok (nhp c) (freqs c) -> is_Some (ihp c !! ip) ->
  finish ip c <> Dangling.
Proof.
  intros [_ Hfr] [it Hit]. unfold finish, load, deref. rewrite Hit. simpl.
  destruct (frequency it =? 1); [done|].
  destruct (frequency it - 1 =? minFreq c); [|done].
  destruct (freqs c !! minFreq c) as [np|] eqn:Hnp; [|done].
  destruct (Hfr _ _ Hnp) as [nd Hnd]. rewrite Hnd. simpl.
  by destruct (Z.of_nat (size (nitems nd)) =? 0).
Qed.

Lemma incrementFreq_not_Dangling (k : string) (ip : nat) (c : LFUCache) :
  binv None c -> items c !! k = Some ip ->
  incrementFreq ip c <> Dangling.
Proof.
  intros Hb Hk. rewrite incrementFreq_unfold.
  destruct (bi_item _ _ Hb k ip Hk) as (it & Hit & Hkey & [?|Hm]); [done|].
  destruct Hm as (np & nd & Hfn & Hreg & Hnd & Hin & Hge).
  unfold load at 1. unfold deref. rewrite Hit. simpl. rewrite Hfn, Hkey.
  destruct (detach_total k np c (bi_nodes _ _ Hb)) as [c1 H1]; [eauto|].
  rewrite H1. simpl.
  pose proof H1 as H1'.
  rewrite <- (set_items_id (items c) c eq_refl) in H1' at 1.
  destruct (detach_binv k ip np it (items c) c c1 Hb Hk Hit Hfn H1')
    as (Hi1 & Hc1 & Hm1 & Hb1 & Hf1 & Hf1').
  rewrite (set_items_id _ c1 Hi1) in Hb1.
  assert (Hih1 : ihp c1 = ihp c) by (by destruct (detach_step _ _ _ _ H1)).
  match goal with
  | |- bind (modItem ip ?f c1) _ <> _ =>
      destruct (modItem_total ip f c1) as [c2 H2]; [rewrite Hih1; eauto|];
      destruct (modItem_float k ip f c1 c2 Hb1 ltac:(congruence)
                  ltac:(done) H2)
        as (Hb2 & Hi2 & Hfr2 & Hc2 & Hm2 & it1 & Hit1 & Hit2)
  end.
  rewrite H2. simpl. unfold load at 1. unfold deref. rewrite Hit2. simpl.
  match goal with
  | |- bind (attach ip ?i c2) _ <> _ =>
      destruct (attach_total (Some k) ip i c2 Hb2) as [c4 H4]; [eauto|];
      destruct (attach_binv k ip i c2 c4 Hb2 ltac:(congruence) Hit2)
        as (Hb4 & _ & _ & _ & _ & _ & it4 & Hit4 & _);
        [simpl; assert (it1 = it) by congruence; subst; lia|exact H4|]
  end.
  rewrite H4. simpl.
  apply finish_not_Dangling; [apply Hb4|eauto].
Qed.

Lemma incrementFreq_new_not_Dangling (k : string) (ip : nat) (it : lfuItem)
    (c : LFUCache) :
  binv (Some k) c -> items c !! k = Some ip -> ihp c !! ip = Some it ->
  fnode it = None -> frequency it = 0 ->
  incrementFreq ip c <> Dangling.
Proof.
  intros Hb Hk Hit Hfn Hfreq. rewrite incrementFreq_unfold.
  unfold load at 1. unfold deref. rewrite Hit. simpl. rewrite Hfn. simpl.
  match goal with
  | |- bind (modItem ip ?f c) _ <> _ =>
      destruct (modItem_total ip f c) as [c2 H2]; [eauto|];
      destruct (modItem_float k ip f c c2 Hb Hk ltac:(done) H2)
        as (Hb2 & Hi2 & Hfr2 & Hc2 & Hm2 & it1 & Hit1 & Hit2)
  end.
  rewrite H2. simpl. unfold load at 1. unfold deref. rewrite Hit2. simpl.
  match goal with
  | |- bind (attach ip ?i c2) _ <> _ =>
      destruct (attach_total (Some k) ip i c2 Hb2) as [c4 H4]; [eauto|];
      destruct (attach_binv k ip i c2 c4 Hb2 ltac:(congruence) Hit2)
        as (Hb4 & _ & _ & _ & _ & _ & it4 & Hit4 & _);
        [simpl; assert (it1 = it) by congruence; subst; lia|exact H4|]
  end.
  rewrite H4. simpl.
  apply finish_not_Dangling; [apply Hb4|eauto].
Qed.

Lemma remove_returns (k : string) (ip : nat) (c : LFUCache) :
  binv None c -> items c !! k = Some ip -> exists c', remove ip c = Ok c'.
Proof.
  intros Hb Hk.
  destruct (bi_item _ _ Hb k ip Hk) as (it & Hit & Hkey & [?|Hm]); [done|].
  destruct Hm as (np & nd & Hfn & Hreg & Hnd & Hin & Hge).
  apply (remove_total ip np it c Hit Hfn); [eauto|apply Hb].
Qed.

Lemma evict_returns (pick : nat) (c : LFUCache) :
  binv None c -> exists c', evict pick c = Ok c'.
Proof.
  intros Hb. unfold evict.
  destruct (freqs c !! minFreq c) as [np|] eqn:Hnp; [|eauto].
  destruct (bi_reg _ _ Hb _ np Hnp) as (nd & Hnd & _ & Hne & Hmem).
  unfold load, deref. rewrite Hnd. simpl.
  destruct (range_first pick (nitems nd)) as [ip|] eqn:Hip; [|eauto].
  destruct (range_first_member _ _ _ Hip) as [k Hk].
  destruct (Hmem k ip Hk) as (_ & Hi & _).
  by apply (remove_returns k).
Qed.

(** The buckets stay consistent with the table, whatever the capacity. *)
Lemma evict_keeps_binv (pick : nat) (c c' : LFUCache) :
  binv None c -> evict pick c = Ok c' ->
  binv None c' /\ (forall k, items c !! k = None -> items c' !! k = None).
Proof.
  intros Hb H.
  destruct (freqs c !! minFreq c) as [np|] eqn:Hnp.
  - destruct (evict_binv pick c c' Hb ltac:(eauto) H) as (Hb' & _ & _ & Hn).
    by split.
  - unfold evict in H. rewrite Hnp in H. injection H as <-. by split.
Qed.

Lemma step_binv (c c' : LFUCache) (o : op) :
  binv None c -> step c o = Ok c' -> binv None c'.
Proof.
  intros Hb H. destruct o as [now k v ttl pick|now k|k|];
    apply bind_Ok in H as ([c0 r] & H & Hc'); injection Hc' as <-; simpl.
  - unfold Set_ in H. destruct (items c !! k) as [ip|] eqn:Hk.
    + apply bind_Ok in H as (c2 & H2 & H).
      apply bind_Ok in H as (c3 & H3 & H). injection H as <- _.
      match type of H2 with
      | modItem _ ?f _ = _ =>
          destruct (modItem_binv k ip f c c2 Hb Hk ltac:(done) H2)
            as (Hb2 & Hi2 & _)
      end.
      by destruct (incrementFreq_binv k ip c2 c3 Hb2 ltac:(congruence) H3).
    + apply bind_Ok in H as (c1 & H1 & H).
      apply bind_Ok in H as (c3 & H3 & H). injection H as <- _.
      assert (Hc1 : binv None c1 /\ items c1 !! k = None).
      { destruct (Z.of_nat (size (items c)) >=? capacity c).
        - destruct (evict_keeps_binv pick c c1 Hb H1). auto.
        - injection H1 as <-. by split. }
      destruct Hc1 as (Hb1 & Hk1).
      pose proof (binv_new_item k v (if 0 <? ttl then now + ttl else 0)
                    c1 Hb1 Hk1) as Hbn.
      destruct (incrementFreq_new k (fresh c1)
                  (mkItem k v 0 (if 0 <? ttl then now + ttl else 0) None)
                  _ c3 Hbn) as (Hb3 & _);
        [simpl; by rewrite lookup_insert_eq
        |simpl; by rewrite lookup_insert_eq|done|done|exact H3|done].
  - unfold Get in H.
    destruct (items c !! k) as [ip|] eqn:Hk; [|by injection H as <- _].
    apply bind_Ok in H as (it & Hit & H).
    destruct ((0 <? expiration it) && (expiration it <? now)).
    + apply bind_Ok in H as (c1 & H1 & H). injection H as <- _.
      by destruct (remove_binv k ip c c1 Hb Hk H1).
    + apply bind_Ok in H as (c1 & H1 & H).
      apply bind_Ok in H as (it1 & _ & H). injection H as <- _.
      by destruct (incrementFreq_binv k ip c c1 Hb Hk H1).
  - unfold Delete in H.
    destruct (items c !! k) as [ip|] eqn:Hk; [|by injection H as <- _].
    apply bind_Ok in H as (c1 & H1 & H). injection H as <- _.
    by destruct (remove_binv k ip c c1 Hb Hk H1).
  - injection H as <- _. constructor; simpl.
    + intros f np H. by rewrite lookup_empty in H.
    + intros k ip H. by rewrite lookup_empty in H.
    + split; [apply Hb|]. intros ? ? H. by rewrite lookup_empty in H.
    + apply Hb.
    + apply Hb.
Qed.

Lemma LFU_step_not_Dangling (c : LFUCache) (o : op) :
  binv None c -> step c o <> Dangling.
Proof.
  intros Hb. destruct o as [now k v ttl pick|now k|k|]; simpl;
    try (apply bind_not_Dangling; [|done]).
  - unfold Set_. destruct (items c !! k) as [ip|] eqn:Hk.
    + destruct (bi_item _ _ Hb k ip Hk) as (it & Hit & _).
      match goal with
      | |- bind (modItem ip ?f c) _ <> _ =>
          destruct (modItem_total ip f c) as [c2 H2]; [eauto|];
          destruct (modItem_binv k ip f c c2 Hb Hk ltac:(done) H2)
            as (Hb2 & Hi2 & _)
      end.
      rewrite H2. simpl. apply bind_not_Dangling; [|done].
      apply (incrementFreq_not_Dangling k); [done|congruence].
    + assert (Hev : exists c1,
                (if Z.of_nat (size (items c)) >=? capacity c
                 then evict pick c else Ok c) = Ok c1 /\
                binv None c1 /\ items c1 !! k = None).
      { destruct (Z.of_nat (size (items c)) >=? capacity c).
        - destruct (evict_returns pick c Hb) as [c1 H1].
          destruct (evict_keeps_binv pick c c1 Hb H1). eauto.
        - eauto. }
      destruct Hev as (c1 & -> & Hb1 & Hk1). simpl.
      apply bind_not_Dangling; [|done].
      apply (incrementFreq_new_not_Dangling k (fresh c1)
               (mkItem k v 0 (if 0 <? ttl then now + ttl else 0) None));
        simpl; try done; try (by rewrite lookup_insert_eq).
      apply (binv_new_item k v _ c1 Hb1 Hk1).
  - unfold Get. destruct (items c !! k) as [ip|] eqn:Hk; [|done].
    destruct (bi_item _ _ Hb k ip Hk) as (it & Hit & _).
    unfold load at 1. unfold deref. rewrite Hit. simpl.
    destruct ((0 <? expiration it) && (expiration it <? now)).
    + destruct (remove_returns k ip c Hb Hk) as [c1 ->]. done.
    + apply bind_not_Dangling; [by apply (incrementFreq_not_Dangling k)|].
      intros c1 H1.
      destruct (incrementFreq_binv k ip c c1 Hb Hk H1) as (Hb1 & Hi1 & _).
      destruct (bi_item _ _ Hb1 k ip ltac:(congruence)) as (it1 & Hit1 & _).
      unfold load, deref. by rewrite Hit1.
  - unfold Delete. destruct (items c !! k) as [ip|] eqn:Hk; [|done].
    destruct (remove_returns k ip c Hb Hk) as [c1 ->]. done.
  - done.
Qed.

Lemma binv_New (cap : Z) : binv None (NewLFUCache cap).
Proof.
  constructor; simpl.
  - intros f np H. by rewrite lookup_empty in H.
  - intros k ip H. by rewrite lookup_empty in H.
  - split; intros ? ? H; by rewrite lookup_empty in H.
  - intros a [? H]. by rewrite lookup_empty in H.
  - intros a [? H]. by rewrite lookup_empty in H.
Qed.

(** Every state a run of calls reaches has consistent buckets. *)
Lemma reachable_binv (cap : Z) (c : LFUCache) :
  reachable cap c -> binv None c.
Proof.
  intros [ops H]. revert H. generalize (binv_New cap).
  generalize (NewLFUCache cap). induction ops as [|o ops IH]; intros c0 Hb H.
  - by injection H as <-.
  - simpl in H. apply bind_Ok in H as (c1 & H1 & H).
    apply (IH c1); [|done]. by apply (step_binv c0 c1 o).
Qed.

(** No run of calls on an LFU cache goes through an unallocated pointer:
    it ends in a state or in a Go panic. *)
Lemma LFU_never_Dangling (cap : Z) (ops : list op) :
  run (NewLFUCache cap) ops <> Dangling.
Proof.
  assert (Hgen : forall c, binv None c -> run c ops <> Dangling).
  { induction ops as [|o ops IH]; intros c Hb; [done|]. simpl.
    apply bind_not_Dangling; [by apply LFU_step_not_Dangling|].
    intros c1 H1. apply IH. by apply (step_binv c c1 o). }
  apply Hgen, binv_New.
Qed.

End LFUPointers.

(** ** LFUCache: when [incrementFreq] panics *)

Module LFUPanic.
Import LFU LFUProps LFUCap LFUPointers.

(** [incrementFreq] panics on every item that is the only member of its
    bucket while its frequency is [minFreq]: the bucket is unlinked before
    [c.freqs[c.minFreq]] is read. *)
Lemma incrementFreq_panics (k : string) (ip np : nat) (it : lfuItem)
    (nd : freqNode) (c : LFUCache) :
  binv None c -> items c !! k = Some ip -> ihp c !! ip = Some it ->
  fnode it = Some np -> nhp c !! np = Some nd ->
  nitems nd = {[ k := ip ]} -> frequency it = minFreq c ->
  incrementFreq ip c = Panic.
Proof.
  intros Hb Hk Hit Hfn Hnd Hlone Hmin. rewrite incrementFreq_unfold.
  destruct (bi_item _ _ Hb k ip Hk) as (it0 & Hit0 & Hkey & [?|Hm]); [done|].
  assert (it0 = it) as -> by congruence.
  destruct Hm as (np0 & nd0 & Hfn0 & Hreg & Hnd0 & Hin & Hge).
  assert (np0 = np) as -> by congruence.
  unfold load at 1. unfold deref. rewrite Hit. simpl. rewrite Hfn, Hkey.
  destruct (detach_total k np c (bi_nodes _ _ Hb)) as [c1 H1]; [eauto|].
  rewrite H1. simpl.
  pose proof H1 as H1'.
  rewrite <- (set_items_id (items c) c eq_refl) in H1' at 1.
  destruct (detach_binv k ip np it (items c) c c1 Hb Hk Hit Hfn H1')
    as (Hi1 & Hc1 & Hm1 & Hb1 & Hf1 & Hf1').
  rewrite (set_items_id _ c1 Hi1) in Hb1.
  assert (Hih1 : ihp c1 = ihp c) by (by destruct (detach_step _ _ _ _ H1)).
  (* the bucket had no other member, so it is no longer registered *)
  assert (Hgone : freqs c1 !! frequency it = None).
  { destruct Hf1' as [?|Hstill]; [done|]. exfalso.
    destruct (bi_reg _ _ Hb1 _ np Hstill) as (nd1 & Hnd1 & _ & Hne & Hmem).
    destruct (map_choose _ Hne) as (k' & ip' & Hk').
    destruct (Hmem k' ip' Hk') as (Hfl & Hi' & it' & Hit' & Hfn').
    rewrite Hi1 in Hi'. rewrite Hih1 in Hit'.
    destruct (bi_item _ _ Hb k' ip' Hi') as (it'' & Hit'' & _ & [?|Hm']);
      [done|].
    assert (it'' = it') as -> by congruence.
    destruct Hm' as (np' & nd' & Hfn'' & _ & Hnd' & Hin' & _).
    assert (np' = np) as -> by congruence.
    assert (nd' = nd) as -> by congruence.
    rewrite Hlone in Hin'. apply lookup_singleton_Some in Hin' as [<- _].
    done. }
  match goal with
  | |- bind (modItem ip ?f c1) _ = _ =>
      destruct (modItem_total ip f c1) as [c2 H2]; [rewrite Hih1; eauto|];
      destruct (modItem_float k ip f c1 c2 Hb1 ltac:(congruence)
                  ltac:(done) H2)
        as (Hb2 & Hi2 & Hfr2 & Hc2 & Hm2 & it1 & Hit1 & Hit2)
  end.
  assert (it1 = it) as -> by congruence.
  rewrite H2. simpl. unfold load at 1. unfold deref. rewrite Hit2. simpl.
  match goal with
  | |- bind (attach ip ?i c2) _ = _ =>
      destruct (attach_total (Some k) ip i c2 Hb2) as [c4 H4]; [eauto|];
      destruct (attach_binv k ip i c2 c4 Hb2 ltac:(congruence) Hit2)
        as (Hb4 & _ & _ & Hm4 & _ & Hf4 & it4 & Hit4 & Hfreq4);
        [simpl; lia|exact H4|]
  end.
  rewrite H4. simpl. simpl in Hf4, Hfreq4.
  unfold finish, load, deref. rewrite Hit4. simpl. rewrite Hfreq4.
  assert ((frequency it + 1 =? 1) = false) as -> by lia.
  assert ((frequency it + 1 - 1 =? minFreq c4) = true) as ->
    by (apply Z.eqb_eq; lia).
  rewrite Hm4, Hm2, Hm1, <- Hmin.
  rewrite Hf4 by lia. rewrite Hfr2, Hgone. done.
Qed.

(** [Get] of such a key, when its entry has not expired, panics. *)
Lemma Get_of_lone_item_panics (cap now : Z) (k : string) (ip np : nat)
    (it : lfuItem) (nd : freqNode) (c : LFUCache) :
  reachable cap c ->
  items c !! k = Some ip -> ihp c !! ip = Some it ->
  fnode it = Some np -> nhp c !! np = Some nd ->
  nitems nd = {[ k := ip ]} -> frequency it = minFreq c ->
  (0 <? expiration it) && (expiration it <? now) = false ->
  Get now k c = Panic.
Proof.
  intros Hr Hk Hit Hfn Hnd Hlone Hmin Hlive.
  pose proof (reachable_binv cap c Hr) as Hb.
  unfold Get. rewrite Hk. unfold load at 1. unfold deref. rewrite Hit. simpl.
  rewrite Hlive.
  by rewrite (incrementFreq_panics k ip np it nd c).
Qed.

End LFUPanic.

(** ** ARCCache: misses and expiry *)

Module ARCProps.
Import GoList GoListFacts ARC.

Lemma listContainsKey_false (l : list string) (k : string) :
  listContainsKey l k = false <-> k ∉ l.
Proof.
  unfold listContainsKey. induction l as [|s l IH]; simpl.
  - split; [intros _ H; inversion H|done].
  - rewrite orb_false_iff, IH, not_elem_of_cons.
    destruct (String.eqb_spec s k) as [->|Hne]; split; intros [? ?];
      try done; split; try done; congruence.
Qed.

(** [request] for a key that is in neither ghost list does nothing. *)
Lemma request_absent (k : string) (c : ARCCache) :
  k ∉ b1 c -> k ∉ b2 c -> request k c = Ok c.
Proof.
  intros H1 H2. unfold request.
  apply listContainsKey_false in H1, H2. by rewrite H1, H2.
Qed.


(** A key pushed on a ghost list of positive capacity is its front. *)
Lemma pushGhost_head (cap : Z) (k : string) (l : list string) :
  1 <= cap -> head (pushGhost cap k l) = Some k.
Proof.
  intros Hcap. unfold pushGhost, Len.
  destruct (Z.of_nat (length (k :: l)) >? cap) eqn:Hlen; [|done].
  apply Z.gtb_lt in Hlen.
  destruct l as [|s l]; [simpl in Hlen; lia|done].
Qed.

(** [Get] on an expired entry: the miss is reported, the key leaves the
    lookup map, and the element the map held leaves the resident list it
    was in, its key going to the front of that list's ghost list. *)
Lemma ARC_Get_expired (now : Z) (k : string) (elt : Element) (it : arcItem)
    (c : ARCCache) :
  cache c !! k = Some elt -> heap c !! Value elt = Some it ->
  0 < expiration it < now ->
  exists c',
    Get now k c = Ok (c', (VNil, false)) /\
    cache c' = delete k (cache c) /\
    (listContains (t1 c) elt = true ->
       t1 c' = Remove elt (t1 c) /\ t2 c' = t2 c /\
       (1 <= capacity c -> head (b1 c') = Some k)) /\
    (listContains (t1 c) elt = false -> listContains (t2 c) elt = true ->
       t2 c' = Remove elt (t2 c) /\ t1 c' = t1 c /\
       (1 <= capacity c -> head (b2 c') = Some k)).
Proof.
  intros Hc Hh [Hpos Hlt]. exists (remove k c).
  split.
  { unfold Get. rewrite Hc. unfold load, deref. rewrite Hh. simpl.
    apply Z.ltb_lt in Hpos, Hlt. by rewrite Hpos, Hlt. }
  unfold remove. rewrite Hc.
  destruct (listContains (t1 c) elt) eqn:H1; simpl.
  - split; [done|]. split; [|by intros].
    intros _. split; [done|]. split; [done|]. apply pushGhost_head.
  - destruct (listContains (t2 c) elt) eqn:H2; simpl.
    + split; [done|]. split; [by intros|].
      intros _ _. split; [done|]. split; [done|]. apply pushGhost_head.
    + split; [done|]. split; by intros.
Qed.

End ARCProps.

(** ** ARCCache: pointers stay valid *)

Module ARCPointers.
Import GoList GoListFacts ARC.

Lemma allocated_New (cap : Z) : allocated (NewARCCache cap).
Proof.
  split; simpl.
  - intros e H. inversion H.
  - intros k e H. by rewrite lookup_empty in H.
Qed.

Lemma allocated_remove (k : string) (c : ARCCache) :
  allocated c -> allocated (remove k c).
Proof.
  intros [Hl Hc]. unfold remove.
  destruct (cache c !! k) as [elt|] eqn:Hk; [|done].
  assert (Hsub : forall l e, e ∈ Remove elt l -> e ∈ l).
  { intros l e He. by apply elem_of_Remove in He as [? _]. }
  destruct (listContains (t1 c) elt); [|destruct (listContains (t2 c) elt)];
    split; simpl.
  - intros e He. apply Hl. rewrite elem_of_app in He |- *.
    destruct He as [He|He]; [left; by apply Hsub|by right].
  - intros k' e He. apply lookup_delete_Some in He as [_ He]. by apply (Hc k').
  - intros e He. apply Hl. rewrite elem_of_app in He |- *.
    destruct He as [He|He]; [by left|right; by apply Hsub].
  - intros k' e He. apply lookup_delete_Some in He as [_ He]. by apply (Hc k').
  - done.
  - intros k' e He. apply lookup_delete_Some in He as [_ He]. by apply (Hc k').
Qed.

Lemma allocated_pushT2 (k : string) (item : nat) (c : ARCCache) :
  allocated c -> is_Some (heap c !! item) -> allocated (pushT2 k item c).
Proof.
  intros [Hl Hc] Hi. split; simpl.
  - intros e He. rewrite elem_of_app, elem_of_cons in He.
    destruct He as [He|[->|He]]; [|done|]; apply Hl; rewrite elem_of_app; auto.
  - intros k' e He. apply lookup_insert_Some in He as [[_ <-]|[_ He]];
      [done|by apply (Hc k')].
Qed.

Lemma allocated_pushT1 (k : string) (item : nat) (c : ARCCache) :
  allocated c -> is_Some (heap c !! item) -> allocated (pushT1 k item c).
Proof.
  intros [Hl Hc] Hi. split; simpl.
  - intros e He. apply elem_of_cons in He as [->|He]; [done|by apply Hl].
  - intros k' e He. apply lookup_insert_Some in He as [[_ <-]|[_ He]];
      [done|by apply (Hc k')].
Qed.

(** Storing an item keeps every pointer valid, and the new address is. *)
Lemma allocated_store (a : nat) (it : arcItem) (c c' : ARCCache) :
  allocated c ->
  heap c' = <[a := it]> (heap c) ->
  (forall e, e ∈ t1 c' ++ t2 c' -> e ∈ t1 c ++ t2 c) ->
  (forall k e, cache c' !! k = Some e -> cache c !! k = Some e) ->
  allocated c'.
Proof.
  intros [Hl Hc] Hh Hl' Hc'. split.
  - intros e He. rewrite Hh. apply lookup_insert_is_Some.
    destruct (decide (a = Value e)); [by left|right]. split; [done|].
    by apply Hl, Hl'.
  - intros k e He. rewrite Hh. apply lookup_insert_is_Some.
    destruct (decide (a = Value e)); [by left|right]. split; [done|].
    by apply (Hc k), Hc'.
Qed.

Lemma allocated_touch (k : string) (elt : Element) (c : ARCCache) :
  allocated c -> is_Some (heap c !! Value elt) -> allocated (touch k elt c).
Proof.
  intros Ha Hv. unfold touch.
  destruct (listContains (t1 c) elt) eqn:H1.
  - apply allocated_pushT2; [|done]. destruct Ha as [Hl Hc]. split; simpl.
    + intros e He. apply Hl. rewrite elem_of_app in He |- *.
      destruct He as [He|He]; [|by right].
      left. by apply elem_of_Remove in He as [? _].
    + done.
  - destruct (listContains (t2 c) elt) eqn:H2; [|done].
    destruct Ha as [Hl Hc]. split; simpl; [|done].
    intros e He. rewrite elem_of_app in He.
    destruct He as [He|He]; [apply Hl; rewrite elem_of_app; by left|].
    unfold MoveToFront in He. unfold listContains in H2. rewrite H2 in He.
    apply elem_of_cons in He as [->|He]; [done|].
    apply Hl. rewrite elem_of_app. right.
    by apply elem_of_Remove in He as [? _].
Qed.

Lemma allocated_request (k : string) (c c' : ARCCache) :
  allocated c -> request k c = Ok c' -> allocated c'.
Proof.
  intros Ha H. unfold request in H.
  assert (Hgen : forall x, allocated
            (pushT2 k (fresh (moveToT2 k (set_p x c)))
               (snd (newItem (mkItem k VNil 0) (moveToT2 k (set_p x c)))))).
  { intros x. apply allocated_pushT2; [|simpl; by rewrite lookup_insert_eq].
    apply (allocated_store (fresh (moveToT2 k (set_p x c))) (mkItem k VNil 0)
             c); [done|..].
    - unfold moveToT2. simpl.
      destruct (removeFromList (b1 c) k); [done|].
      destruct (removeFromList (b2 c) k); done.
    - unfold moveToT2. simpl.
      destruct (removeFromList (b1 c) k); [done|].
      destruct (removeFromList (b2 c) k); done.
    - unfold moveToT2. simpl.
      destruct (removeFromList (b1 c) k); [done|].
      destruct (removeFromList (b2 c) k); done. }
  destruct (listContainsKey (b1 c) k).
  - apply bind_Ok in H as (q & _ & H). injection H as <-. apply Hgen.
  - destruct (listContainsKey (b2 c) k).
    + apply bind_Ok in H as (q & _ & H). injection H as <-. apply Hgen.
    + by injection H as <-.
Qed.

Lemma request_not_Dangling (k : string) (c : ARCCache) :
  request k c <> Dangling.
Proof.
  unfold request, div.
  destruct (listContainsKey (b1 c) k).
  - destruct (Len (b1 c) =? 0); done.
  - destruct (listContainsKey (b2 c) k); [|done].
    destruct (Len (b2 c) =? 0); done.
Qed.

Lemma allocated_replace (k : string) (c c' : ARCCache) :
  allocated c -> replace k c = Ok c' -> allocated c'.
Proof.
  intros [Hl Hc] H. unfold replace in H.
  destruct ((Len (t1 c) >? 0) &&
            ((Len (t1 c) >? p c) ||
             (listContainsKey (b2 c) k && (Len (t1 c) =? p c)))).
  - apply bind_Ok in H as (lru & _ & H).
    apply bind_Ok in H as (item & _ & H). injection H as <-.
    split; simpl.
    + intros e He. apply Hl. rewrite elem_of_app in He |- *.
      destruct He as [He|He]; [|by right].
      left. by apply elem_of_Remove in He as [? _].
    + intros k' e He. apply lookup_delete_Some in He as [_ He].
      by apply (Hc k').
  - apply bind_Ok in H as (lru & _ & H).
    apply bind_Ok in H as (item & _ & H). injection H as <-.
    split; simpl.
    + intros e He. apply Hl. rewrite elem_of_app in He |- *.
      destruct He as [He|He]; [by left|].
      right. by apply elem_of_Remove in He as [? _].
    + intros k' e He. apply lookup_delete_Some in He as [_ He].
      by apply (Hc k').
Qed.

Lemma replace_not_Dangling (k : string) (c : ARCCache) :
  allocated c -> replace k c <> Dangling.
Proof.
  intros [Hl Hc]. unfold replace, Back.
  destruct ((Len (t1 c) >? 0) &&
            ((Len (t1 c) >? p c) ||
             (listContainsKey (b2 c) k && (Len (t1 c) =? p c)))).
  - destruct (last (t1 c)) as [lru|] eqn:Hlast; [|done]. simpl.
    destruct (Hl lru) as [item Hitem].
    { rewrite elem_of_app. left. by apply last_Some_elem_of. }
    unfold load, deref. by rewrite Hitem.
  - destruct (last (t2 c)) as [lru|] eqn:Hlast; [|done]. simpl.
    destruct (Hl lru) as [item Hitem].
    { rewrite elem_of_app. right. by apply last_Some_elem_of. }
    unfold load, deref. by rewrite Hitem.
Qed.

Lemma Get_allocated (now : Z) (k : string) (c c' : ARCCache) (r : any * bool) :
  allocated c -> Get now k c = Ok (c', r) -> allocated c'.
Proof.
  intros Ha H. unfold Get in H.
  destruct (cache c !! k) as [elt|] eqn:Hk.
  - apply bind_Ok in H as (item & Hitem & H). apply load_Ok in Hitem.
    destruct ((0 <? expiration item) && (expiration item <? now));
      injection H as <- _.
    + by apply allocated_remove.
    + apply allocated_touch; [done|eauto].
  - apply bind_Ok in H as (c1 & H1 & H). injection H as <- _.
    by apply (allocated_request k c).
Qed.

Lemma Set_allocated (now : Z) (k : string) (v : any) (ttl : Z)
    (c c' : ARCCache) (r : error) :
  allocated c -> Set_ now k v ttl c = Ok (c', r) -> allocated c'.
Proof.
  intros Ha H. unfold Set_ in H.
  destruct (cache c !! k) as [elt|] eqn:Hk.
  - apply bind_Ok in H as (item & Hitem & H). injection H as <- _.
    apply allocated_touch; [|simpl; by rewrite lookup_insert_eq].
    by apply (allocated_store (Value elt)
                (mkItem (key item) v (if 0 <? ttl then now + ttl else 0))
                c).
  - apply bind_Ok in H as (c1 & H1 & H).
    apply bind_Ok in H as (c2 & H2 & H).
    unfold newItem in H. injection H as <- _.
    assert (Ha2 : allocated c2).
    { apply (allocated_request k c c1 Ha) in H1.
      destruct (Len (t1 c1) + Len (t2 c1) >=? capacity c1).
      - by apply (allocated_replace k c1).
      - by injection H2 as <-. }
    apply allocated_pushT1; [|simpl; by rewrite lookup_insert_eq].
    by apply (allocated_store (fresh c2)
                (mkItem k v (if 0 <? ttl then now + ttl else 0)) c2).
Qed.

Lemma step_allocated (c c' : ARCCache) (o : op) :
  allocated c -> step c o = Ok c' -> allocated c'.
Proof.
  intros Ha H. destruct o as [now k v ttl|now k|k|]; simpl in H.
  - apply bind_Ok in H as ([c1 r] & H & Hc'). injection Hc' as <-.
    by apply (Set_allocated now k v ttl c c1 r).
  - apply bind_Ok in H as ([c1 r] & H & Hc'). injection Hc' as <-.
    by apply (Get_allocated now k c c1 r).
  - injection H as <-. by apply allocated_remove.
  - injection H as <-. split; simpl.
    + intros e He. inversion He.
    + intros k e He. by rewrite lookup_empty in He.
Qed.

Lemma ARC_step_not_Dangling (c : ARCCache) (o : op) :
  allocated c -> step c o <> Dangling.
Proof.
  intros Ha. destruct o as [now k v ttl|now k|k|]; simpl; try done.
  - apply bind_not_Dangling; [|done]. unfold Set_.
    destruct (cache c !! k) as [elt|] eqn:Hk.
    + destruct Ha as [_ Hc]. destruct (Hc k elt Hk) as [item Hitem].
      unfold load, deref. by rewrite Hitem.
    + apply bind_not_Dangling; [apply request_not_Dangling|].
      intros c1 H1. apply bind_not_Dangling.
      * destruct (Len (t1 c1) + Len (t2 c1) >=? capacity c1); [|done].
        apply replace_not_Dangling. by apply (allocated_request k c).
      * intros c2 _. unfold newItem. done.
  - apply bind_not_Dangling; [|done]. unfold Get.
    destruct (cache c !! k) as [elt|] eqn:Hk.
    + destruct Ha as [_ Hc]. destruct (Hc k elt Hk) as [item Hitem].
      unfold load, deref. rewrite Hitem. simpl.
      by destruct ((0 <? expiration item) && (expiration item <? now)).
    + apply bind_not_Dangling; [apply request_not_Dangling|done].
Qed.

(** No run of calls on an ARC cache goes through an unallocated pointer:
    it ends in a state or in a Go panic. *)
Lemma ARC_never_Dangling (cap : Z) (ops : list op) :
  run (NewARCCache cap) ops <> Dangling.
Proof.
  assert (Hgen : forall c, allocated c -> run c ops <> Dangling).
  { induction ops as [|o ops IH]; intros c Ha; [done|]. simpl.
    apply bind_not_Dangling; [by apply ARC_step_not_Dangling|].
    intros c1 H1. apply IH. by apply (step_allocated c c1 o). }
  apply Hgen, allocated_New.
Qed.

End ARCPointers.

(** ** MemoryCache *)

Module MemoryCacheProps.
Import MemoryCache.


(** [Get] reports an expired entry as a miss and leaves it where it is:
    the method holds the read lock only. *)
Lemma Mem_Get_expired (now : Z) (k : string) (it : item) (c : MemoryCache) :
  items c !! k = Some it -> 0 < expiration it < now ->
  Get now k c = (c, (VNil, false)).
Proof.
  intros H [Hpos Hlt]. unfold Get. rewrite H.
  apply Z.ltb_lt in Hpos, Hlt. by rewrite Hpos, Hlt.
Qed.

Lemma Mem_Set_Get (now now' : Z) (k : string) (v : any) (ttl : Z)
    (c : MemoryCache) :
  ttl <= 0 \/ now' <= now + ttl ->
  Get now' k (fst (Set_ now k v ttl c)) = (fst (Set_ now k v ttl c), (v, true)).
Proof.
  intros H. unfold Get, Set_. simpl. rewrite lookup_insert_eq. simpl.
  destruct (0 <? ttl) eqn:Httl; simpl.
  - apply Z.ltb_lt in Httl.
    assert ((now + ttl <? now') = false) as -> by (apply Z.ltb_ge; lia).
    by rewrite andb_false_r.
  - done.
Qed.

End MemoryCacheProps.

Module MemoryCacheTimeProps.
Import MemoryCacheTime.


Lemma MemTime_Get_expired (now t : Z) (k : string) (it : item) (c : MemoryCache) :
  items c !! k = Some it -> expiration it = Some t -> t < now ->
  Get now k c = (c, (VNil, false)).
Proof.
  intros H Ht Hlt. unfold Get. rewrite H, Ht. simpl.
  apply Z.ltb_lt in Hlt. by rewrite Hlt.
Qed.

End MemoryCacheTimeProps.

(** ** Lookups that miss (C5, C10) *)

(** C5, as stated, fails for MemoryCache: at time 9 the entry set at time 0
    with ttl 5 has expired, [Get] reports the miss, and the entry is still in
    the map afterwards. *)
Lemma MemoryCache_Get_keeps_expired_entry :
  exists it,
    MemoryCache.items sampleMemory !! "k" = Some it /\
    0 < MemoryCache.expiration it < 9 /\
    snd (MemoryCache.Get 9 "k" sampleMemory) = (VNil, false) /\
    MemoryCache.items (fst (MemoryCache.Get 9 "k" sampleMemory)) !! "k"
      = Some it.
Proof.
  eexists. split; [vm_compute; reflexivity|].
  split; [simpl; lia|]. split; vm_compute; reflexivity.
Qed.

(** C5, amended: when [Get] observes an entry whose expiration has passed it
    returns found = false.  LRUCache, LFUCache and ARCCache remove the entry
    as a side effect: the key leaves the lookup map (LRU: and no entry of
    the ordering list carries it any more; LFU: and no registered bucket
    holds it any more; ARC: the element the map held leaves its resident
    list, and its key is put at the front of the matching ghost list when
    the capacity is positive).  MemoryCache leaves its map as it is. *)
Theorem Get_of_expired_entry (now : Z) (k : string) :
  (forall c it,
     MemoryCache.items c !! k = Some it ->
     0 < MemoryCache.expiration it < now ->
     MemoryCache.Get now k c = (c, (VNil, false))) /\
  (forall c it t,
     MemoryCacheTime.items c !! k = Some it ->
     MemoryCacheTime.expiration it = Some t -> t < now ->
     MemoryCacheTime.Get now k c = (c, (VNil, false))) /\
  (forall cap lru elem e t,
     LRU.reachable cap lru ->
     LRU.cache lru !! k = Some elem ->
     LRU.heap lru !! GoList.Value elem = Some e ->
     LRU.expiration e = Some t -> t < now ->
     exists lru',
       LRU.Get now k lru = Ok (lru', (VNil, false)) /\
       LRU.cache lru' !! k = None /\
       LRU.lst lru' = GoList.Remove elem (LRU.lst lru) /\
       (forall e', e' ∈ LRU.view lru' -> LRU.key e' <> k)) /\
  (forall cap c ip it,
     LFU.reachable cap c ->
     LFU.items c !! k = Some ip -> LFU.ihp c !! ip = Some it ->
     0 < LFU.expiration it < now ->
     exists c',
       LFU.Get now k c = Ok (c', (VNil, false)) /\
       LFU.items c' = delete k (LFU.items c) /\
       (forall f np nd,
          LFU.freqs c' !! f = Some np -> LFU.nhp c' !! np = Some nd ->
          LFU.nitems nd !! k = None)) /\
  (forall c elt it,
     ARC.cache c !! k = Some elt ->
     ARC.heap c !! GoList.Value elt = Some it ->
     0 < ARC.expiration it < now ->
     exists c',
       ARC.Get now k c = Ok (c', (VNil, false)) /\
       ARC.cache c' = delete k (ARC.cache c) /\
       (ARC.listContains (ARC.t1 c) elt = true ->
          ARC.t1 c' = GoList.Remove elt (ARC.t1 c) /\ ARC.t2 c' = ARC.t2 c /\
          (1 <= ARC.capacity c -> head (ARC.b1 c') = Some k)) /\
       (ARC.listContains (ARC.t1 c) elt = false ->
        ARC.listContains (ARC.t2 c) elt = true ->
          ARC.t2 c' = GoList.Remove elt (ARC.t2 c) /\ ARC.t1 c' = ARC.t1 c /\
          (1 <= ARC.capacity c -> head (ARC.b2 c') = Some k))).
Proof.
  split; [|split; [|split; [|split]]].
  - intros c it. apply MemoryCacheProps.Mem_Get_expired.
  - intros c it t. apply MemoryCacheTimeProps.MemTime_Get_expired.
  - intros cap lru elem e t Hr Hc Hh He Hlt.
    destruct (LRUProps.LRU_reachable_wf cap lru Hr) as [Hwf _].
    destruct (LRUProps.LRU_Get_expired lru now k elem e Hwf Hc Hh)
      as (lru' & HG & _ & _ & _ & Hnone & Hlst & Hview).
    { unfold LRU.expired. rewrite He. simpl. by apply Z.ltb_lt. }
    exists lru'. auto.
  - intros cap c ip it Hr Hk Hit [Hpos Hlt].
    destruct (LFUProps.LFU_Get_expired now k ip it c
                (LFUProps.LFU_reachable_wf cap c Hr) Hk Hit)
      as (c' & HG & Hitems & _).
    { apply Z.ltb_lt in Hpos, Hlt. by rewrite Hpos, Hlt. }
    exists c'. split; [done|]. split; [done|].
    assert (Hb' : LFU.binv None c').
    { apply (LFUPointers.step_binv c c' (LFU.OGet now k));
        [by apply (LFUPointers.reachable_binv cap)|].
      simpl. by rewrite HG. }
    intros f np nd Hf Hnd.
    destruct (LFU.nitems nd !! k) as [ip'|] eqn:Hm; [|done].
    destruct (LFU.bi_reg _ _ Hb' f np Hf) as (nd' & Hnd' & _ & _ & Hmem).
    assert (nd' = nd) as -> by congruence.
    destruct (Hmem k ip' Hm) as (_ & Hi & _).
    rewrite Hitems, lookup_delete_eq in Hi. done.
  - intros c elt it. apply ARCProps.ARC_Get_expired.
Qed.

Lemma Get_of_expired_entry_witness :
  MemoryCache.Get 9 "k" sampleMemory = (sampleMemory, (VNil, false)) /\
  MemoryCacheTime.Get 9 "k" sampleMemoryTime
    = (sampleMemoryTime, (VNil, false)) /\
  (exists lru',
     LRU.Get 9 "k" sampleLRU = Ok (lru', (VNil, false)) /\
     LRU.cache lru' !! "k" = None /\
     LRU.lst lru' = GoList.Remove (GoList.mkElement 0 0) (LRU.lst sampleLRU) /\
     (forall e', e' ∈ LRU.view lru' -> LRU.key e' <> "k")) /\
  (exists c',
     LFU.Get 9 "k" sampleLFU = Ok (c', (VNil, false)) /\
     LFU.items c' = delete "k" (LFU.items sampleLFU) /\
     (forall f np nd,
        LFU.freqs c' !! f = Some np -> LFU.nhp c' !! np = Some nd ->
        LFU.nitems nd !! "k" = None)) /\
  (exists c',
     ARC.Get 9 "k" sampleARC = Ok (c', (VNil, false)) /\
     ARC.cache c' = delete "k" (ARC.cache sampleARC) /\
     (ARC.listContains (ARC.t1 sampleARC) (GoList.mkElement 1 0) = true ->
        ARC.t1 c' = GoList.Remove (GoList.mkElement 1 0) (ARC.t1 sampleARC) /\
        ARC.t2 c' = ARC.t2 sampleARC /\
        (1 <= ARC.capacity sampleARC -> head (ARC.b1 c') = Some "k")) /\
     (ARC.listContains (ARC.t1 sampleARC) (GoList.mkElement 1 0) = false ->
      ARC.listContains (ARC.t2 sampleARC) (GoList.mkElement 1 0) = true ->
        ARC.t2 c' = GoList.Remove (GoList.mkElement 1 0) (ARC.t2 sampleARC) /\
        ARC.t1 c' = ARC.t1 sampleARC /\
        (1 <= ARC.capacity sampleARC -> head (ARC.b2 c') = Some "k"))).
Proof.
  destruct (Get_of_expired_entry 9 "k") as (HM & HT & HLRU & HLFU & HARC).
  split; [|split; [|split; [|split]]].
  - apply (HM sampleMemory (MemoryCache.mkItem (VInt 1) 5)).
    + vm_compute; reflexivity.
    + simpl; lia.
  - apply (HT sampleMemoryTime (MemoryCacheTime.mkItem (VInt 1) (Some 5)) 5).
    + vm_compute; reflexivity.
    + reflexivity.
    + lia.
  - apply (HLRU 2 sampleLRU (GoList.mkElement 0 0)
             (LRU.mkEntry "k" (VInt 1) (Some 5)) 5).
    + exists [LRU.OSet 0 "k" (VInt 1) 5]. vm_compute; reflexivity.
    + vm_compute; reflexivity.
    + vm_compute; reflexivity.
    + reflexivity.
    + lia.
  - apply (HLFU 2 sampleLFU 0%nat (LFU.mkItem "k" (VInt 1) 1 5 (Some 1%nat))).
    + exists [LFU.OSet 0 "k" (VInt 1) 5 0%nat]. vm_compute; reflexivity.
    + vm_compute; reflexivity.
    + vm_compute; reflexivity.
    + simpl; lia.
  - apply (HARC sampleARC (GoList.mkElement 1 0) (ARC.mkItem "k" (VInt 1) 5)).
    + vm_compute; reflexivity.
    + vm_compute; reflexivity.
    + simpl; lia.
Defined.



(** ** Round trips on the engines other than LFU *)

Module RoundTrip.
Import GoList GoListFacts.

(** LRUCache: [Set] followed by [Get] of the same key returns the value,
    in every reachable state. *)
Lemma LRU_Set_Get (cap : Z) (lru : LRU.LRUCache)
    (now now' : Z) (k : string) (v : any) (ttl : Z) :
  LRU.reachable cap lru ->
  ttl <= 0 \/ now' <= now + ttl ->
  exists lru1 lru2,
    LRU.Set_ now k v ttl lru = Ok lru1 /\
    LRU.Get now' k lru1 = Ok (lru2, (v, true)).
Proof.
  intros Hr Httl. destruct (LRUProps.LRU_reachable_wf cap lru Hr) as [Hwf _].
  assert (Hlive : LRU.expired
                    (LRU.mkEntry k v (LRU.expiry now ttl)) now' = false).
  { apply (LRUEviction.expired_entryOf (LRU.mkCall now k v ttl)).
    exact Httl. }
  destruct (LRU.cache lru !! k) as [elem|] eqn:Hk.
  - destruct (LRUProps.Set_old_spec lru now k v ttl elem Hwf Hk)
      as (lru1 & HS & Hwf1 & _ & _ & Hcache & Hheap).
    rewrite <- Hcache in Hk.
    destruct (LRUProps.LRU_Get_hit lru1 now' k elem _ Hwf1 Hk Hheap Hlive)
      as (lru2 & HG & _).
    exists lru1, lru2. by split.
  - destruct (LRUProps.Set_new_spec lru now k v ttl Hwf Hk)
      as (lru1 & HS & Hwf1 & _ & Hview).
    assert (He : LRU.mkEntry k v (LRU.expiry now ttl)
                   ∈ LRU.view lru1) by (rewrite Hview; left).
    destruct (LRUProps.view_lookup lru1 _ Hwf1 He) as (elem & Hc & Hh).
    destruct (LRUProps.LRU_Get_hit lru1 now' k elem _ Hwf1 Hc Hh Hlive)
      as (lru2 & HG & _).
    exists lru1, lru2. by split.
Qed.

(** ARCCache: when [Set] returns, the key is in the lookup map with the
    item just written, and [Get] returns its value. *)
Lemma ARC_Set_entry (c c1 : ARC.ARCCache) (r : error)
    (now : Z) (k : string) (v : any) (ttl : Z) :
  ARC.Set_ now k v ttl c = Ok (c1, r) ->
  exists elt kk,
    ARC.cache c1 !! k = Some elt /\
    ARC.heap c1 !! Value elt
      = Some (ARC.mkItem kk v (if 0 <? ttl then now + ttl else 0)).
Proof.
  unfold ARC.Set_. intros H.
  destruct (ARC.cache c !! k) as [elt|] eqn:Hk.
  - apply bind_Ok in H as (item & Hitem & H). injection H as <- _.
    unfold ARC.touch. simpl.
    destruct (ARC.listContains (ARC.t1 c) elt); simpl.
    + eexists _, _. rewrite lookup_insert_eq. split; [done|]. simpl.
      by rewrite lookup_insert_eq.
    + destruct (ARC.listContains (ARC.t2 c) elt); simpl.
      * eexists _, _. split; [exact Hk|]. by rewrite lookup_insert_eq.
      * eexists _, _. split; [exact Hk|]. by rewrite lookup_insert_eq.
  - apply bind_Ok in H as (c2 & _ & H).
    apply bind_Ok in H as (c3 & _ & H).
    unfold ARC.newItem, ARC.pushT1 in H. simpl in H. injection H as <- _.
    simpl. eexists _, _. rewrite lookup_insert_eq. split; [done|]. simpl.
    by rewrite lookup_insert_eq.
Qed.

Lemma ARC_Set_Get (c c1 : ARC.ARCCache) (r : error)
    (now now' : Z) (k : string) (v : any) (ttl : Z) :
  ARC.Set_ now k v ttl c = Ok (c1, r) ->
  ttl <= 0 \/ now' <= now + ttl ->
  exists c2, ARC.Get now' k c1 = Ok (c2, (v, true)).
Proof.
  intros HS Httl.
  destruct (ARC_Set_entry c c1 r now k v ttl HS) as (elt & kk & Hc & Hh).
  unfold ARC.Get. rewrite Hc. unfold load, deref. rewrite Hh. simpl.
  assert (Hlive : (0 <? (if 0 <? ttl then now + ttl else 0)) &&
                  ((if 0 <? ttl then now + ttl else 0) <? now') = false).
  { destruct (0 <? ttl) eqn:Hpos; [|done].
    apply Z.ltb_lt in Hpos.
    assert ((now + ttl <? now') = false) as -> by (apply Z.ltb_ge; lia).
    apply andb_false_r. }
  rewrite Hlive. eauto.
Qed.

End RoundTrip.

(** ** Further facts on lookups *)

Module Lookups.
Import GoList GoListFacts.

(** LRUCache: [Get] finds a key exactly when the cache holds an entry for it
    whose expiration, if any, has not passed. *)
Lemma LRU_Get_found_iff (cap : Z) (lru : LRU.LRUCache) (now : Z) (k : string) :
  LRU.reachable cap lru ->
  (exists lru' v, LRU.Get now k lru = Ok (lru', (v, true))) <->
  (exists e, e ∈ LRU.view lru /\ LRU.key e = k /\ LRU.expired e now = false).
Proof.
  intros Hr. destruct (LRUProps.LRU_reachable_wf cap lru Hr) as [Hwf _].
  split.
  - intros (lru' & v & HG).
    destruct (LRU.cache lru !! k) as [elem|] eqn:Hk.
    + destruct (LRUProps.lookup_view lru k elem Hwf Hk) as (e & He & Hke & Hin).
      exists e. split; [done|]. split; [done|].
      destruct (LRU.expired e now) eqn:Hexp; [|done].
      destruct (LRUProps.LRU_Get_expired lru now k elem e Hwf Hk He Hexp)
        as (lru'' & HG' & _). congruence.
    + rewrite (LRUProps.LRU_Get_miss lru now k Hk) in HG. congruence.
  - intros (e & Hin & Hke & Hexp).
    destruct (LRUProps.view_lookup lru e Hwf Hin) as (elem & Hc & Hh).
    rewrite Hke in Hc.
    destruct (LRUProps.LRU_Get_hit lru now k elem e Hwf Hc Hh Hexp)
      as (lru' & HG & _).
    eauto.
Qed.

(** MemoryCache: the same, on the map itself. *)
Lemma MemoryCache_Get_found_iff (now : Z) (k : string)
    (c : MemoryCache.MemoryCache) :
  snd (snd (MemoryCache.Get now k c)) = true <->
  (exists it, MemoryCache.items c !! k = Some it /\
              ~ (0 < MemoryCache.expiration it < now)).
Proof.
  unfold MemoryCache.Get. destruct (MemoryCache.items c !! k) as [it|].
  - destruct (0 <? MemoryCache.expiration it) eqn:H1;
      destruct (MemoryCache.expiration it <? now) eqn:H2; simpl;
      try apply Z.ltb_lt in H1; try apply Z.ltb_lt in H2;
      try apply Z.ltb_ge in H1; try apply Z.ltb_ge in H2.
    + split; [done|]. intros (it' & [= <-] & Hn). lia.
    + split; [|done]. intros _. exists it. split; [done|lia].
    + split; [|done]. intros _. exists it. split; [done|lia].
    + split; [|done]. intros _. exists it. split; [done|lia].
  - simpl. split; [done|]. intros (it & ? & _). done.
Qed.

(** ARCCache: the expiry path of [Get] removes the element the lookup map
    holds.  A second element for the same key, left in T2 by an earlier
    ghost hit, stays resident: after [Set a; Delete a; Set a] and the expiry
    of "a", T2 still holds the placeholder. *)
Lemma ARC_expired_Get_leaves_placeholder :
  exists c c',
    ARC.run (ARC.NewARCCache 2)
      [ARC.OSet 0 "a" (VInt 1) 5; ARC.ODelete "a"; ARC.OSet 1 "a" (VInt 2) 5]
      = Ok c /\
    ARC.Get 100 "a" c = Ok (c', (VNil, false)) /\
    ARC.cache c' !! "a" = None /\
    ARC.keysOf c' (ARC.t1 c') = [] /\
    ARC.keysOf c' (ARC.t2 c') = ["a"].
Proof.
  eexists _, _. split; [vm_compute; reflexivity|].
  split; [vm_compute; reflexivity|].
  repeat split; vm_compute; reflexivity.
Qed.

End Lookups.

(** * Further properties of the engines *)

(** ** MemoryCache: what a caller observes *)

Module MemoryStore.

(** X1: [Get] of a key right after [Set] of that key returns the value that
    was set, unless the entry has a deadline and the clock reading of the
    [Get] is past it.  A ttl of zero or less gives no deadline; the int64
    revision also reads a deadline that is not positive as none. *)
Theorem Memory_Set_then_Get (now now' : Z) (k : string) (v : any) (ttl : Z) :
  (forall c,
     snd (MemoryCache.Get now' k (fst (MemoryCache.Set_ now k v ttl c)))
     = if (0 <? ttl) && (0 <? now + ttl) && (now + ttl <? now')
       then (VNil, false) else (v, true)) /\
  (forall c,
     snd (MemoryCacheTime.Get now' k
            (fst (MemoryCacheTime.Set_ now k v ttl c)))
     = if (0 <? ttl) && (now + ttl <? now')
       then (VNil, false) else (v, true)).
Proof.
  split; intros c.
  - unfold MemoryCache.Get, MemoryCache.Set_. simpl.
    rewrite lookup_insert_eq. simpl.
    destruct (0 <? ttl); simpl.
    + by destruct ((0 <? now + ttl) && (now + ttl <? now')).
    + done.
  - unfold MemoryCacheTime.Get, MemoryCacheTime.Set_. simpl.
    rewrite lookup_insert_eq. simpl.
    destruct (0 <? ttl); simpl; [|done].
    by destruct (now + ttl <? now').
Qed.

(** X2: [Set] and [Delete] of one key leave what [Get] returns for every
    other key as it was. *)
Theorem Memory_other_keys_untouched
    (now now' : Z) (k k' : string) (v : any) (ttl : Z) :
  k <> k' ->
  (forall c,
     snd (MemoryCache.Get now' k' (fst (MemoryCache.Set_ now k v ttl c)))
       = snd (MemoryCache.Get now' k' c) /\
     snd (MemoryCache.Get now' k' (fst (MemoryCache.Delete k c)))
       = snd (MemoryCache.Get now' k' c)) /\
  (forall c,
     snd (MemoryCacheTime.Get now' k'
            (fst (MemoryCacheTime.Set_ now k v ttl c)))
       = snd (MemoryCacheTime.Get now' k' c) /\
     snd (MemoryCacheTime.Get now' k' (fst (MemoryCacheTime.Delete k c)))
       = snd (MemoryCacheTime.Get now' k' c)).
Proof.
  intros Hne. split; intros c; split.
  - unfold MemoryCache.Get, MemoryCache.Set_. simpl.
    rewrite lookup_insert_ne by done.
    destruct (MemoryCache.items c !! k') as [it|]; [|done].
    by destruct ((0 <? MemoryCache.expiration it)
                 && (MemoryCache.expiration it <? now')).
  - unfold MemoryCache.Get, MemoryCache.Delete. simpl.
    rewrite lookup_delete_ne by done.
    destruct (MemoryCache.items c !! k') as [it|]; [|done].
    by destruct ((0 <? MemoryCache.expiration it)
                 && (MemoryCache.expiration it <? now')).
  - unfold MemoryCacheTime.Get, MemoryCacheTime.Set_. simpl.
    rewrite lookup_insert_ne by done.
    destruct (MemoryCacheTime.items c !! k') as [it|]; [|done].
    by destruct (negb (IsZero (MemoryCacheTime.expiration it))
                 && Before (MemoryCacheTime.expiration it) now').
  - unfold MemoryCacheTime.Get, MemoryCacheTime.Delete. simpl.
    rewrite lookup_delete_ne by done.
    destruct (MemoryCacheTime.items c !! k') as [it|]; [|done].
    by destruct (negb (IsZero (MemoryCacheTime.expiration it))
                 && Before (MemoryCacheTime.expiration it) now').
Qed.

Lemma Memory_other_keys_untouched_witness :
  (forall c,
     snd (MemoryCache.Get 9 "j" (fst (MemoryCache.Set_ 0 "k" (VInt 1) 5 c)))
       = snd (MemoryCache.Get 9 "j" c) /\
     snd (MemoryCache.Get 9 "j" (fst (MemoryCache.Delete "k" c)))
       = snd (MemoryCache.Get 9 "j" c)) /\
  (forall c,
     snd (MemoryCacheTime.Get 9 "j"
            (fst (MemoryCacheTime.Set_ 0 "k" (VInt 1) 5 c)))
       = snd (MemoryCacheTime.Get 9 "j" c) /\
     snd (MemoryCacheTime.Get 9 "j" (fst (MemoryCacheTime.Delete "k" c)))
       = snd (MemoryCacheTime.Get 9 "j" c)).
Proof.
  apply (Memory_other_keys_untouched 0 9 "k" "j" (VInt 1) 5). done.
Defined.


(** X3: [Delete] takes the key out of the store, so the [Get] that follows
    misses, whatever the clock reads; deleting a key that is not there
    leaves the store as it was. *)
Theorem Memory_Delete_then_Get (now : Z) (k : string) :
  (forall c,
     MemoryCache.Get now k (fst (MemoryCache.Delete k c))
       = (fst (MemoryCache.Delete k c), (VNil, false)) /\
     (MemoryCache.items c !! k = None -> fst (MemoryCache.Delete k c) = c)) /\
  (forall c,
     MemoryCacheTime.Get now k (fst (MemoryCacheTime.Delete k c))
       = (fst (MemoryCacheTime.Delete k c), (VNil, false)) /\
     (MemoryCacheTime.items c !! k = None ->
      fst (MemoryCacheTime.Delete k c) = c)).
Proof.
  split; intros c; split.
  - unfold MemoryCache.Get, MemoryCache.Delete. simpl.
    by rewrite lookup_delete_eq.
  - intros Hk. unfold MemoryCache.Delete. simpl.
    rewrite (delete_id _ _ Hk). by destruct c.
  - unfold MemoryCacheTime.Get, MemoryCacheTime.Delete. simpl.
    by rewrite lookup_delete_eq.
  - intros Hk. unfold MemoryCacheTime.Delete. simpl.
    rewrite (delete_id _ _ Hk). by destruct c.
Qed.

End MemoryStore.

(** ** LRUCache: what a caller observes *)

Module LRUBehaviour.
Import GoList GoListFacts LRU LRUProps.












Lemma omap_filter {A B : Type} (f : A -> option B)
    (P : A -> Prop) `{forall x, Decision (P x)}
    (Q : B -> Prop) `{forall y, Decision (Q y)} (l : list A) :
  (forall x y, x ∈ l -> f x = Some y -> (P x <-> Q y)) ->
  omap f (filter P l) = filter Q (omap f l).
Proof.
  induction l as [|a l IH]; intros Hpq; [done|].
  assert (IH' : omap f (filter P l) = filter Q (omap f l)).
  { apply IH. intros x y Hx. apply Hpq. by right. }
  rewrite filter_cons.
  change (omap f (a :: l))
    with (match f a with Some y => y :: omap f l | None => omap f l end).
  destruct (f a) as [b|] eqn:Hfa.
  - rewrite filter_cons.
    destruct (decide (P a)) as [Hp|Hp], (decide (Q b)) as [Hq|Hq].
    + change (omap f (a :: filter P l))
        with (match f a with
              | Some y => y :: omap f (filter P l)
              | None => omap f (filter P l) end).
      by rewrite Hfa, IH'.
    + destruct Hq. by apply (Hpq a b); [left|..].
    + destruct Hp. by apply (Hpq a b); [left|..].
    + done.
  - destruct (decide (P a)); [|done].
    change (omap f (a :: filter P l))
      with (match f a with
            | Some y => y :: omap f (filter P l)
            | None => omap f (filter P l) end).
    by rewrite Hfa.
Qed.


(** Unlinking the element of a key takes the entry of that key out of the
    view and leaves the others in their order. *)
Lemma view_Remove (lru : LRUCache) (k : string) (elem : Element) :
  wf lru -> cache lru !! k = Some elem ->
  omap (fun x => heap lru !! Value x) (Remove elem (lst lru))
  = filter (fun e => key e <> k) (view lru).
Proof.
  intros Hwf Hk. destruct (wf_cache _ Hwf _ _ Hk) as (Hin & e & He & Hke).
  unfold view, Remove.
  apply omap_filter. intros x y Hx Hy.
  destruct (wf_elem _ Hwf _ Hx) as (_ & _ & ex & Hex & Hcx).
  assert (ex = y) as -> by congruence.
  split.
  - intros Hne Hky. rewrite Hky in Hcx.
    assert (x = elem) by congruence. subst. done.
  - intros Hne Heq.
    assert (x = elem)
      by (apply (NoDup_eid_inj (lst lru)); [apply Hwf|done..]).
    subst. congruence.
Qed.









(** X9: [Set] of a key the cache already holds evicts nothing, full or
    not: the map keeps its keys, and the entry moves to the front with the
    new value and deadline while the other entries keep their order. *)
Theorem LRU_Set_existing_key_evicts_nothing
    (c : Z) (lru : LRUCache) (now : Z) (k : string) (v : any) (ttl : Z) :
  reachable c lru -> is_Some (cache lru !! k) ->
  exists lru',
    Set_ now k v ttl lru = Ok lru' /\
    cache lru' = cache lru /\
    length (view lru') = length (view lru) /\
    view lru' = mkEntry k v (expiry now ttl)
                :: filter (fun e => key e <> k) (view lru).
Proof.
  intros Hr [elem Hk]. destruct (LRU_reachable_wf c lru Hr) as [Hwf _].
  destruct (Set_old_spec lru now k v ttl elem Hwf Hk)
    as (lru' & HS & Hwf' & _ & Hlen & Hcache & Hheap).
  exists lru'. split; [done|]. split; [done|].
  split; [by rewrite !view_length|].
  destruct (wf_cache _ Hwf _ _ Hk) as (Hin & e & He & Hke).
  destruct (MoveToFront_elem elem (lst lru) (wf_nodup _ Hwf) Hin)
    as (Hmv & _).
  rewrite <- (view_Remove lru k elem Hwf Hk).
  unfold Set_ in HS. rewrite Hk in HS. unfold load, deref in HS.
  rewrite He in HS. simpl in HS. injection HS as <-.
  unfold view. cbn [lst heap]. rewrite Hmv.
  change (omap ?f (?a :: ?l))
    with (match f a with Some y => y :: omap f l | None => omap f l end).
  cbv beta. rewrite lookup_insert_eq, Hke. f_equal.
  apply omap_agree. intros x Hx. apply elem_of_Remove in Hx as [Hx Hne].
  rewrite lookup_insert_ne; [done|].
  destruct (wf_elem _ Hwf _ Hx) as (-> & _).
  destruct (wf_elem _ Hwf _ Hin) as (-> & _). congruence.
Qed.

Lemma LRU_Set_existing_key_evicts_nothing_witness :
  exists lru',
    Set_ 1 "k" (VInt 7) 0 sampleLRU = Ok lru' /\
    cache lru' = cache sampleLRU /\
    length (view lru') = length (view sampleLRU) /\
    view lru' = mkEntry "k" (VInt 7) (expiry 1 0)
                :: filter (fun e => key e <> "k") (view sampleLRU).
Proof.
  apply (LRU_Set_existing_key_evicts_nothing 2 sampleLRU 1 "k" (VInt 7) 0).
  - exists [OSet 0 "k" (VInt 1) 5]. vm_compute; reflexivity.
  - vm_compute. eauto.
Defined.





End LRUBehaviour.

(** ** LFUCache: what a caller observes *)

Module LFUBehaviour.
Import LFU LFUProps LFUCap LFUPointers LFUPanic.

(** A map that holds [k] and is not the singleton of it holds another
    key. *)
Lemma not_singleton_other (m : gmap string nat) (k : string) (x : nat) :
  m !! k = Some x -> m <> {[ k := x ]} ->
  exists k', k' <> k /\ is_Some (m !! k').
Proof.
  intros Hk Hne.
  assert (Hd : delete k m <> ∅).
  { intros Hd. apply Hne. rewrite <- (insert_delete_id m k x Hk), Hd.
    done. }
  destruct (map_choose _ Hd) as (k' & x' & Hk').
  apply lookup_delete_Some in Hk' as [Hkk Hk']. exists k'. split; eauto.
Qed.

(** Detaching an item from a bucket that has another member only takes the
    key out of the bucket. *)
Lemma detach_shared (k k' : string) (np : nat) (nd : freqNode) (c : LFUCache) :
  nhp c !! np = Some nd -> k' <> k -> is_Some (nitems nd !! k') ->
  detach k np c
  = Ok (set_nhp (<[np := set_nitems (delete k (nitems nd)) nd]> (nhp c)) c).
Proof.
  intros Hnd Hne [x Hx]. unfold detach, modNode, load, deref.
  rewrite Hnd. simpl. rewrite lookup_insert_eq. simpl.
  destruct (Z.of_nat (size (delete k (nitems nd))) =? 0) eqn:E; [|done].
  apply size_zero_empty in E.
  assert (Hx' : delete k (nitems nd) !! k' = Some x)
    by (rewrite lookup_delete_ne; done).
  rewrite E in Hx'. by rewrite lookup_empty in Hx'.
Qed.

(** [incrementFreq] on an item of the table returns when the item is not
    the only member of the bucket of [minFreq]; [minFreq] keeps its
    value. *)
Lemma incrementFreq_returns (k : string) (ip np : nat) (it : lfuItem)
    (nd : freqNode) (c : LFUCache) :
  binv None c -> items c !! k = Some ip -> ihp c !! ip = Some it ->
  fnode it = Some np -> nhp c !! np = Some nd ->
  frequency it <> minFreq c \/
    (exists k', k' <> k /\ is_Some (nitems nd !! k')) ->
  exists c', incrementFreq ip c = Ok c' /\ minFreq c' = minFreq c.
Proof.
  intros Hb Hk Hit Hfn Hnd Hcase. rewrite incrementFreq_unfold.
  destruct (bi_item _ _ Hb k ip Hk) as (it0 & Hit0 & Hkey & [?|Hm]); [done|].
  assert (it0 = it) as -> by congruence.
  destruct Hm as (np0 & nd0 & Hfn0 & Hreg & Hnd0 & Hin & Hge).
  assert (np0 = np) as -> by congruence.
  assert (nd0 = nd) as -> by congruence.
  unfold load at 1. unfold deref. rewrite Hit. simpl. rewrite Hfn, Hkey.
  destruct (detach_total k np c (bi_nodes _ _ Hb)) as [c1 H1]; [eauto|].
  rewrite H1. simpl.
  pose proof H1 as H1'.
  rewrite <- (set_items_id (items c) c eq_refl) in H1' at 1.
  destruct (detach_binv k ip np it (items c) c c1 Hb Hk Hit Hfn H1')
    as (Hi1 & Hc1 & Hm1 & Hb1 & Hf1 & Hf1').
  rewrite (set_items_id _ c1 Hi1) in Hb1.
  assert (Hih1 : ihp c1 = ihp c) by (by destruct (detach_step _ _ _ _ H1)).
  match goal with
  | |- exists c', bind (modItem ip ?f c1) _ = _ /\ _ =>
      destruct (modItem_total ip f c1) as [c2 H2]; [rewrite Hih1; eauto|];
      destruct (modItem_float k ip f c1 c2 Hb1 ltac:(congruence)
                  ltac:(done) H2)
        as (Hb2 & Hi2 & Hfr2 & Hc2 & Hm2 & it1 & Hit1 & Hit2)
  end.
  assert (it1 = it) as -> by congruence.
  rewrite H2. simpl. unfold load at 1. unfold deref. rewrite Hit2. simpl.
  match goal with
  | |- exists c', bind (attach ip ?i c2) _ = _ /\ _ =>
      destruct (attach_total (Some k) ip i c2 Hb2) as [c4 H4]; [eauto|];
      destruct (attach_binv k ip i c2 c4 Hb2 ltac:(congruence) Hit2)
        as (Hb4 & _ & _ & Hm4 & _ & Hf4 & it4 & Hit4 & Hfreq4);
        [simpl; lia|exact H4|]
  end.
  rewrite H4. simpl. simpl in Hf4, Hfreq4.
  assert (Hmin : minFreq c4 = minFreq c) by congruence.
  unfold finish, load, deref. rewrite Hit4. simpl. rewrite Hfreq4.
  assert ((frequency it + 1 =? 1) = false) as -> by lia.
  destruct (frequency it + 1 - 1 =? minFreq c4) eqn:E2; [|eauto].
  apply Z.eqb_eq in E2.
  destruct Hcase as [Hne|(k' & Hk' & Hmem')]; [lia|].
  (* the bucket keeps another member, so it stays registered *)
  assert (Hstay : freqs c4 !! minFreq c4 = Some np).
  { rewrite (detach_shared k k' np nd c Hnd Hk' Hmem') in H1.
    injection H1 as <-. simpl in *.
    rewrite Hf4 by lia. rewrite Hfr2. simpl.
    replace (minFreq c4) with (frequency it) by lia. done. }
  rewrite Hstay.
  destruct (bi_reg _ _ Hb4 _ np Hstay) as (nd4 & Hnd4 & _ & Hne4 & _).
  rewrite Hnd4. simpl.
  destruct (Z.of_nat (size (nitems nd4)) =? 0) eqn:E;
    [by apply size_zero_empty in E|eauto].
Qed.

(** [incrementFreq] on an item that was just added to the table returns,
    with [minFreq] set to 1. *)
Lemma incrementFreq_new_returns (k : string) (ip : nat) (it : lfuItem)
    (c : LFUCache) :
  binv (Some k) c -> items c !! k = Some ip -> ihp c !! ip = Some it ->
  fnode it = None -> frequency it = 0 ->
  exists c', incrementFreq ip c = Ok c' /\ minFreq c' = 1.
Proof.
  intros Hb Hk Hit Hfn Hfreq. rewrite incrementFreq_unfold.
  unfold load at 1. unfold deref. rewrite Hit. simpl. rewrite Hfn. simpl.
  match goal with
  | |- exists c', bind (modItem ip ?f c) _ = _ /\ _ =>
      destruct (modItem_total ip f c) as [c2 H2]; [eauto|];
      destruct (modItem_float k ip f c c2 Hb Hk ltac:(done) H2)
        as (Hb2 & Hi2 & Hfr2 & Hc2 & Hm2 & it1 & Hit1 & Hit2)
  end.
  assert (it1 = it) as -> by congruence.
  rewrite H2. simpl. unfold load at 1. unfold deref. rewrite Hit2. simpl.
  match goal with
  | |- exists c', bind (attach ip ?i c2) _ = _ /\ _ =>
      destruct (attach_total (Some k) ip i c2 Hb2) as [c4 H4]; [eauto|];
      destruct (attach_binv k ip i c2 c4 Hb2 ltac:(congruence) Hit2)
        as (Hb4 & _ & _ & _ & _ & _ & it4 & Hit4 & Hfreq4);
        [simpl; lia|exact H4|]
  end.
  rewrite H4. simpl. simpl in Hfreq4.
  unfold finish, load, deref. rewrite Hit4. simpl. rewrite Hfreq4, Hfreq.
  simpl. eauto.
Qed.


(** Whether [incrementFreq] returns on an item of the table depends on that
    condition alone. *)
Lemma incrementFreq_outcome (k : string) (ip : nat) (c : LFUCache) :
  binv None c -> items c !! k = Some ip ->
  exists it np nd,
    ihp c !! ip = Some it /\ key it = k /\ 1 <= frequency it /\
    fnode it = Some np /\ freqs c !! frequency it = Some np /\
    nhp c !! np = Some nd /\ nitems nd !! k = Some ip /\
    ((frequency it = minFreq c /\ nitems nd = {[ k := ip ]} /\
      incrementFreq ip c = Panic) \/
     ((frequency it <> minFreq c \/ nitems nd <> {[ k := ip ]}) /\
      exists c' np',
        incrementFreq ip c = Ok c' /\ binv None c' /\
        items c' = items c /\ capacity c' = capacity c /\
        minFreq c' = minFreq c /\
        freqs c' !! (frequency it + 1) = Some np' /\
        ihp c' = <[ip := mkItem k (value it) (frequency it + 1)
                                (expiration it) (Some np')]> (ihp c))).
Proof.
  intros Hb Hk.
  destruct (bi_item _ _ Hb k ip Hk) as (it & Hit & Hkey & [?|Hm]); [done|].
  destruct Hm as (np & nd & Hfn & Hreg & Hnd & Hin & Hge).
  exists it, np, nd. do 7 (split; [done|]).
  destruct (decide (frequency it = minFreq c)) as [Hmin|Hmin];
    [destruct (decide (nitems nd = {[ k := ip ]})) as [Hlone|Hlone]|].
  - left. split; [done|]. split; [done|].
    by apply (incrementFreq_panics k ip np it nd c).
  - right. split; [by right|].
    destruct (incrementFreq_returns k ip np it nd c Hb Hk Hit Hfn Hnd)
      as (c' & H & Hm');
      [right; by apply (not_singleton_other _ k ip)|].
    destruct (incrementFreq_binv k ip c c' Hb Hk H) as (Hb' & Hi' & Hc' & _).
    destruct (incrementFreq_spec ip it c c' H Hit)
      as (_ & _ & _ & _ & _ & np' & _ & Hihp).
    exists c', np'. do 5 (split; [done|]). rewrite Hkey in Hihp.
    split; [|done].
    destruct (bi_item _ _ Hb' k ip ltac:(congruence))
      as (it' & Hit' & _ & [?|Hm'']); [done|].
    rewrite Hihp, lookup_insert_eq in Hit'. injection Hit' as <-.
    destruct Hm'' as (np2 & nd2 & Hfn2 & Hreg2 & _). simpl in *. congruence.
  - right. split; [by left|].
    destruct (incrementFreq_returns k ip np it nd c Hb Hk Hit Hfn Hnd)
      as (c' & H & Hm'); [by left|].
    destruct (incrementFreq_binv k ip c c' Hb Hk H) as (Hb' & Hi' & Hc' & _).
    destruct (incrementFreq_spec ip it c c' H Hit)
      as (_ & _ & _ & _ & _ & np' & _ & Hihp).
    exists c', np'. do 5 (split; [done|]). rewrite Hkey in Hihp.
    split; [|done].
    destruct (bi_item _ _ Hb' k ip ltac:(congruence))
      as (it' & Hit' & _ & [?|Hm'']); [done|].
    rewrite Hihp, lookup_insert_eq in Hit'. injection Hit' as <-.
    destruct Hm'' as (np2 & nd2 & Hfn2 & Hreg2 & _). simpl in *. congruence.
Qed.

(** X12: [Get] panics exactly when the key is in the table, its entry has
    not expired, its frequency is [minFreq] and it is the only member of its
    bucket. *)
Theorem LFU_Get_panics_iff (cap now : Z) (k : string) (c : LFUCache) :
  reachable cap c ->
  Get now k c = Panic <->
  exists ip it np nd,
    items c !! k = Some ip /\ ihp c !! ip = Some it /\
    (0 <? expiration it) && (expiration it <? now) = false /\
    fnode it = Some np /\ nhp c !! np = Some nd /\
    nitems nd = {[ k := ip ]} /\ frequency it = minFreq c.
Proof.
  intros Hr. pose proof (reachable_binv cap c Hr) as Hb. split.
  - intros H. unfold Get in H.
    destruct (items c !! k) as [ip|] eqn:Hk; [|done].
    destruct (incrementFreq_outcome k ip c Hb Hk)
      as (it & np & nd & Hit & Hkey & Hge & Hfn & Hreg & Hnd & Hin & Hcase).
    unfold load at 1 in H. unfold deref in H. rewrite Hit in H. simpl in H.
    destruct ((0 <? expiration it) && (expiration it <? now)) eqn:Hexp.
    + destruct (remove_returns k ip c Hb Hk) as [c1 H1].
      by rewrite H1 in H.
    + destruct Hcase as [(Hmin & Hlone & _)|(_ & c' & np' & H' & _ & _ & _ & _ & _ & Hihp)].
      * exists ip, it, np, nd. done.
      * rewrite H' in H. simpl in H. unfold load, deref in H.
        by rewrite Hihp, lookup_insert_eq in H.
  - intros (ip & it & np & nd & Hk & Hit & Hexp & Hfn & Hnd & Hlone & Hmin).
    by apply (Get_of_lone_item_panics cap now k ip np it nd c).
Qed.

Lemma LFU_Get_panics_iff_witness :
  Get 3 "k" sampleLFU = Panic <->
  exists ip it np nd,
    items sampleLFU !! "k" = Some ip /\ ihp sampleLFU !! ip = Some it /\
    (0 <? expiration it) && (expiration it <? 3) = false /\
    fnode it = Some np /\ nhp sampleLFU !! np = Some nd /\
    nitems nd = {[ "k" := ip ]} /\ frequency it = minFreq sampleLFU.
Proof.
  apply (LFU_Get_panics_iff 2 3 "k" sampleLFU).
  exists [OSet 0 "k" (VInt 1) 5 0%nat]. vm_compute; reflexivity.
Defined.

(** X13: [Get] of a key whose entry has not expired, and which is not the
    only member of the bucket of [minFreq], returns its value with
    found = true, adds one to its frequency, moves it to the bucket of the
    new frequency, and leaves the table of keys and [minFreq] as they
    were. *)
Theorem LFU_Get_hit (cap now : Z) (k : string) (ip np : nat) (it : lfuItem)
    (nd : freqNode) (c : LFUCache) :
  reachable cap c ->
  items c !! k = Some ip -> ihp c !! ip = Some it ->
  fnode it = Some np -> nhp c !! np = Some nd ->
  (0 <? expiration it) && (expiration it <? now) = false ->
  frequency it <> minFreq c \/
    (exists k', k' <> k /\ is_Some (nitems nd !! k')) ->
  exists c' np',
    Get now k c = Ok (c', (value it, true)) /\
    items c' = items c /\ minFreq c' = minFreq c /\
    freqs c' !! (frequency it + 1) = Some np' /\
    ihp c' = <[ip := mkItem k (value it) (frequency it + 1)
                            (expiration it) (Some np')]> (ihp c).
Proof.
  intros Hr Hk Hit Hfn Hnd Hexp Hcase.
  pose proof (reachable_binv cap c Hr) as Hb.
  destruct (incrementFreq_outcome k ip c Hb Hk)
    as (it0 & np0 & nd0 & Hit0 & Hkey & Hge & Hfn0 & Hreg & Hnd0 & Hin & Hout).
  assert (it0 = it) as -> by congruence.
  assert (np0 = np) as -> by congruence.
  assert (nd0 = nd) as -> by congruence.
  destruct Hout as [(Hmin & Hlone & _)|(_ & c' & np' & H' & _ & Hi' & _ & Hm' & Hf' & Hihp)].
  - exfalso. destruct Hcase as [?|(k' & Hk' & [x Hx])]; [done|].
    rewrite Hlone in Hx. apply lookup_singleton_Some in Hx as [? _]. done.
  - exists c', np'. split; [|done].
    unfold Get. rewrite Hk. unfold load at 1. unfold deref. rewrite Hit.
    simpl. rewrite Hexp, H'. simpl. unfold load, deref.
    by rewrite Hihp, lookup_insert_eq.
Qed.


Lemma LFU_Get_hit_witness :
  exists c' np',
    Get 3 "a" sampleLFU2 = Ok (c', (VInt 1, true)) /\
    items c' = items sampleLFU2 /\ minFreq c' = minFreq sampleLFU2 /\
    freqs c' !! (1 + 1) = Some np' /\
    ihp c' = <[0%nat := mkItem "a" (VInt 1) (1 + 1) 0 (Some np')]>
               (ihp sampleLFU2).
Proof.
  apply (LFU_Get_hit 2 3 "a" 0 1 (mkItem "a" (VInt 1) 1 0 (Some 1%nat))
           (mkNode 1 {[ "a" := 0%nat; "b" := 2%nat ]} None None) sampleLFU2).
  - exists [OSet 0 "a" (VInt 1) 0 0%nat; OSet 0 "b" (VInt 2) 0 0%nat].
    vm_compute; reflexivity.
  - vm_compute; reflexivity.
  - vm_compute; reflexivity.
  - reflexivity.
  - vm_compute; reflexivity.
  - reflexivity.
  - right. exists "b". split; [done|]. vm_compute. eauto.
Defined.

Lemma remove_minFreq (k : string) (ip : nat) (c c' : LFUCache) :
  binv None c -> items c !! k = Some ip -> remove ip c = Ok c' ->
  minFreq c' = minFreq c.
Proof.
  intros Hb Hk H. rewrite remove_unfold in H.
  apply bind_Ok in H as (it & Hit & H). apply load_Ok in Hit.
  destruct (bi_item _ _ Hb k ip Hk) as (it0 & Hit0 & Hkey & [?|Hm]); [done|].
  assert (it0 = it) as -> by congruence.
  destruct Hm as (np & nd & Hfn & _). rewrite Hfn, Hkey in H.
  by destruct (detach_binv k ip np it _ c c' Hb Hk Hit Hfn H)
    as (_ & _ & Hm & _).
Qed.


(** [Set] of a key that is not in the table: it returns, whatever the
    state. *)
Lemma Set_new_returns (now : Z) (k : string) (v : any) (ttl : Z) (pick : nat)
    (c : LFUCache) :
  binv None c -> items c !! k = None ->
  exists c1 c' np,
    (if Z.of_nat (size (items c)) >=? capacity c
     then evict pick c else Ok c) = Ok c1 /\
    Set_ now k v ttl pick c = Ok (c', None) /\
    items c1 !! k = None /\
    binv None c' /\ capacity c' = capacity c1 /\
    items c' = <[k := fresh c1]> (items c1) /\ minFreq c' = 1 /\
    freqs c' !! 1 = Some np /\
    ihp c' !! fresh c1
    = Some (mkItem k v 1 (if 0 <? ttl then now + ttl else 0) (Some np)).
Proof.
  intros Hb Hk.
  assert (Hev : exists c1,
            (if Z.of_nat (size (items c)) >=? capacity c
             then evict pick c else Ok c) = Ok c1 /\
            binv None c1 /\ items c1 !! k = None).
  { destruct (Z.of_nat (size (items c)) >=? capacity c).
    - destruct (evict_returns pick c Hb) as [c1 H1].
      destruct (evict_keeps_binv pick c c1 Hb H1). eauto.
    - eauto. }
  destruct Hev as (c1 & Hev & Hb1 & Hk1). exists c1.
  set (e := if 0 <? ttl then now + ttl else 0).
  pose proof (binv_new_item k v e c1 Hb1 Hk1) as Hbn.
  set (cn := set_items (<[k := fresh c1]> (items c1))
               (set_fresh (S (fresh c1))
                  (set_ihp (<[fresh c1 := mkItem k v 0 e None]> (ihp c1)) c1)))
    in *.
  assert (Hkn : items cn !! k = Some (fresh c1))
    by (simpl; by rewrite lookup_insert_eq).
  assert (Hitn : ihp cn !! fresh c1 = Some (mkItem k v 0 e None))
    by (simpl; by rewrite lookup_insert_eq).
  destruct (incrementFreq_new_returns k (fresh c1) _ cn Hbn Hkn Hitn
              eq_refl eq_refl) as (c' & H & Hmin).
  destruct (incrementFreq_new k (fresh c1) _ cn c' Hbn Hkn Hitn
              eq_refl eq_refl H) as (Hb' & Hi' & Hc' & _).
  destruct (incrementFreq_spec (fresh c1) _ cn c' H Hitn)
    as (_ & _ & _ & _ & _ & np & _ & Hihp).
  exists c', np. split; [done|]. split.
  { unfold Set_. rewrite Hk, Hev. simpl. fold e. fold cn. by rewrite H. }
  split; [done|].
  split; [done|]. split; [done|]. split; [done|]. split; [done|].
  assert (Hit' : ihp c' !! fresh c1 = Some (mkItem k v 1 e (Some np)))
    by (rewrite Hihp; simpl; by rewrite lookup_insert_eq).
  split; [|done].
  destruct (bi_item _ _ Hb' k (fresh c1) ltac:(congruence))
    as (it' & Hit'' & _ & [?|Hm]); [done|].
  rewrite Hit' in Hit''. injection Hit'' as <-.
  destruct Hm as (np2 & nd2 & Hfn2 & Hreg2 & _). simpl in *. congruence.
Qed.

(** A call changes [minFreq] only to 1 (a new key) or to 0 ([Flush]). *)
Lemma step_minFreq (c c' : LFUCache) (o : op) :
  binv None c -> step c o = Ok c' ->
  minFreq c' = minFreq c \/ minFreq c' = 1 \/ minFreq c' = 0.
Proof.
  intros Hb H. destruct o as [now k v ttl pick|now k|k|];
    apply bind_Ok in H as ([c0 r] & H & Hc'); injection Hc' as <-; simpl.
  - unfold Set_ in H. destruct (items c !! k) as [ip|] eqn:Hk.
    + apply bind_Ok in H as (c2 & H2 & H).
      apply bind_Ok in H as (c3 & H3 & H). injection H as <- _.
      match type of H2 with
      | modItem _ ?f _ = _ =>
          destruct (modItem_binv k ip f c c2 Hb Hk ltac:(done) H2)
            as (Hb2 & Hi2 & _ & _ & Hm2)
      end.
      destruct (incrementFreq_outcome k ip c2 Hb2 ltac:(congruence))
        as (it & np & nd & _ & _ & _ & _ & _ & _ & _ & Hout).
      destruct Hout as [(_ & _ & Hp)|(_ & c4 & np' & H4 & _ & _ & _ & Hm4 & _)];
        [congruence|].
      left. congruence.
    + destruct (Set_new_returns now k v ttl pick c Hb Hk)
        as (c1 & c4 & np & _ & HS & _ & _ & _ & _ & Hm & _).
      unfold Set_ in HS. rewrite Hk in HS. rewrite HS in H.
      injection H as <- _. auto.
  - unfold Get in H.
    destruct (items c !! k) as [ip|] eqn:Hk; [|injection H as <- _; auto].
    apply bind_Ok in H as (it & Hit & H).
    destruct ((0 <? expiration it) && (expiration it <? now)).
    + apply bind_Ok in H as (c1 & H1 & H). injection H as <- _.
      left. by apply (remove_minFreq k ip).
    + apply bind_Ok in H as (c1 & H1 & H).
      apply bind_Ok in H as (it1 & _ & H). injection H as <- _.
      destruct (incrementFreq_outcome k ip c Hb Hk)
        as (it0 & np & nd & _ & _ & _ & _ & _ & _ & _ & Hout).
      destruct Hout as [(_ & _ & Hp)|(_ & c4 & np' & H4 & _ & _ & _ & Hm4 & _)];
        [congruence|].
      left. congruence.
  - unfold Delete in H.
    destruct (items c !! k) as [ip|] eqn:Hk; [|injection H as <- _; auto].
    apply bind_Ok in H as (c1 & H1 & H). injection H as <- _.
    left. by apply (remove_minFreq k ip).
  - injection H as <- _. simpl. auto.
Qed.

Lemma reachable_minFreq (cap : Z) (c : LFUCache) :
  reachable cap c -> minFreq c = 0 \/ minFreq c = 1.
Proof.
  intros [ops H].
  assert (Hgen : forall c0, binv None c0 ->
            minFreq c0 = 0 \/ minFreq c0 = 1 ->
            run c0 ops = Ok c -> minFreq c = 0 \/ minFreq c = 1).
  { clear H. induction ops as [|o ops IH]; intros c0 Hb Hm H.
    - by injection H as <-.
    - simpl in H. apply bind_Ok in H as (c1 & H1 & H).
      apply (IH c1); [by apply (step_binv c0 c1 o)| |done].
      destruct (step_minFreq c0 c1 o Hb H1) as [->|[->| ->]]; auto. }
  apply (Hgen (NewLFUCache cap)); [apply binv_New|by left|done].
Qed.

(** X14: [minFreq] is 0 (a cache that never held a key, or was flushed) or
    1 in every state a run of calls reaches, so the statement of
    [incrementFreq] that adds one to it never takes effect; every key in
    the table has a frequency of at least 1. *)
Theorem LFU_minFreq_is_0_or_1 (cap : Z) (c : LFUCache) :
  reachable cap c ->
  (minFreq c = 0 \/ minFreq c = 1) /\
  (forall k ip it, items c !! k = Some ip -> ihp c !! ip = Some it ->
     1 <= frequency it).
Proof.
  intros Hr. split; [by apply (reachable_minFreq cap)|].
  intros k ip it Hk Hit.
  destruct (bi_item _ _ (reachable_binv cap c Hr) k ip Hk)
    as (it0 & Hit0 & _ & [?|Hm]); [done|].
  assert (it0 = it) as -> by congruence.
  by destruct Hm as (np & nd & _ & _ & _ & _ & Hge).
Qed.

Lemma LFU_minFreq_is_0_or_1_witness :
  (minFreq sampleLFU2 = 0 \/ minFreq sampleLFU2 = 1) /\
  (forall k ip it,
     items sampleLFU2 !! k = Some ip -> ihp sampleLFU2 !! ip = Some it ->
     1 <= frequency it).
Proof.
  apply (LFU_minFreq_is_0_or_1 2 sampleLFU2).
  exists [OSet 0 "a" (VInt 1) 0 0%nat; OSet 0 "b" (VInt 2) 0 0%nat].
  vm_compute; reflexivity.
Defined.





(** The state after the two assignments [Set] makes to an item it found. *)
Lemma Set_old_unfold (now : Z) (k : string) (v : any) (ttl : Z) (pick : nat)
    (ip : nat) (it : lfuItem) (c : LFUCache) :
  binv None c -> items c !! k = Some ip -> ihp c !! ip = Some it ->
  let it2 := mkItem (key it) v (frequency it)
               (if 0 <? ttl then now + ttl else 0) (fnode it) in
  let c2 := set_ihp (<[ip := it2]> (ihp c)) c in
  Set_ now k v ttl pick c = (c3 <- incrementFreq ip c2 ;; Ok (c3, None)) /\
  binv None c2 /\ items c2 !! k = Some ip /\ ihp c2 !! ip = Some it2.
Proof.
  intros Hb Hk Hit it2 c2.
  assert (H2 : modItem ip
            (fun it => mkItem (key it) v (frequency it)
                         (if 0 <? ttl then now + ttl else 0) (fnode it)) c
          = Ok c2).
  { apply modItem_Ok. eauto. }
  split.
  - unfold Set_. rewrite Hk, H2. done.
  - match type of H2 with
    | modItem _ ?f _ = _ =>
        destruct (modItem_binv k ip f c c2 Hb Hk ltac:(done) H2)
          as (Hb2 & Hi2 & _)
    end.
    split; [done|]. split; [congruence|].
    subst c2. simpl. by rewrite lookup_insert_eq.
Qed.

(** X16: [Set] panics exactly when the key is in the table, its frequency
    is [minFreq] and it is the only member of its bucket. *)
Theorem LFU_Set_panics_iff (cap now : Z) (k : string) (v : any) (ttl : Z)
    (pick : nat) (c : LFUCache) :
  reachable cap c ->
  Set_ now k v ttl pick c = Panic <->
  exists ip it np nd,
    items c !! k = Some ip /\ ihp c !! ip = Some it /\
    fnode it = Some np /\ nhp c !! np = Some nd /\
    nitems nd = {[ k := ip ]} /\ frequency it = minFreq c.
Proof.
  intros Hr. pose proof (reachable_binv cap c Hr) as Hb. split.
  - intros H. destruct (items c !! k) as [ip|] eqn:Hk.
    + destruct (bi_item _ _ Hb k ip Hk) as (it & Hit & _).
      destruct (Set_old_unfold now k v ttl pick ip it c Hb Hk Hit)
        as (HS & Hb2 & Hk2 & Hit2).
      rewrite HS in H.
      destruct (incrementFreq_outcome k ip _ Hb2 Hk2)
        as (it0 & np & nd & Hit0 & _ & _ & Hfn & _ & Hnd & _ & Hout).
      rewrite Hit2 in Hit0. injection Hit0 as <-. simpl in *.
      destruct Hout as [(Hmin & Hlone & _)|(_ & c' & np' & H' & _)].
      * exists ip, it, np, nd. done.
      * by rewrite H' in H.
    + destruct (Set_new_returns now k v ttl pick c Hb Hk)
        as (c1 & c' & np & _ & HS & _). congruence.
  - intros (ip & it & np & nd & Hk & Hit & Hfn & Hnd & Hlone & Hmin).
    destruct (Set_old_unfold now k v ttl pick ip it c Hb Hk Hit)
      as (HS & Hb2 & Hk2 & Hit2).
    rewrite HS.
    by rewrite (incrementFreq_panics k ip np _ nd _ Hb2 Hk2 Hit2).
Qed.

Lemma LFU_Set_panics_iff_witness :
  Set_ 3 "k" (VInt 2) 0 0 sampleLFU = Panic <->
  exists ip it np nd,
    items sampleLFU !! "k" = Some ip /\ ihp sampleLFU !! ip = Some it /\
    fnode it = Some np /\ nhp sampleLFU !! np = Some nd /\
    nitems nd = {[ "k" := ip ]} /\ frequency it = minFreq sampleLFU.
Proof.
  apply (LFU_Set_panics_iff 2 3 "k" (VInt 2) 0 0 sampleLFU).
  exists [OSet 0 "k" (VInt 1) 5 0%nat]. vm_compute; reflexivity.
Defined.




(** X18: [Delete] never panics and takes exactly the key it is given out
    of the table and out of its bucket; [minFreq] is not adjusted.  A [Get]
    of the deleted key misses and changes nothing. *)
Theorem LFU_Delete_removes_only_that_key
    (cap now : Z) (k : string) (c : LFUCache) :
  reachable cap c ->
  exists c',
    Delete k c = Ok (c', None) /\
    items c' = delete k (items c) /\
    minFreq c' = minFreq c /\
    (forall f np nd,
       freqs c' !! f = Some np -> nhp c' !! np = Some nd ->
       nitems nd !! k = None) /\
    Get now k c' = Ok (c', (VNil, false)).
Proof.
  intros Hr. pose proof (reachable_binv cap c Hr) as Hb.
  assert (H : exists c', Delete k c = Ok (c', None) /\ binv None c' /\
                items c' = delete k (items c) /\ minFreq c' = minFreq c).
  { unfold Delete. destruct (items c !! k) as [ip|] eqn:Hk.
    - destruct (remove_returns k ip c Hb Hk) as [c' H'].
      destruct (remove_binv k ip c c' Hb Hk H') as (Hb' & Hi' & _).
      exists c'. rewrite H'. split; [done|]. split; [done|]. split; [done|].
      by apply (remove_minFreq k ip).
    - exists c. split; [done|]. split; [done|].
      split; [symmetry; by apply delete_id|done]. }
  destruct H as (c' & HD & Hb' & Hi' & Hm'). exists c'.
  split; [done|]. split; [done|]. split; [done|].
  assert (Hnone : items c' !! k = None)
    by (rewrite Hi'; apply lookup_delete_eq).
  split.
  - intros f np nd Hf Hnd.
    destruct (nitems nd !! k) as [ip'|] eqn:Hmem; [|done].
    destruct (bi_reg _ _ Hb' f np Hf) as (nd' & Hnd' & _ & _ & Hin).
    assert (nd' = nd) as -> by congruence.
    destruct (Hin k ip' Hmem) as (_ & Hi & _). congruence.
  - unfold Get. by rewrite Hnone.
Qed.

Lemma LFU_Delete_removes_only_that_key_witness :
  exists c',
    Delete "a" sampleLFU2 = Ok (c', None) /\
    items c' = delete "a" (items sampleLFU2) /\
    minFreq c' = minFreq sampleLFU2 /\
    (forall f np nd,
       freqs c' !! f = Some np -> nhp c' !! np = Some nd ->
       nitems nd !! "a" = None) /\
    Get 3 "a" c' = Ok (c', (VNil, false)).
Proof.
  apply (LFU_Delete_removes_only_that_key 2 3 "a" sampleLFU2).
  exists [OSet 0 "a" (VInt 1) 0 0%nat; OSet 0 "b" (VInt 2) 0 0%nat].
  vm_compute; reflexivity.
Defined.




(** X20: The table of keys and the buckets describe the same cache in
    every state a run of calls reaches.  Each key of the table is stored
    under its own name and is a member of the bucket registered for its
    frequency, which is the bucket its [freqNode] field points to; each
    registered bucket carries the frequency it is registered for, is not
    empty, and has only keys of the table as members. *)
Theorem LFU_buckets_agree_with_table (cap : Z) (c : LFUCache) :
  reachable cap c ->
  (forall k ip, items c !! k = Some ip ->
     exists it np nd,
       ihp c !! ip = Some it /\ key it = k /\
       fnode it = Some np /\ freqs c !! frequency it = Some np /\
       nhp c !! np = Some nd /\ nitems nd !! k = Some ip) /\
  (forall f np, freqs c !! f = Some np ->
     exists nd,
       nhp c !! np = Some nd /\ freq nd = f /\ nitems nd <> ∅ /\
       forall k ip, nitems nd !! k = Some ip -> items c !! k = Some ip).
Proof.
  intros Hr. pose proof (reachable_binv cap c Hr) as Hb. split.
  - intros k ip Hk.
    destruct (bi_item _ _ Hb k ip Hk) as (it & Hit & Hkey & [?|Hm]); [done|].
    destruct Hm as (np & nd & Hfn & Hreg & Hnd & Hin & _).
    exists it, np, nd. done.
  - intros f np Hf.
    destruct (bi_reg _ _ Hb f np Hf) as (nd & Hnd & Hfreq & Hne & Hmem).
    exists nd. split; [done|]. split; [done|]. split; [done|].
    intros k ip Hin. by destruct (Hmem k ip Hin) as (_ & Hi & _).
Qed.

Lemma LFU_buckets_agree_with_table_witness :
  (forall k ip, items sampleLFU2 !! k = Some ip ->
     exists it np nd,
       ihp sampleLFU2 !! ip = Some it /\ key it = k /\
       fnode it = Some np /\ freqs sampleLFU2 !! frequency it = Some np /\
       nhp sampleLFU2 !! np = Some nd /\ nitems nd !! k = Some ip) /\
  (forall f np, freqs sampleLFU2 !! f = Some np ->
     exists nd,
       nhp sampleLFU2 !! np = Some nd /\ freq nd = f /\ nitems nd <> ∅ /\
       forall k ip, nitems nd !! k = Some ip ->
                    items sampleLFU2 !! k = Some ip).
Proof.
  apply (LFU_buckets_agree_with_table 2 sampleLFU2).
  exists [OSet 0 "a" (VInt 1) 0 0%nat; OSet 0 "b" (VInt 2) 0 0%nat].
  vm_compute; reflexivity.
Defined.

End LFUBehaviour.

(** ** ARCCache: what a caller observes *)

Module ARCBehaviour.
Import GoList GoListFacts ARC ARCProps ARCPointers.

Lemma listContainsKey_nonempty (l : list string) (k : string) :
  listContainsKey l k = true -> (Len l =? 0) = false.
Proof. destruct l; [done|]. intros _. unfold Len. simpl. lia. Qed.

(** [request] never panics: the list it divides by holds the key. *)
Lemma request_returns (k : string) (c : ARCCache) :
  exists c', request k c = Ok c'.
Proof.
  unfold request, div.
  destruct (listContainsKey (b1 c) k) eqn:H1.
  - rewrite (listContainsKey_nonempty _ _ H1). simpl. eauto.
  - destruct (listContainsKey (b2 c) k) eqn:H2; [|eauto].
    rewrite (listContainsKey_nonempty _ _ H2). simpl. eauto.
Qed.

Lemma reachable_allocated (cap : Z) (c : ARCCache) :
  reachable cap c -> allocated c.
Proof.
  intros [ops H]. revert H. generalize (allocated_New cap).
  generalize (NewARCCache cap). induction ops as [|o ops IH]; intros c0 Ha H.
  - by injection H as <-.
  - simpl in H. apply bind_Ok in H as (c1 & H1 & H).
    apply (IH c1); [|done]. by apply (step_allocated c0 c1 o).
Qed.

(** The test of [replace] that chooses T1. *)
Lemma replace_returns (k : string) (c : ARCCache) :
  allocated c ->
  t2 c <> [] \/
    (Len (t1 c) >? 0) &&
    ((Len (t1 c) >? p c) ||
     (listContainsKey (b2 c) k && (Len (t1 c) =? p c))) = true ->
  exists c', replace k c = Ok c'.
Proof.
  intros [Hl Hc] Hcase. unfold replace, Back.
  destruct ((Len (t1 c) >? 0) &&
            ((Len (t1 c) >? p c) ||
             (listContainsKey (b2 c) k && (Len (t1 c) =? p c)))) eqn:Hcond.
  - apply andb_true_iff in Hcond as [Hpos _].
    destruct (last (t1 c)) as [lru|] eqn:Hlast.
    + simpl. destruct (Hl lru) as [item Hitem].
      { rewrite elem_of_app. left. by apply last_Some_elem_of. }
      unfold load, deref. rewrite Hitem. simpl. eauto.
    + apply last_None in Hlast. rewrite Hlast in Hpos. done.
  - destruct Hcase as [Hne|?]; [|done].
    destruct (last (t2 c)) as [lru|] eqn:Hlast.
    + simpl. destruct (Hl lru) as [item Hitem].
      { rewrite elem_of_app. right. by apply last_Some_elem_of. }
      unfold load, deref. rewrite Hitem. simpl. eauto.
    + by apply last_None in Hlast.
Qed.

Lemma request_ghost_hit (k : string) (c c1 : ARCCache) :
  listContainsKey (b1 c) k = true \/ listContainsKey (b2 c) k = true ->
  request k c = Ok c1 -> t2 c1 <> [].
Proof.
  intros Hin H. unfold request in H.
  destruct (listContainsKey (b1 c) k).
  - apply bind_Ok in H as (q & _ & H). by injection H as <-.
  - destruct (listContainsKey (b2 c) k).
    + apply bind_Ok in H as (q & _ & H). by injection H as <-.
    + by destruct Hin.
Qed.

(** When [Set] panics. *)
Lemma Set_panics_iff (now : Z) (k : string) (v : any) (ttl : Z)
    (c : ARCCache) :
  allocated c ->
  Set_ now k v ttl c = Panic <->
  cache c !! k = None /\ (k ∉ b1 c) /\ (k ∉ b2 c) /\
  capacity c <= Len (t1 c) + Len (t2 c) /\ t2 c = [] /\
  (t1 c = [] \/ Len (t1 c) <= p c).
Proof.
  intros Ha. split.
  - intros H. unfold Set_ in H.
    destruct (cache c !! k) as [elt|] eqn:Hk.
    { destruct Ha as [_ Hc]. destruct (Hc k elt Hk) as [item Hitem].
      unfold load, deref in H. by rewrite Hitem in H. }
    destruct (request_returns k c) as [c1 H1]. rewrite H1 in H. simpl in H.
    pose proof (allocated_request k c c1 Ha H1) as Ha1.
    assert (Hrep : (Len (t1 c1) + Len (t2 c1) >=? capacity c1) = true /\
                   replace k c1 = Panic).
    { destruct (Len (t1 c1) + Len (t2 c1) >=? capacity c1); [|done].
      split; [done|]. by destruct (replace k c1). }
    destruct Hrep as [Hfull Hrep].
    destruct (listContainsKey (b1 c) k) eqn:Hb1.
    { destruct (replace_returns k c1 Ha1) as [c2 H2]; [|congruence].
      left. apply (request_ghost_hit k c); auto. }
    destruct (listContainsKey (b2 c) k) eqn:Hb2.
    { destruct (replace_returns k c1 Ha1) as [c2 H2]; [|congruence].
      left. apply (request_ghost_hit k c); auto. }
    assert (c1 = c) as ->.
    { unfold request in H1. rewrite Hb1, Hb2 in H1. by injection H1. }
    split; [done|]. split; [by apply listContainsKey_false|].
    split; [by apply listContainsKey_false|]. split; [lia|].
    destruct (t2 c) as [|x l] eqn:Ht2.
    + split; [done|].
      destruct ((Len (t1 c) >? 0) &&
                ((Len (t1 c) >? p c) ||
                 (listContainsKey (b2 c) k && (Len (t1 c) =? p c))))
        eqn:Hcond.
      * destruct (replace_returns k c Ha) as [c2 H2]; [by right|congruence].
      * rewrite Hb2, andb_false_l, orb_false_r in Hcond.
        apply andb_false_iff in Hcond as [Hz|Hp];
          [left|right; rewrite Z.gtb_ltb in Hp; lia].
        destruct (t1 c); [done|]. exfalso. unfold Len in Hz. cbn [length] in Hz.
        rewrite Z.gtb_ltb in Hz. apply Z.ltb_ge in Hz. clear -Hz. lia.
    + destruct (replace_returns k c Ha) as [c2 H2];
        [left; by rewrite Ht2|congruence].
  - intros (Hk & Hb1 & Hb2 & Hfull & Ht2 & Ht1). unfold Set_.
    rewrite Hk, (request_absent k c Hb1 Hb2). simpl.
    assert ((Len (t1 c) + Len (t2 c) >=? capacity c) = true) as -> by lia.
    unfold replace.
    apply listContainsKey_false in Hb2.
    rewrite Hb2, andb_false_l, orb_false_r.
    assert ((Len (t1 c) >? 0) && (Len (t1 c) >? p c) = false) as ->.
    { apply andb_false_iff. destruct Ht1 as [->|?]; [by left|right].
      rewrite Z.gtb_ltb. lia. }
    by rewrite Ht2.
Qed.

(** X21: The only call that can panic is [Set].  It panics exactly when
    the key is neither resident nor in a ghost list, the resident lists are
    full, T2 is empty, and T1 is empty or not longer than the target [p]:
    [replace] then takes the back of the empty T2.  [Get], [Delete] and
    [Flush] always return; in particular [request] never divides by
    zero. *)
Theorem ARC_panics_only_in_Set (cap now : Z) (k : string) (v : any) (ttl : Z)
    (c : ARCCache) :
  reachable cap c ->
  (Set_ now k v ttl c = Panic <->
   cache c !! k = None /\ (k ∉ b1 c) /\ (k ∉ b2 c) /\
   capacity c <= Len (t1 c) + Len (t2 c) /\ t2 c = [] /\
   (t1 c = [] \/ Len (t1 c) <= p c)) /\
  (exists c' r, Get now k c = Ok (c', r)) /\
  (exists c', Delete k c = Ok (c', None)) /\
  (exists c', Flush c = Ok (c', None)).
Proof.
  intros Hr. pose proof (reachable_allocated cap c Hr) as Ha.
  split; [by apply Set_panics_iff|].
  split; [|split; [by eexists|by eexists]].
  destruct Ha as [_ Hc]. unfold Get.
  destruct (cache c !! k) as [elt|] eqn:Hk.
  - destruct (Hc k elt Hk) as [item Hitem].
    unfold load, deref. rewrite Hitem. simpl.
    destruct ((0 <? expiration item) && (expiration item <? now)); eauto.
  - destruct (request_returns k c) as [c1 ->]. simpl. eauto.
Qed.

Lemma ARC_panics_only_in_Set_witness :
  (Set_ 0 "a" (VInt 1) 0 (NewARCCache 0) = Panic <->
   cache (NewARCCache 0) !! "a" = None /\
   ("a" ∉ b1 (NewARCCache 0)) /\ ("a" ∉ b2 (NewARCCache 0)) /\
   capacity (NewARCCache 0)
     <= Len (t1 (NewARCCache 0)) + Len (t2 (NewARCCache 0)) /\
   t2 (NewARCCache 0) = [] /\
   (t1 (NewARCCache 0) = [] \/
    Len (t1 (NewARCCache 0)) <= p (NewARCCache 0))) /\
  (exists c' r, Get 0 "a" (NewARCCache 0) = Ok (c', r)) /\
  (exists c', Delete "a" (NewARCCache 0) = Ok (c', None)) /\
  (exists c', Flush (NewARCCache 0) = Ok (c', None)).
Proof.
  apply (ARC_panics_only_in_Set 0 0 "a" (VInt 1) 0 (NewARCCache 0)).
  exists []. reflexivity.
Defined.



(** [Set] on a cache without capacity and without residents. *)
Lemma Set_empty_panics (cap now : Z) (k : string) (v : any) (ttl : Z)
    (h : gmap nat arcItem) (n : nat) :
  cap <= 0 ->
  Set_ now k v ttl (mkARCCache cap 0 [] [] [] [] ∅ h n) = Panic.
Proof. intros Hcap. destruct cap; [reflexivity|lia|reflexivity]. Qed.

(** X23: A cache made with a capacity of zero or less stores nothing:
    every [Set] panics in every state a run of calls reaches, and every
    [Get] misses. *)
Theorem ARC_without_capacity_every_Set_panics
    (cap now : Z) (k : string) (v : any) (ttl : Z) (c : ARCCache) :
  cap <= 0 -> reachable cap c ->
  Set_ now k v ttl c = Panic /\ Get now k c = Ok (c, (VNil, false)).
Proof.
  intros Hcap [ops H].
  assert (Hempty : exists h n, c = mkARCCache cap 0 [] [] [] [] ∅ h n).
  { assert (Hgen : forall c0,
              (exists h n, c0 = mkARCCache cap 0 [] [] [] [] ∅ h n) ->
              run c0 ops = Ok c ->
              exists h n, c = mkARCCache cap 0 [] [] [] [] ∅ h n).
    { clear H. induction ops as [|o ops IH]; intros c0 Hc0 H.
      - injection H as <-. done.
      - cbn [run] in H. apply bind_Ok in H as (c1 & H1 & H).
        apply (IH c1); [|done]. destruct Hc0 as (h & n & ->).
        destruct o as [now' k' v' ttl'|now' k'|k'|]; cbn [step] in H1.
        + by rewrite Set_empty_panics in H1.
        + injection H1 as <-. eauto.
        + injection H1 as <-. eauto.
        + injection H1 as <-. eauto. }
    apply (Hgen (NewARCCache cap)); [|done]. by exists ∅, 0%nat. }
  destruct Hempty as (h & n & ->). split.
  - by apply Set_empty_panics.
  - done.
Qed.

Lemma ARC_without_capacity_every_Set_panics_witness :
  Set_ 0 "a" (VInt 1) 0 (NewARCCache 0) = Panic /\
  Get 0 "a" (NewARCCache 0) = Ok (NewARCCache 0, (VNil, false)).
Proof.
  apply (ARC_without_capacity_every_Set_panics 0 0 "a" (VInt 1) 0
           (NewARCCache 0)).
  - lia.
  - exists []. reflexivity.
Defined.

Lemma pushGhost_length (cap : Z) (k : string) (l : list string) :
  0 <= cap -> Len l <= cap -> Len (pushGhost cap k l) <= cap.
Proof.
  intros Hcap Hl. unfold pushGhost.
  destruct (Len (k :: l) >? cap) eqn:Hgt.
  - unfold Len in *. rewrite LRUProps.removelast_length. simpl. lia.
  - rewrite Z.gtb_ltb in Hgt. apply Z.ltb_ge in Hgt. done.
Qed.

Lemma delete_length_le {A : Type} (i : nat) (l : list A) :
  Len (delete i l) <= Len l.
Proof.
  unfold Len. pose proof (sublist_length _ _ (sublist_delete l i)). lia.
Qed.

Lemma in_range_moveToT2 (cap : Z) (k : string) (c : ARCCache) :
  ARC_in_range cap c -> ARC_in_range cap (moveToT2 k c).
Proof.
  intros (Hc & Hp & H1 & H2). unfold moveToT2.
  destruct (removeFromList (b1 c) k) as [i|].
  - split; [done|]. split; [done|]. split; [|done]. simpl.
    pose proof (delete_length_le i (b1 c)). lia.
  - destruct (removeFromList (b2 c) k) as [i|]; [|done].
    split; [done|]. split; [done|]. split; [done|]. simpl.
    pose proof (delete_length_le i (b2 c)). lia.
Qed.

Lemma in_range_request (cap : Z) (k : string) (c c' : ARCCache) :
  0 <= cap -> ARC_in_range cap c -> request k c = Ok c' ->
  ARC_in_range cap c'.
Proof.
  intros Hcap Hr H. unfold request in H.
  assert (Hq : forall (a b : list string) q,
            div (Len a) (Len b) = Ok q -> 0 <= q).
  { intros a b q Hd. unfold div in Hd.
    destruct (Len b =? 0) eqn:E; [done|]. injection Hd as <-.
    apply Z.eqb_neq in E. apply Z.quot_pos; unfold Len in *; lia. }
  assert (Hgen : forall x, 0 <= x <= cap ->
            ARC_in_range cap
              (pushT2 k (fresh (moveToT2 k (set_p x c)))
                 (snd (newItem (mkItem k VNil 0) (moveToT2 k (set_p x c)))))).
  { intros x Hx.
    assert (Hm : ARC_in_range cap (moveToT2 k (set_p x c))).
    { apply in_range_moveToT2. destruct Hr as (? & ? & ? & ?). by split. }
    destruct Hm as (? & ? & ? & ?). by split. }
  destruct Hr as (Hc & Hp & H1 & H2).
  destruct (listContainsKey (b1 c) k).
  - apply bind_Ok in H as (q & Hd & H). injection H as <-.
    apply Hq in Hd. apply Hgen. unfold min, max. rewrite Hc.
    destruct (q >? 1) eqn:E1; rewrite Z.gtb_ltb in E1;
      [destruct (cap <? p c + q) eqn:E2|destruct (cap <? p c + 1) eqn:E2];
      lia.
  - destruct (listContainsKey (b2 c) k).
    + apply bind_Ok in H as (q & Hd & H). injection H as <-.
      apply Hq in Hd. apply Hgen. unfold max.
      destruct (q >? 1) eqn:E1; rewrite Z.gtb_ltb in E1;
        [destruct (0 >? p c - q) eqn:E2|destruct (0 >? p c - 1) eqn:E2];
        rewrite Z.gtb_ltb in E2; lia.
    + injection H as <-. by split.
Qed.

Lemma in_range_remove (cap : Z) (k : string) (c : ARCCache) :
  0 <= cap -> ARC_in_range cap c -> ARC_in_range cap (remove k c).
Proof.
  intros Hcap (Hc & Hp & H1 & H2). unfold remove.
  destruct (cache c !! k) as [elt|]; [|done].
  destruct (listContains (t1 c) elt); [|destruct (listContains (t2 c) elt)];
    (split; [done|]; split; [done|]); simpl; rewrite ?Hc.
  - split; [by apply pushGhost_length|done].
  - split; [done|by apply pushGhost_length].
  - done.
Qed.

Lemma in_range_replace (cap : Z) (k : string) (c c' : ARCCache) :
  0 <= cap -> ARC_in_range cap c -> replace k c = Ok c' ->
  ARC_in_range cap c'.
Proof.
  intros Hcap (Hc & Hp & H1 & H2) H. unfold replace in H.
  destruct ((Len (t1 c) >? 0) &&
            ((Len (t1 c) >? p c) ||
             (listContainsKey (b2 c) k && (Len (t1 c) =? p c)))).
  - apply bind_Ok in H as (lru & _ & H).
    apply bind_Ok in H as (item & _ & H). injection H as <-.
    split; [done|]. split; [done|]. simpl. rewrite Hc.
    split; [by apply pushGhost_length|done].
  - apply bind_Ok in H as (lru & _ & H).
    apply bind_Ok in H as (item & _ & H). injection H as <-.
    split; [done|]. split; [done|]. simpl. rewrite Hc.
    split; [done|by apply pushGhost_length].
Qed.

Lemma in_range_touch (cap : Z) (k : string) (elt : Element) (c : ARCCache) :
  ARC_in_range cap c -> ARC_in_range cap (touch k elt c).
Proof.
  intros Hr. unfold touch.
  destruct (listContains (t1 c) elt); [done|].
  destruct (listContains (t2 c) elt); done.
Qed.

Lemma in_range_step (cap : Z) (c c' : ARCCache) (o : op) :
  0 <= cap -> ARC_in_range cap c -> step c o = Ok c' -> ARC_in_range cap c'.
Proof.
  intros Hcap Hr H. destruct o as [now k v ttl|now k|k|]; simpl in H.
  - apply bind_Ok in H as ([c1 r] & H & Hc'). injection Hc' as <-.
    unfold Set_ in H. destruct (cache c !! k) as [elt|].
    + apply bind_Ok in H as (item & _ & H). injection H as <- _.
      by apply in_range_touch.
    + apply bind_Ok in H as (c2 & H2 & H).
      apply bind_Ok in H as (c3 & H3 & H).
      unfold newItem in H. injection H as <- _.
      apply (in_range_request cap k c c2 Hcap Hr) in H2.
      assert (H3' : ARC_in_range cap c3).
      { destruct (Len (t1 c2) + Len (t2 c2) >=? capacity c2).
        - by apply (in_range_replace cap k c2).
        - by injection H3 as <-. }
      done.
  - apply bind_Ok in H as ([c1 r] & H & Hc'). injection Hc' as <-.
    unfold Get in H. destruct (cache c !! k) as [elt|].
    + apply bind_Ok in H as (item & _ & H).
      destruct ((0 <? expiration item) && (expiration item <? now));
        injection H as <- _.
      * by apply in_range_remove.
      * by apply in_range_touch.
    + apply bind_Ok in H as (c2 & H2 & H). injection H as <- _.
      by apply (in_range_request cap k c).
  - injection H as <-. by apply in_range_remove.
  - injection H as <-. destruct Hr as (Hc & _).
    split; [done|]. unfold Len. simpl. lia.
Qed.

(** X24: With a capacity [cap >= 0], in every state a run of calls
    reaches the capacity field is [cap], the target [p] lies between 0 and
    [cap], and neither ghost list holds more than [cap] keys. *)
Theorem ARC_target_and_ghosts_in_range (cap : Z) (c : ARCCache) :
  0 <= cap -> reachable cap c ->
  capacity c = cap /\ 0 <= p c <= cap /\
  Len (b1 c) <= cap /\ Len (b2 c) <= cap.
Proof.
  intros Hcap [ops H].
  assert (Hgen : forall c0, ARC_in_range cap c0 -> run c0 ops = Ok c ->
            ARC_in_range cap c).
  { clear H. induction ops as [|o ops IH]; intros c0 Hr H.
    - by injection H as <-.
    - simpl in H. apply bind_Ok in H as (c1 & H1 & H).
      apply (IH c1); [|done]. by apply (in_range_step cap c0 c1 o). }
  apply (Hgen (NewARCCache cap)); [|done].
  split; [done|]. unfold Len. simpl. lia.
Qed.

Lemma ARC_target_and_ghosts_in_range_witness :
  capacity sampleARC = 2 /\ 0 <= p sampleARC <= 2 /\
  Len (b1 sampleARC) <= 2 /\ Len (b2 sampleARC) <= 2.
Proof.
  apply (ARC_target_and_ghosts_in_range 2 sampleARC).
  - lia.
  - exists [OSet 0 "k" (VInt 1) 5]. vm_compute; reflexivity.
Defined.


(** A ghost hit leaves a placeholder for the key in the lookup map: an
    item with a nil value and no deadline. *)
Lemma request_ghost (k : string) (c : ARCCache) :
  listContainsKey (b1 c) k = true \/ listContainsKey (b2 c) k = true ->
  exists c2 elt2,
    request k c = Ok c2 /\ cache c2 !! k = Some elt2 /\
    heap c2 !! Value elt2 = Some (mkItem k VNil 0).
Proof.
  intros Hin. unfold request, div.
  assert (Hgen : forall x,
            let c2 := pushT2 k (fresh (moveToT2 k (set_p x c)))
                        (snd (newItem (mkItem k VNil 0)
                                (moveToT2 k (set_p x c)))) in
            exists elt2, cache c2 !! k = Some elt2 /\
                         heap c2 !! Value elt2 = Some (mkItem k VNil 0)).
  { intros x c2. eexists. subst c2. simpl.
    split; [by rewrite lookup_insert_eq|]. simpl.
    by rewrite lookup_insert_eq. }
  destruct (listContainsKey (b1 c) k) eqn:H1.
  - rewrite (listContainsKey_nonempty _ _ H1). simpl.
    destruct (Hgen (min (capacity c)
                      (p c + max (Z.quot (Len (b2 c)) (Len (b1 c))) 1)))
      as (elt2 & ? & ?). eauto.
  - destruct Hin as [?|H2]; [done|]. rewrite H2.
    rewrite (listContainsKey_nonempty _ _ H2). simpl.
    destruct (Hgen (max 0 (p c - max (Z.quot (Len (b1 c)) (Len (b2 c))) 1)))
      as (elt2 & ? & ?). eauto.
Qed.

Lemma listContainsKey_head (l : list string) (k : string) :
  head l = Some k -> listContainsKey l k = true.
Proof.
  destruct l as [|s l]; [done|]. intros [= ->]. unfold listContainsKey.
  simpl. by rewrite String.eqb_refl.
Qed.

(** X25: [Delete] takes the key out of the lookup map, and the [Get] that
    follows misses; a key that was not there leaves the state as it was. *)
Theorem ARC_Delete_then_Get_misses (now : Z) (k : string) (c : ARCCache) :
  exists c1 c2,
    Delete k c = Ok (c1, None) /\
    cache c1 = delete k (cache c) /\
    (cache c !! k = None -> c1 = c) /\
    Get now k c1 = Ok (c2, (VNil, false)).
Proof.
  assert (Hc1 : cache (remove k c) = delete k (cache c)).
  { unfold remove. destruct (cache c !! k) as [elt|] eqn:Hk.
    - by destruct (listContains (t1 c) elt), (listContains (t2 c) elt).
    - symmetry. by apply delete_id. }
  destruct (request_returns k (remove k c)) as [c2 H2].
  exists (remove k c), c2. split; [done|]. split; [done|]. split.
  - intros Hk. unfold remove. by rewrite Hk.
  - unfold Get. rewrite Hc1, lookup_delete_eq, H2. done.
Qed.

(** X26: On a cache with a capacity of one or more, deleting a resident
    key leaves the key in a ghost list.  The first [Get] of the key after
    that misses and puts a placeholder for it into T2 and the lookup map;
    the second [Get] finds the placeholder and reports found = true with a
    nil value. *)
Theorem ARC_deleted_key_found_on_second_Get
    (now now' : Z) (k : string) (elt : Element) (c : ARCCache) :
  1 <= capacity c -> cache c !! k = Some elt ->
  listContains (t1 c) elt = true \/ listContains (t2 c) elt = true ->
  exists c1 c2 c3,
    Delete k c = Ok (c1, None) /\
    cache c1 !! k = None /\
    Get now k c1 = Ok (c2, (VNil, false)) /\
    Get now' k c2 = Ok (c3, (VNil, true)).
Proof.
  intros Hcap Hk Hres.
  assert (Hc1 : cache (remove k c) !! k = None).
  { unfold remove. rewrite Hk.
    destruct (listContains (t1 c) elt), (listContains (t2 c) elt); simpl;
      apply lookup_delete_eq. }
  assert (Hghost : listContainsKey (b1 (remove k c)) k = true \/
                   listContainsKey (b2 (remove k c)) k = true).
  { unfold remove. rewrite Hk.
    destruct (listContains (t1 c) elt) eqn:H1; simpl.
    - left. by apply listContainsKey_head, pushGhost_head.
    - destruct Hres as [?|H2]; [done|]. rewrite H2. simpl.
      right. by apply listContainsKey_head, pushGhost_head. }
  destruct (request_ghost k (remove k c) Hghost)
    as (c2 & elt2 & H2 & Hk2 & Hh2).
  exists (remove k c), c2, (touch k elt2 c2).
  split; [done|]. split; [done|]. split.
  - unfold Get. by rewrite Hc1, H2.
  - unfold Get. rewrite Hk2. unfold load, deref. rewrite Hh2. done.
Qed.

Lemma ARC_deleted_key_found_on_second_Get_witness :
  exists c1 c2 c3,
    Delete "k" sampleARC = Ok (c1, None) /\
    cache c1 !! "k" = None /\
    Get 1 "k" c1 = Ok (c2, (VNil, false)) /\
    Get 2 "k" c2 = Ok (c3, (VNil, true)).
Proof.
  apply (ARC_deleted_key_found_on_second_Get 1 2 "k" (mkElement 1 0)
           sampleARC).
  - vm_compute. discriminate.
  - vm_compute; reflexivity.
  - left. vm_compute; reflexivity.
Defined.


(** X27: After a [Set] that returned, the [Get] of the same key returns
    the value that was set, unless the entry has a deadline and the clock
    reading of the [Get] is past it; then it misses.  A ttl of zero or less
    gives no deadline, and a deadline that is not positive is read as
    none. *)
Theorem ARC_Set_then_Get (c c1 : ARCCache) (r : error) (now now' : Z)
    (k : string) (v : any) (ttl : Z) :
  Set_ now k v ttl c = Ok (c1, r) ->
  r = None /\
  exists c2,
    Get now' k c1
    = Ok (c2, if (0 <? ttl) && (0 <? now + ttl) && (now + ttl <? now')
              then (VNil, false) else (v, true)).
Proof.
  intros HS.
  assert (r = None) as ->.
  { unfold Set_ in HS. destruct (cache c !! k).
    - apply bind_Ok in HS as (? & _ & HS). by injection HS.
    - apply bind_Ok in HS as (? & _ & HS).
      apply bind_Ok in HS as (? & _ & HS). unfold newItem in HS.
      by injection HS. }
  split; [done|].
  destruct (RoundTrip.ARC_Set_entry c c1 None now k v ttl HS)
    as (elt & kk & Hc & Hh).
  unfold Get. rewrite Hc. unfold load, deref. rewrite Hh. simpl.
  destruct (0 <? ttl); simpl; [|eauto].
  destruct ((0 <? now + ttl) && (now + ttl <? now')); eauto.
Qed.

Lemma ARC_Set_then_Get_witness :
  (None : error) = None /\
  exists c2,
    Get 9 "k" sampleARC
    = Ok (c2, if (0 <? 5) && (0 <? 0 + 5) && (0 + 5 <? 9)
              then (VNil, false) else (VInt 1, true)).
Proof.
  apply (ARC_Set_then_Get (NewARCCache 2) sampleARC None 0 9 "k" (VInt 1) 5).
  vm_compute; reflexivity.
Defined.

End ARCBehaviour.

(** ** ARCCache: the lookup map and the resident lists *)

Module ARCResident.
Import GoList GoListFacts ARC ARCProps ARCPointers.

Lemma resident_New (cap : Z) : ARC_resident (NewARCCache cap).
Proof.
  split; [|split; [|split]]; simpl.
  - intros e x He. inversion He.
  - intros e He. inversion He.
  - intros a [x Hx]. by rewrite lookup_empty in Hx.
  - intros k e He. by rewrite lookup_empty in He.
Qed.

(** Two keys of the map lead to elements with different identities. *)
Lemma resident_other (c : ARCCache) (k : string) (e x : Element)
    (it : arcItem) :
  ARC_resident c -> cache c !! k = Some e ->
  x ∈ t1 c ++ t2 c -> heap c !! Value x = Some it -> key it <> k ->
  eid e <> eid x.
Proof.
  intros (Hinj & _ & _ & Hc) He Hx Hit Hne Heq.
  destruct (Hc k e He) as (Hin & it' & Hit' & Hk').
  assert (e = x) by by apply Hinj. subst. congruence.
Qed.

(** The state keeps its members, or loses some, and the map loses one
    key. *)
Lemma resident_sub (c c' : ARCCache) (k : string) :
  ARC_resident c ->
  heap c' = heap c -> fresh c' = fresh c ->
  cache c' = delete k (cache c) ->
  (forall e, e ∈ t1 c' ++ t2 c' -> e ∈ t1 c ++ t2 c) ->
  (forall k' e, k' <> k -> cache c !! k' = Some e -> e ∈ t1 c' ++ t2 c') ->
  ARC_resident c'.
Proof.
  intros (Hinj & Hlt & Hh & Hc) Hheap Hfresh Hcache Hsub Hkeep.
  split; [|split; [|split]].
  - intros e x He Hx. apply Hinj; by apply Hsub.
  - intros e He. rewrite Hfresh. by apply Hlt, Hsub.
  - intros a Ha. rewrite Hfresh. apply Hh. by rewrite <- Hheap.
  - intros k' e He. rewrite Hcache in He.
    apply lookup_delete_Some in He as [Hne He].
    split; [by apply (Hkeep k')|]. rewrite Hheap. by apply (Hc k').
Qed.

(** The state gains one element with a new identity, which the map now
    holds for [k]. *)
Lemma resident_add (c c' : ARCCache) (k : string) (elt' : Element) :
  ARC_resident c ->
  (fresh c <= eid elt' < fresh c')%nat ->
  (forall a, is_Some (heap c' !! a) -> (a < fresh c')%nat) ->
  (forall a it, heap c !! a = Some it -> heap c' !! a = Some it) ->
  (exists it, heap c' !! Value elt' = Some it /\ key it = k) ->
  cache c' = <[k := elt']> (cache c) ->
  elt' ∈ t1 c' ++ t2 c' ->
  (forall e, e ∈ t1 c' ++ t2 c' -> e = elt' \/ e ∈ t1 c ++ t2 c) ->
  (forall k' e, k' <> k -> cache c !! k' = Some e -> e ∈ t1 c' ++ t2 c') ->
  ARC_resident c'.
Proof.
  intros (Hinj & Hlt & Hh & Hc) Hid Hh' Hext Hit' Hcache Hin' Hsub Hkeep.
  split; [|split; [|split]].
  - intros e x He Hx Heq.
    destruct (Hsub e He) as [->|He0], (Hsub x Hx) as [->|Hx0]; try done.
    + apply Hlt in Hx0. lia.
    + apply Hlt in He0. lia.
    + by apply Hinj.
  - intros e He. destruct (Hsub e He) as [->|He0]; [lia|].
    apply Hlt in He0. lia.
  - done.
  - intros k' e He. rewrite Hcache in He.
    apply lookup_insert_Some in He as [[<- <-]|[Hne He]]; [by split|].
    split; [by apply (Hkeep k')|].
    destruct (Hc k' e He) as (_ & it & Hit & Hk). exists it.
    split; [by apply Hext|done].
Qed.

Lemma resident_remove (k : string) (c : ARCCache) :
  ARC_resident c -> ARC_resident (remove k c).
Proof.
  intros Hr. unfold remove.
  destruct (cache c !! k) as [elt|] eqn:Hk; [|done].
  pose proof Hr as (Hinj & _ & _ & Hc).
  destruct (Hc k elt Hk) as (Hin & it & Hit & Hkey).
  assert (Hkeep : forall k' e, k' <> k -> cache c !! k' = Some e ->
            e ∈ t1 c ++ t2 c /\ eid e <> eid elt).
  { intros k' e Hne He. split; [by apply (Hc k')|].
    apply (resident_other c k' e elt it); try done. congruence. }
  destruct (listContains (t1 c) elt); [|destruct (listContains (t2 c) elt)];
    apply (resident_sub c _ k Hr); simpl; try done.
  - intros e. rewrite !elem_of_app, elem_of_Remove. tauto.
  - intros k' e Hne He. destruct (Hkeep k' e Hne He) as [Hm Hid].
    rewrite elem_of_app in Hm. rewrite elem_of_app, elem_of_Remove. tauto.
  - intros e. rewrite !elem_of_app, elem_of_Remove. tauto.
  - intros k' e Hne He. destruct (Hkeep k' e Hne He) as [Hm Hid].
    rewrite elem_of_app in Hm. rewrite elem_of_app, elem_of_Remove. tauto.
  - intros k' e Hne He. by destruct (Hkeep k' e Hne He).
Qed.

Lemma resident_replace (k : string) (c c' : ARCCache) :
  ARC_resident c -> replace k c = Ok c' -> ARC_resident c'.
Proof.
  intros Hr H. pose proof Hr as (Hinj & _ & _ & Hc). unfold replace in H.
  destruct ((Len (t1 c) >? 0) &&
            ((Len (t1 c) >? p c) ||
             (listContainsKey (b2 c) k && (Len (t1 c) =? p c)))).
  - apply bind_Ok in H as (lru & Hlru & H).
    apply bind_Ok in H as (item & Hitem & H). injection H as <-.
    apply load_Ok in Hitem. simpl in Hitem.
    assert (Hin : lru ∈ t1 c ++ t2 c).
    { unfold Back in Hlru. destruct (last (t1 c)) eqn:Hl; [|done].
      injection Hlru as ->. apply elem_of_app. left.
      by apply last_Some_elem_of. }
    apply (resident_sub c _ (key item) Hr); simpl; try done.
    + intros e. rewrite !elem_of_app, elem_of_Remove. tauto.
    + intros k' e Hne He.
      pose proof (resident_other c k' e lru item Hr He Hin Hitem
                    ltac:(congruence)) as Hid.
      destruct (Hc k' e He) as (Hm & _).
      rewrite elem_of_app in Hm. rewrite elem_of_app, elem_of_Remove. tauto.
  - apply bind_Ok in H as (lru & Hlru & H).
    apply bind_Ok in H as (item & Hitem & H). injection H as <-.
    apply load_Ok in Hitem. simpl in Hitem.
    assert (Hin : lru ∈ t1 c ++ t2 c).
    { unfold Back in Hlru. destruct (last (t2 c)) eqn:Hl; [|done].
      injection Hlru as ->. apply elem_of_app. right.
      by apply last_Some_elem_of. }
    apply (resident_sub c _ (key item) Hr); simpl; try done.
    + intros e. rewrite !elem_of_app, elem_of_Remove. tauto.
    + intros k' e Hne He.
      pose proof (resident_other c k' e lru item Hr He Hin Hitem
                    ltac:(congruence)) as Hid.
      destruct (Hc k' e He) as (Hm & _).
      rewrite elem_of_app in Hm. rewrite elem_of_app, elem_of_Remove. tauto.
Qed.


(** The state keeps its members, its map and its items. *)
Lemma resident_members (c c' : ARCCache) :
  ARC_resident c ->
  heap c' = heap c -> fresh c' = fresh c -> cache c' = cache c ->
  (forall e, e ∈ t1 c' ++ t2 c' <-> e ∈ t1 c ++ t2 c) ->
  ARC_resident c'.
Proof.
  intros (Hinj & Hlt & Hh & Hc) Hheap Hfresh Hcache Hmem.
  split; [|split; [|split]].
  - intros e x He Hx. apply Hinj; by apply Hmem.
  - intros e He. rewrite Hfresh. by apply Hlt, Hmem.
  - intros a Ha. rewrite Hfresh. apply Hh. by rewrite <- Hheap.
  - intros k e He. rewrite Hcache in He. rewrite Hheap.
    destruct (Hc k e He) as (Hin & Hit). split; [by apply Hmem|done].
Qed.

(** An element the map holds is in the list that [listContains] finds it
    in. *)
Lemma resident_contains (c : ARCCache) (k : string) (elt : Element)
    (l : list Element) :
  ARC_resident c -> cache c !! k = Some elt ->
  (forall e, e ∈ l -> e ∈ t1 c ++ t2 c) ->
  listContains l elt = true -> elt ∈ l.
Proof.
  intros (Hinj & _ & _ & Hc) Hk Hl Hcont.
  apply contains_true in Hcont as (x & Hx & Hid).
  destruct (Hc k elt Hk) as (Hin & _).
  assert (x = elt) as <- by (apply Hinj; [by apply Hl|done|done]). done.
Qed.

Lemma resident_touch (k : string) (elt : Element) (c : ARCCache) :
  ARC_resident c -> cache c !! k = Some elt -> ARC_resident (touch k elt c).
Proof.
  intros Hr Hk. pose proof Hr as (Hinj & Hlt & Hh & Hc).
  destruct (Hc k elt Hk) as (Hin & it & Hit & Hkey).
  unfold touch. destruct (listContains (t1 c) elt) eqn:H1.
  - apply (resident_add c _ k (mkElement (fresh c) (Value elt)) Hr); simpl.
    + lia.
    + intros a Ha. apply Hh in Ha. lia.
    + done.
    + eauto.
    + done.
    + rewrite elem_of_app, elem_of_cons. auto.
    + intros e. rewrite !elem_of_app, elem_of_cons, elem_of_Remove. tauto.
    + intros k' e Hne He.
      pose proof (resident_other c k' e elt it Hr He Hin Hit
                    ltac:(congruence)) as Hid.
      destruct (Hc k' e He) as (Hm & _). rewrite elem_of_app in Hm.
      rewrite elem_of_app, elem_of_cons, elem_of_Remove. tauto.
  - destruct (listContains (t2 c) elt) eqn:H2; [|done].
    assert (Hin2 : elt ∈ t2 c).
    { apply (resident_contains c k); try done.
      intros e He. apply elem_of_app. by right. }
    apply (resident_members c); simpl; try done.
    intros e. unfold MoveToFront. unfold listContains in H2. rewrite H2.
    rewrite !elem_of_app, elem_of_cons, elem_of_Remove. split.
    + intros [?|[->|[? _]]]; auto.
    + intros [?|He]; [by left|]. right.
      destruct (decide (eid e = eid elt)) as [Heq|Hne]; [|by right].
      left. apply Hinj; [apply elem_of_app; by right|done|done].
Qed.

Lemma resident_request (k : string) (c c' : ARCCache) :
  ARC_resident c -> request k c = Ok c' -> ARC_resident c'.
Proof.
  intros Hr H. pose proof Hr as (Hinj & Hlt & Hh & Hc).
  unfold request in H.
  assert (Hgen : forall x, ARC_resident
            (pushT2 k (fresh (moveToT2 k (set_p x c)))
               (snd (newItem (mkItem k VNil 0) (moveToT2 k (set_p x c)))))).
  { intros x.
    assert (Hm : t1 (moveToT2 k (set_p x c)) = t1 c /\
                 t2 (moveToT2 k (set_p x c)) = t2 c /\
                 cache (moveToT2 k (set_p x c)) = cache c /\
                 heap (moveToT2 k (set_p x c)) = heap c /\
                 fresh (moveToT2 k (set_p x c)) = fresh c).
    { unfold moveToT2. simpl.
      destruct (removeFromList (b1 c) k); [done|].
      destruct (removeFromList (b2 c) k); done. }
    destruct Hm as (Ht1 & Ht2 & Hca & Hhe & Hfr).
    apply (resident_add c _ k (mkElement (S (fresh c)) (fresh c)) Hr); simpl;
      rewrite ?Ht1, ?Ht2, ?Hca, ?Hhe, ?Hfr.
    - lia.
    - intros a Ha. apply lookup_insert_is_Some in Ha as [<-|[_ Ha]]; [lia|].
      apply Hh in Ha. lia.
    - intros a it Ha. rewrite lookup_insert_ne; [done|].
      intros <-. assert (fresh c < fresh c)%nat by (apply Hh; eauto). lia.
    - exists (mkItem k VNil 0). by rewrite lookup_insert_eq.
    - done.
    - rewrite elem_of_app, elem_of_cons. auto.
    - intros e. rewrite !elem_of_app, elem_of_cons. tauto.
    - intros k' e _ He. destruct (Hc k' e He) as (Hm & _).
      rewrite elem_of_app in Hm. rewrite elem_of_app, elem_of_cons. tauto. }
  destruct (listContainsKey (b1 c) k).
  - apply bind_Ok in H as (q & _ & H). injection H as <-. apply Hgen.
  - destruct (listContainsKey (b2 c) k).
    + apply bind_Ok in H as (q & _ & H). injection H as <-. apply Hgen.
    + by injection H as <-.
Qed.

Lemma resident_Set (now : Z) (k : string) (v : any) (ttl : Z)
    (c c' : ARCCache) (r : error) :
  ARC_resident c -> Set_ now k v ttl c = Ok (c', r) -> ARC_resident c'.
Proof.
  intros Hr H. unfold Set_ in H.
  destruct (cache c !! k) as [elt|] eqn:Hk.
  - apply bind_Ok in H as (item & Hitem & H). injection H as <- _.
    apply load_Ok in Hitem.
    pose proof Hr as (Hinj & Hlt & Hh & Hc).
    apply resident_touch; [|done].
    split; [|split; [|split]]; simpl; try done.
    + intros a Ha. apply lookup_insert_is_Some in Ha as [<-|[_ Ha]];
        apply Hh; eauto.
    + intros k' e He. destruct (Hc k' e He) as (Hm & it & Hit & Hkey).
      split; [done|].
      destruct (decide (Value elt = Value e)) as [Heq|Hne].
      * rewrite Heq, lookup_insert_eq. eexists. split; [done|]. simpl.
        rewrite Heq in Hitem. congruence.
      * rewrite lookup_insert_ne by done. eauto.
  - apply bind_Ok in H as (c1 & H1 & H).
    apply bind_Ok in H as (c2 & H2 & H).
    unfold newItem in H. injection H as <- _.
    assert (Hr2 : ARC_resident c2).
    { apply (resident_request k c c1 Hr) in H1.
      destruct (Len (t1 c1) + Len (t2 c1) >=? capacity c1).
      - by apply (resident_replace k c1).
      - by injection H2 as <-. }
    pose proof Hr2 as (Hinj & Hlt & Hh & Hc).
    apply (resident_add c2 _ k (mkElement (S (fresh c2)) (fresh c2)) Hr2);
      simpl.
    + lia.
    + intros a Ha. apply lookup_insert_is_Some in Ha as [<-|[_ Ha]]; [lia|].
      apply Hh in Ha. lia.
    + intros a it Ha. rewrite lookup_insert_ne; [done|].
      intros <-. assert (fresh c2 < fresh c2)%nat by (apply Hh; eauto). lia.
    + eexists. by rewrite lookup_insert_eq.
    + done.
    + left.
    + intros e. rewrite elem_of_cons. tauto.
    + intros k' e _ He. destruct (Hc k' e He) as (Hm & _). by right.
Qed.

Lemma resident_Get (now : Z) (k : string) (c c' : ARCCache)
    (r : any * bool) :
  ARC_resident c -> Get now k c = Ok (c', r) -> ARC_resident c'.
Proof.
  intros Hr H. unfold Get in H.
  destruct (cache c !! k) as [elt|] eqn:Hk.
  - apply bind_Ok in H as (item & _ & H).
    destruct ((0 <? expiration item) && (expiration item <? now));
      injection H as <- _.
    + by apply resident_remove.
    + by apply resident_touch.
  - apply bind_Ok in H as (c1 & H1 & H). injection H as <- _.
    by apply (resident_request k c).
Qed.

Lemma resident_step (c c' : ARCCache) (o : op) :
  ARC_resident c -> step c o = Ok c' -> ARC_resident c'.
Proof.
  intros Hr H. destruct o as [now k v ttl|now k|k|]; simpl in H.
  - apply bind_Ok in H as ([c1 r] & H & Hc'). injection Hc' as <-.
    by apply (resident_Set now k v ttl c c1 r).
  - apply bind_Ok in H as ([c1 r] & H & Hc'). injection Hc' as <-.
    by apply (resident_Get now k c c1 r).
  - injection H as <-. by apply resident_remove.
  - injection H as <-. destruct Hr as (_ & _ & Hh & _).
    split; [|split; [|split]]; simpl; try done.
    + intros e x He. inversion He.
    + intros e He. inversion He.
Qed.

Lemma reachable_resident (cap : Z) (c : ARCCache) :
  reachable cap c -> ARC_resident c.
Proof.
  intros [ops H]. revert H. generalize (resident_New cap).
  generalize (NewARCCache cap). induction ops as [|o ops IH]; intros c0 Hr H.
  - by injection H as <-.
  - simpl in H. apply bind_Ok in H as (c1 & H1 & H).
    apply (IH c1); [|done]. by apply (resident_step c0 c1 o).
Qed.

(** X28: In every state a run of calls reaches, an element the lookup map
    holds for a key is an element of T1 or of T2 and refers to an item
    stored under that key. *)
Theorem ARC_map_leads_to_residents (cap : Z) (c : ARCCache) :
  reachable cap c ->
  forall k e, cache c !! k = Some e ->
    (e ∈ t1 c \/ e ∈ t2 c) /\
    exists it, heap c !! Value e = Some it /\ key it = k.
Proof.
  intros Hr k e He.
  destruct (reachable_resident cap c Hr) as (_ & _ & _ & Hc).
  destruct (Hc k e He) as (Hin & Hit).
  split; [by apply elem_of_app|done].
Qed.

Lemma ARC_map_leads_to_residents_witness :
  (mkElement 1 0 ∈ t1 sampleARC \/ mkElement 1 0 ∈ t2 sampleARC) /\
  exists it, heap sampleARC !! Value (mkElement 1 0) = Some it /\
             key it = "k".
Proof.
  apply (ARC_map_leads_to_residents 2 sampleARC).
  - exists [OSet 0 "k" (VInt 1) 5]. vm_compute; reflexivity.
  - vm_compute; reflexivity.
Defined.




End ARCResident.

(** ** Emptying a cache *)

Module Emptying.


End Emptying.
